(** * gopkg-cli: option resolution and subcommand dispatch ([src/cli.go])

    A shallow embedding of the [cli] package and the properties of its
    specification.  Strings are byte strings ([string], [list ascii]);
    identifiers and option names are taken to be ASCII, so that
    [strings.ToLower] and [strings.ToUpper] act on the letters [a-z] and
    [A-Z] only.  The parts of Go's standard library the package calls
    ([regexp], [flag], [reflect], [strconv], [os]) are embedded as far as
    [cli.go] observes them. *)

From Stdlib Require Import Ascii String List ZArith Lia Bool Sorted.
From stdpp Require Import base option list gmap strings sorting.
Import ListNotations.

Local Open Scope string_scope.
Local Open Scope list_scope.
Local Open Scope nat_scope.

(** ** Characters *)

Module Char.

Definition code (c : ascii) : nat := nat_of_ascii c.

(** The character classes of the two regular expressions. *)
Definition isUpper (c : ascii) : bool := (65 <=? code c) && (code c <=? 90).
Definition isLower (c : ascii) : bool := (97 <=? code c) && (code c <=? 122).
Definition isDigit (c : ascii) : bool := (48 <=? code c) && (code c <=? 57).
Definition isLowerDigit (c : ascii) : bool := isLower c || isDigit c.
Definition isAlnum (c : ascii) : bool := isUpper c || isLower c || isDigit c.

(** [.] of Go's [regexp] (no [s] flag): every character but a newline. *)
Definition isDot (c : ascii) : bool := negb (code c =? 10).

Definition dash : ascii := "-"%char.

Definition toLower (c : ascii) : ascii :=
  if isUpper c then ascii_of_nat (code c + 32) else c.
Definition toUpper (c : ascii) : ascii :=
  if isLower c then ascii_of_nat (code c - 32) else c.

End Char.

(** ** [regexp]: the two patterns and [ReplaceAllString] *)

Module Regexp.
Import Char.

(** The result of matching a two-group pattern at the head of the input:
    the text of [$1], the text of [$2] and what follows the match. *)
Definition submatch : Type := list ascii * list ascii * list ascii.

(** The longest prefix of [s] in [[a-z]], and the rest: the greedy
    [[a-z]+] once its first character is known to match. *)
Fixpoint spanLower (s : list ascii) : list ascii * list ascii :=
  match s with
  | c :: tl =>
      if isLower c then let '(run, rest) := spanLower tl in (c :: run, rest)
      else ([], s)
  | [] => ([], [])
  end.

(** [matchFirstCap = (.)([A-Z][a-z]+)], anchored at the head of [s]. *)
Definition matchFirstCap (s : list ascii) : option submatch :=
  match s with
  | c :: u :: l :: tl =>
      if isDot c && isUpper u && isLower l
      then let '(run, rest) := spanLower tl in Some ([c], u :: l :: run, rest)
      else None
  | _ => None
  end.

(** [matchAllCap = ([a-z0-9])([A-Z])], anchored at the head of [s]. *)
Definition matchAllCap (s : list ascii) : option submatch :=
  match s with
  | c :: u :: tl =>
      if isLowerDigit c && isUpper u then Some ([c], [u], tl) else None
  | _ => None
  end.

(** [re.ReplaceAllString(s, "${1}-${2}")]: the leftmost match is replaced,
    the search resumes behind it, unmatched text is copied.  Both patterns
    match at least two characters, so [fuel = length s] never runs out. *)
Fixpoint replaceAllFrom (re : list ascii -> option submatch)
    (fuel : nat) (s : list ascii) : list ascii :=
  match fuel with
  | 0 => s
  | S fuel' =>
      match s with
      | [] => []
      | c :: tl =>
          match re s with
          | Some (g1, g2, rest) =>
              g1 ++ dash :: g2 ++ replaceAllFrom re fuel' rest
          | None => c :: replaceAllFrom re fuel' tl
          end
      end
  end.

Definition ReplaceAll (re : list ascii -> option submatch) (s : list ascii)
  : list ascii :=
  replaceAllFrom re (length s) s.

End Regexp.

(** ** [strings.ToLower], [strings.ToUpper] and [ToSnakeCase] *)

(** Strings are sequences of bytes.  [ToLower] and [ToUpper] are
    [strings.ToLower] and [strings.ToUpper] as they act on ASCII text: the
    letters [A-Z] and [a-z] change case and every other character below 128
    stays.  On text with bytes from 128 on Go maps whole runes (and
    replaces invalid UTF-8); that is outside this model, and the theorems
    that open these definitions are stated for ASCII text. *)
Definition ToLower (s : string) : string :=
  string_of_list_ascii (map Char.toLower (list_ascii_of_string s)).

Definition ToUpper (s : string) : string :=
  string_of_list_ascii (map Char.toUpper (list_ascii_of_string s)).

(** [ToSnakeCase] on the characters of the string. *)
Definition snakeChars (s : list ascii) : list ascii :=
  let snake := Regexp.ReplaceAll Regexp.matchFirstCap s in
  let snake := Regexp.ReplaceAll Regexp.matchAllCap snake in
  map Char.toLower snake.

Definition ToSnakeCase (str : string) : string :=
  string_of_list_ascii (snakeChars (list_ascii_of_string str)).

(** *** The separator rule in one pass *)

Module Deriver.
Import Char.

Definition nextIsLower (s : list ascii) : bool :=
  match s with
  | l :: _ => isLower l
  | [] => false
  end.

(** One pass over [s] that writes a separator before [c] whenever
    [rule p c tl] holds of the character [p] before it and the text [tl]
    behind it. *)
Fixpoint hyphenateBy (rule : ascii -> ascii -> list ascii -> bool)
    (prev : option ascii) (s : list ascii) : list ascii :=
  match s with
  | [] => []
  | c :: tl =>
      let rest := c :: hyphenateBy rule (Some c) tl in
      match prev with
      | Some p => if rule p c tl then dash :: rest else rest
      | None => rest
      end
  end.

(** The rule of the specification: [c] is upper case and either follows a
    lower-case letter or a digit, or follows an upper-case letter and
    begins a run of lower-case letters. *)
Definition specRule (p c : ascii) (tl : list ascii) : bool :=
  isUpper c && (isLowerDigit p || (isUpper p && nextIsLower tl)).

(** What the two replacements do together, on any text: as [specRule],
    but the character before a capitalised word may be any [.]. *)
Definition codeRule (p c : ascii) (tl : list ascii) : bool :=
  isUpper c && (isLowerDigit p || (isDot p && nextIsLower tl)).

(** What [matchAllCap] alone does. *)
Definition allCapRule (p c : ascii) (tl : list ascii) : bool :=
  isLowerDigit p && isUpper c.

(** What [matchFirstCap] alone does: [consumed] tells that [prev] lies
    inside the match before, where no new match can begin. *)
Fixpoint firstCapPass (prev : option ascii) (consumed : bool)
    (s : list ascii) : list ascii :=
  match s with
  | [] => []
  | c :: tl =>
      let sep := match prev with
                 | Some p => negb consumed && isDot p && isUpper c
                             && nextIsLower tl
                 | None => false
                 end in
      let rest := c :: firstCapPass (Some c) (sep || (consumed && isLower c)) tl in
      if sep then dash :: rest else rest
  end.

End Deriver.

(** The name deriver as the specification words it. *)
Definition NameDeriver (identifier : string) : string :=
  string_of_list_ascii
    (map Char.toLower
       (Deriver.hyphenateBy Deriver.specRule None
          (list_ascii_of_string identifier))).

Definition isAlnumString (s : string) : Prop :=
  Forall (fun c => Char.isAlnum c = true) (list_ascii_of_string s).

(** ** [strconv.ParseBool] and error values *)

Inductive error : Type :=
  | Errorf (msg : string)                (* [fmt.Errorf], [errors.New] *)
  | NumError (func num : string)         (* [*strconv.NumError], [ErrSyntax] *)
  | ErrHelp.                             (* [flag.ErrHelp] *)

Definition ParseBool (str : string) : bool + error :=
  if bool_decide (str ∈ ["1"; "t"; "T"; "true"; "TRUE"; "True"]) then inl true
  else if bool_decide (str ∈ ["0"; "f"; "F"; "false"; "FALSE"; "False"])
  then inl false
  else inr (NumError "ParseBool" str).

(** ** [reflect]: struct types, field values and [SetString] *)

Module Reflect.

(** A struct tag in its conventional form, as the key/value pairs it
    spells, in order; [Lookup] returns the first pair of the key. *)
Definition StructTag : Type := list (string * string).

Definition Lookup (tag : StructTag) (key : string) : option string :=
  snd <$> List.find (fun kv => String.eqb (fst kv) key) tag.

Definition Get (tag : StructTag) (key : string) : string :=
  default "" (Lookup tag key).

Record StructFieldOf (T : Type) : Type := mkField {
  Name : string;
  Tag : StructTag;
  Embedded : bool;
  Type_ : T
}.
Arguments mkField {T}.
Arguments Name {T}.
Arguments Tag {T}.
Arguments Embedded {T}.
Arguments Type_ {T}.

(** [reflect.Type], by the kinds [structUnwrap] tells apart: a struct
    with its fields, a string, or any other kind. *)
#[local] Unset Elimination Schemes.
Inductive rtype : Type :=
  | TString
  | TOther
  | TStruct (fields : list (StructFieldOf rtype)).
#[local] Set Elimination Schemes.

Abbreviation StructField := (StructFieldOf rtype).

Definition isStruct (t : rtype) : bool :=
  match t with TStruct _ => true | _ => false end.

(** [reflect.Value] of an addressable location inside the options record:
    the path of field indices from the record, the type stored there and
    the two read-only flags. *)
Record Value : Type := mkValue {
  typ : rtype;
  addr : list nat;
  stickyRO : bool;
  embedRO : bool
}.

(** [StructField.IsExported]: the name starts with an upper-case letter,
    here one of [A-Z]; a name that starts with an upper-case letter from
    outside ASCII is outside this model. *)
Definition IsExported (name : string) : bool :=
  match name with
  | String c _ => Char.isUpper c
  | EmptyString => false
  end.

(** [v.Field(i)] for the [i]-th field [f] of the struct [v] holds:
    [flagStickyRO] is inherited, [flagEmbedRO] is not, and an unexported
    field sets one of them. *)
Definition Field (v : Value) (i : nat) (f : StructField) : Value :=
  {| typ := Type_ f;
     addr := addr v ++ [i];
     stickyRO := stickyRO v || (negb (IsExported (Name f)) && negb (Embedded f));
     embedRO := negb (IsExported (Name f)) && Embedded f |}.

(** [v.SetString(x)]: panics ([None]) unless [v] is assignable and of kind
    [String]; otherwise the location holds [x]. *)
Definition SetString (v : Value) (x : string)
    (m : gmap (list nat) string) : option (gmap (list nat) string) :=
  if stickyRO v || embedRO v then None
  else match typ v with
       | TString => Some (<[addr v := x]> m)
       | _ => None
       end.

End Reflect.

(** ** [Opt] *)

Inductive optState : Type :=
  | OptStateUntouched
  | OptStateFlagPassed
  | OptStateEnvPassed.

Global Instance optState_eq_dec : EqDecision optState.
Proof. solve_decision. Defined.

Module Opt.
Record t : Type := mk {
  Name : string;
  Description : string;
  Value : string;
  State : optState;
  SetFunc : string -> gmap (list nat) string -> option (gmap (list nat) string);
  Required : bool
}.
End Opt.
Abbreviation Opt := Opt.t.

(** ** The state of one run *)

(** Where [opt.SetFunc] is called from: [Opt.Set] (a flag matched) or the
    environment fallback of [Init]. *)
Inductive site : Type := ByFlag | ByEnv.

Inductive event : Type :=
  | EvSetFunc (s : site) (opt : nat) (val : string)
  | EvLog (remaining : list string)
  | EvRun (name : string).

(** [record] is the storage of the options record, by field path; [heap]
    holds the [Opt] objects, a [*Opt] being an index into it; [trace] is
    the history of setter calls, log lines and actions run. *)
Record World : Type := mkWorld {
  record : gmap (list nat) string;
  heap : list Opt;
  trace : list event
}.

(** How a computation ends: it returns, the process exits ([os.Exit]) or it
    panics. *)
Inductive outcome (A : Type) : Type :=
  | Return (a : A)
  | Exit (code : Z)
  | Panic (msg : string).
Arguments Return {A}.
Arguments Exit {A}.
Arguments Panic {A}.

Definition M (A : Type) : Type := World -> outcome A * World.

Definition ret {A} (a : A) : M A := fun w => (Return a, w).

Definition bind {A B} (m : M A) (k : A -> M B) : M B :=
  fun w =>
    match m w with
    | (Return a, w') => k a w'
    | (Exit c, w') => (Exit c, w')
    | (Panic msg, w') => (Panic msg, w')
    end.

Notation "'let*' x := m 'in' k" := (bind m (fun x => k))
  (at level 10, x name, m at level 100, k at level 200).

Definition panic {A} (msg : string) : M A := fun w => (Panic msg, w).
Definition exit {A} (code : Z) : M A := fun w => (Exit code, w).

Definition addEvent (w : World) (e : event) : World :=
  mkWorld (record w) (heap w) (trace w ++ [e]).

Definition emit (e : event) : M unit := fun w => (Return tt, addEvent w e).

(** The panic values: a [nil] dereference, and [SetString] on a value that
    is no assignable string ([setPanic] stands for the messages of
    [reflect], which name the kind of the value or the unexported field). *)
Definition nilDeref : string :=
  "runtime error: invalid memory address or nil pointer dereference".
Definition setPanic : string := "reflect: call of reflect.Value.SetString".

(** [*p] for [p : *Opt]. *)
Definition load (p : nat) : M Opt :=
  fun w => match heap w !! p with
           | Some o => (Return o, w)
           | None => (Panic nilDeref, w)
           end.

(** [*p = o]. *)
Definition store (p : nat) (o : Opt) : M unit :=
  fun w => (Return tt,
            {| record := record w;
               heap := <[p := o]> (heap w); trace := trace w |}).

(** [&Opt{...}]: a new object behind the ones allocated so far. *)
Definition alloc (o : Opt) : M nat :=
  fun w => (Return (length (heap w)),
            {| record := record w;
               heap := heap w ++ [o]; trace := trace w |}).

(** [opt.SetFunc(val)] for the object at [p], called from [s]. *)
Definition callSetFunc (s : site) (p : nat) (val : string) : M unit :=
  let* opt := load p in
  let* _ := emit (EvSetFunc s p val) in
  fun w => match Opt.SetFunc opt val (record w) with
           | Some r => (Return tt,
                        {| record := r; heap := heap w; trace := trace w |})
           | None => (Panic setPanic, w)
           end.

Definition setValue (o : Opt) (v : string) : Opt :=
  Opt.mk (Opt.Name o) (Opt.Description o) v (Opt.State o) (Opt.SetFunc o)
         (Opt.Required o).
Definition setState (o : Opt) (s : optState) : Opt :=
  Opt.mk (Opt.Name o) (Opt.Description o) (Opt.Value o) s (Opt.SetFunc o)
         (Opt.Required o).
Definition setRequired (o : Opt) (r : bool) : Opt :=
  Opt.mk (Opt.Name o) (Opt.Description o) (Opt.Value o) (Opt.State o)
         (Opt.SetFunc o) r.

(** [func (opt *Opt) String() string] *)
Definition Opt_String (opt : nat) : M string :=
  let* o := load opt in ret (Opt.Value o).

(** [func (opt *Opt) Set(flagval string) error] *)
Definition Opt_Set (opt : nat) (flagval : string) : M (option error) :=
  let* _ := callSetFunc ByFlag opt flagval in
  let* o := load opt in
  let* _ := store opt (setValue o flagval) in
  let* o := load opt in
  let* _ := store opt (setState o OptStateFlagPassed) in
  ret None.

(** [os.LookupEnv(key)] in the environment [environ] of the process. *)
Definition LookupEnv (environ : gmap string string) (key : string)
  : option string :=
  environ !! key.

(** ** [flag]: [FlagSet], [Var] and [Parse] *)

Module Flag.

Inductive ErrorHandling : Type := ContinueOnError | ExitOnError | PanicOnError.

(** [formal] maps a flag's name to its [Value], here the [*Opt]. *)
Record FlagSet : Type := mkFlagSet {
  name : string;
  formal : gmap string nat;
  args : list string;
  errorHandling : ErrorHandling
}.

Definition NewFlagSet (name : string) (eh : ErrorHandling) : FlagSet :=
  {| name := name; formal := ∅; args := []; errorHandling := eh |}.

Definition setArgs (f : FlagSet) (a : list string) : FlagSet :=
  {| name := name f; formal := formal f; args := a;
     errorHandling := errorHandling f |}.

Definition Args (f : FlagSet) : list string := args f.

Fixpoint indexFrom (c : ascii) (from pos : nat) (s : string) : option nat :=
  match s with
  | EmptyString => None
  | String x tl =>
      if (from <=? pos) && Ascii.eqb x c then Some pos
      else indexFrom c from (S pos) tl
  end.

Definition sliceFrom (n : nat) (s : string) : string :=
  substring n (String.length s - n) s.

Definition byteIs (s : string) (i : nat) (c : ascii) : bool :=
  match String.get i s with
  | Some x => Ascii.eqb x c
  | None => false
  end.

(** [%q] of a name without characters to escape. *)
Definition quoted (s : string) : string :=
  String (ascii_of_nat 34) s ++ String (ascii_of_nat 34) "".

(** [f.Var(value, name, usage)] *)
Definition Var (f : FlagSet) (value : nat) (nm usage : string) : M FlagSet :=
  if String.prefix "-" nm then panic ("flag " ++ quoted nm ++ " begins with -")
  else if bool_decide (is_Some (indexFrom "="%char 0 0 nm))
  then panic ("flag " ++ quoted nm ++ " contains =")
  else
    let* _ := Opt_String value in
    if bool_decide (is_Some (formal f !! nm)) then
      if String.eqb (name f) "" then panic ("flag redefined: " ++ nm)
      else panic (name f ++ " flag redefined: " ++ nm)
    else
      ret {| name := name f; formal := <[nm := value]> (formal f);
             args := args f; errorHandling := errorHandling f |}.

(** [f.parseOne()]: whether a flag was seen, the error, and the flag set
    with its remaining arguments.  What [failf] and [usage] print is left
    out.  [Opt.Set] returns [nil], so no value is invalid. *)
Definition parseOne (f : FlagSet) : M (bool * option error * FlagSet) :=
  match args f with
  | [] => ret (false, None, f)
  | s :: rest =>
      if (String.length s <? 2) || negb (byteIs s 0 "-"%char)
      then ret (false, None, f)
      else
        let numMinuses := if byteIs s 1 "-"%char then 2 else 1 in
        if byteIs s 1 "-"%char && (String.length s =? 2)
        then ret (false, None, setArgs f rest)
        else
          let nm := sliceFrom numMinuses s in
          if (String.length nm =? 0) || byteIs nm 0 "-"%char
             || byteIs nm 0 "="%char
          then ret (false, Some (Errorf ("bad flag syntax: " ++ s)), f)
          else
            let f := setArgs f rest in
            let '(nm, hasValue, value) :=
              match indexFrom "="%char 1 0 nm with
              | Some i => (substring 0 i nm, true, sliceFrom (S i) nm)
              | None => (nm, false, "")
              end in
            match formal f !! nm with
            | None =>
                if String.eqb nm "help" || String.eqb nm "h"
                then ret (false, Some ErrHelp, f)
                else ret (false,
                          Some (Errorf ("flag provided but not defined: -"
                                        ++ nm)), f)
            | Some flag =>
                let '(hasValue, value, f) :=
                  match hasValue, args f with
                  | false, v :: rest' => (true, v, setArgs f rest')
                  | _, _ => (hasValue, value, f)
                  end in
                if negb hasValue
                then ret (false,
                          Some (Errorf ("flag needs an argument: -" ++ nm)), f)
                else
                  let* err := Opt_Set flag value in
                  match err with
                  | Some _ =>
                      ret (false,
                           Some (Errorf ("invalid value for flag -" ++ nm)), f)
                  | None => ret (true, None, f)
                  end
            end
  end.

(** The loop of [f.Parse]: [parseOne] until it sees no flag.  Every flag
    seen consumes an argument, so [fuel] above the number of arguments
    never runs out. *)
Fixpoint parseLoop (fuel : nat) (f : FlagSet) : M (option error * FlagSet) :=
  match fuel with
  | 0 => ret (None, f)
  | S fuel' =>
      let* r := parseOne f in
      let '(seen, err, f) := r in
      if seen then parseLoop fuel' f
      else
        match err with
        | None => ret (None, f)
        | Some e =>
            match errorHandling f with
            | ContinueOnError => ret (Some e, f)
            | ExitOnError =>
                match e with
                | ErrHelp => exit 0%Z
                | _ => exit 2%Z
                end
            | PanicOnError => panic "flag: parse error"
            end
        end
  end.

(** [f.Parse(arguments)] *)
Definition Parse (f : FlagSet) (arguments : list string)
  : M (option error * FlagSet) :=
  parseLoop (S (length arguments)) (setArgs f arguments).

End Flag.

(** ** [Cmd] *)

Module Cmd.
(** [Opts] is [nil] or a pointer to a struct, given by the struct's
    fields; its storage is [record].  [ParsedOpts] is a list of [*Opt].
    [Run] is [nil] or an action, which reads the record and returns an
    error or [nil]. *)
#[local] Unset Elimination Schemes.
Inductive t : Type := mk {
  ExecutedAs : string;
  Name : string;
  Args : list string;
  Opts : option (list Reflect.StructField);
  SubCmds : list t;
  ParsedOpts : list nat;
  Run : option (gmap (list nat) string -> option error)
}.
#[local] Set Elimination Schemes.

Definition setExecutedAs (c : t) (a : string) : t :=
  mk a (Name c) (Args c) (Opts c) (SubCmds c) (ParsedOpts c) (Run c).
End Cmd.
Abbreviation Cmd := Cmd.t.

(** ** Field discovery: [structUnwrap] and [reflectStruct] *)

Record reflected : Type := mkReflected {
  Type_ : Reflect.rtype;
  Field : Reflect.StructField;
  Value : Reflect.Value
}.

Definition mkItem (v : Reflect.Value) (fieldIndex : nat)
    (f : Reflect.StructField) : reflected :=
  {| Type_ := Reflect.Type_ f; Field := f;
     Value := Reflect.Field v fieldIndex f |}.

(** [structUnwrap] on the type and the value of [r]: the loop runs over the
    fields from [fieldIndex] on, and [fields] grows by [append].  A field of
    kind [Struct] contributes what is found in it, any other field itself.
    [NumField] on a type that is no struct panics; no call reaches that. *)
Fixpoint unwrapType (t : Reflect.rtype) (v : Reflect.Value) : list reflected :=
  match t with
  | Reflect.TStruct fs =>
      (fix loop (fieldIndex : nat) (fs : list Reflect.StructField)
         : list reflected :=
         match fs with
         | [] => []
         | f :: fs' =>
             let item := mkItem v fieldIndex f in
             match Reflect.Type_ f with
             | Reflect.TStruct _ =>
                 unwrapType (Reflect.Type_ f) (Value item)
                   ++ loop (S fieldIndex) fs'
             | _ => item :: loop (S fieldIndex) fs'
             end
         end) 0 fs
  | _ => []
  end.

Definition zeroField : Reflect.StructField :=
  Reflect.mkField "" [] false Reflect.TOther.

Definition structUnwrap (r : reflected) : list reflected :=
  unwrapType (Type_ r) (Value r).

(** [reflectStruct(i)] for [i] a pointer to a struct with fields [fs]: the
    pointee is addressable and writable. *)
Definition reflectStruct (fs : list Reflect.StructField) : list reflected :=
  structUnwrap {| Type_ := Reflect.TStruct fs; Field := zeroField;
                  Value := Reflect.mkValue (Reflect.TStruct fs) [] false false |}.

(** The loop of [structUnwrap] for the struct at [v], from [fieldIndex]
    on, with the recursive call as [structUnwrap] itself. *)
Fixpoint unwrapFrom (v : Reflect.Value) (fieldIndex : nat)
    (fs : list Reflect.StructField) : list reflected :=
  match fs with
  | [] => []
  | f :: fs' =>
      let item := mkItem v fieldIndex f in
      (if Reflect.isStruct (Reflect.Type_ f) then structUnwrap item else [item])
        ++ unwrapFrom v (S fieldIndex) fs'
  end.

(** The number of leaf fields of a type: a struct has those of its fields,
    at any depth; any other type is one leaf. *)
Fixpoint leafCount (t : Reflect.rtype) : nat :=
  match t with
  | Reflect.TStruct fs =>
      (fix sum (fs : list Reflect.StructField) : nat :=
         match fs with
         | [] => 0
         | f :: fs' => leafCount (Reflect.Type_ f) + sum fs'
         end) fs
  | _ => 1
  end.

(** Declaration order on field paths: the order in which a depth-first
    walk meets them. *)
Fixpoint pathLt (p q : list nat) : Prop :=
  match p, q with
  | _, [] => False
  | [], _ :: _ => True
  | a :: p', b :: q' => a < b \/ (a = b /\ pathLt p' q')
  end.

(** The field at a path of indices inside a struct with fields [fs]. *)
Fixpoint fieldAt (fs : list Reflect.StructField) (path : list nat)
  : option Reflect.StructField :=
  match path with
  | [] => None
  | i :: rest =>
      match fs !! i with
      | None => None
      | Some f =>
          match rest, Reflect.Type_ f with
          | [], _ => Some f
          | _ :: _, Reflect.TStruct sub => fieldAt sub rest
          | _ :: _, _ => None
          end
      end
  end.

(** ** [Cmd.Init] *)

(** The body of the first loop of [Init] for one discovered field: [inl] is
    the early [return err]. *)
Definition register (ref : reflected) (flags : Flag.FlagSet)
    (parsed : list nat) : M (error + Flag.FlagSet * list nat) :=
  let* opt := alloc {| Opt.Name := ToSnakeCase (Reflect.Name (Field ref));
                       Opt.Description := Reflect.Get (Reflect.Tag (Field ref)) "desc";
                       Opt.Value := "";
                       Opt.State := OptStateUntouched;
                       Opt.SetFunc := Reflect.SetString (Value ref);
                       Opt.Required := false |} in
  let continue : M (error + Flag.FlagSet * list nat) :=
    let parsed := parsed ++ [opt] in
    let* o := load opt in
    let* flags := Flag.Var flags opt (Opt.Name o) (Opt.Description o) in
    ret (inr (flags, parsed)) in
  match Reflect.Lookup (Reflect.Tag (Field ref)) "required" with
  | Some requiredTag =>
      match ParseBool requiredTag with
      | inr err => ret (inl err)
      | inl required =>
          let* o := load opt in
          let* _ := store opt (setRequired o required) in
          continue
      end
  | None => continue
  end.

Fixpoint registerAll (refs : list reflected) (flags : Flag.FlagSet)
    (parsed : list nat) : M (error + Flag.FlagSet * list nat) :=
  match refs with
  | [] => ret (inr (flags, parsed))
  | ref :: refs' =>
      let* r := register ref flags parsed in
      match r with
      | inl err => ret (inl err)
      | inr (flags, parsed) => registerAll refs' flags parsed
      end
  end.

Section Process.
(** The arguments ([os.Args]) and the environment of the process. *)
Context (osArgs : list string) (environ : gmap string string).

Definition requiredError (name : string) : error :=
  Errorf ("opt '" ++ name ++ "' is required but not passed").

(** The body of the second loop of [Init] for one [*Opt]: [Some] is the
    early [return]. *)
Definition resolve (opt : nat) : M (option error) :=
  let* o := load opt in
  let* _ :=
    if bool_decide (Opt.State o ≠ OptStateFlagPassed) then
      match LookupEnv environ (ToUpper (Opt.Name o)) with
      | Some envval =>
          let* _ := callSetFunc ByEnv opt envval in
          let* o := load opt in
          let* _ := store opt (setValue o envval) in
          let* o := load opt in
          store opt (setState o OptStateEnvPassed)
      | None => ret tt
      end
    else ret tt in
  let* o := load opt in
  if bool_decide (Opt.State o = OptStateUntouched) && Opt.Required o
  then ret (Some (requiredError (Opt.Name o)))
  else ret None.

Fixpoint resolveAll (parsed : list nat) : M (option error) :=
  match parsed with
  | [] => ret None
  | opt :: rest =>
      let* r := resolve opt in
      match r with
      | Some err => ret (Some err)
      | None => resolveAll rest
      end
  end.

(** [func (cmd Cmd) Init(args []string) error] *)
Definition Init (cmd : Cmd) (args : list string) : M (option error) :=
  match Cmd.Opts cmd with
  | None => ret None
  | Some opts =>
      let flags := Flag.NewFlagSet (Cmd.Name cmd) Flag.ExitOnError in
      let* r := registerAll (reflectStruct opts) flags (Cmd.ParsedOpts cmd) in
      match r with
      | inl err => ret (Some err)
      | inr (flags, parsed) =>
          let* r := Flag.Parse flags args in
          let flags := snd r in
          let* _ := emit (EvLog (Flag.Args flags)) in
          resolveAll parsed
      end
  end.

(** ** [Cmd.SubCmd] and [Cmd.Execute] *)

(** [func (cmd Cmd) SubCmd(subcmdname string)]: a pointer to a copy of the
    first subcommand of that name, or [nil, false]. *)
Definition SubCmd (cmd : Cmd) (subcmdname : string) : option Cmd :=
  List.find (fun subcmd => String.eqb (Cmd.Name subcmd) subcmdname)
            (Cmd.SubCmds cmd).

(** The loop of [Execute]: from [targetCmd] down, one argument per level,
    until a command without subcommands is reached. *)
Fixpoint route (targetCmd : Cmd) (args : list string)
  : error + Cmd * list string :=
  match Cmd.SubCmds targetCmd with
  | [] => inr (targetCmd, args)
  | _ :: _ =>
      match args with
      | [] => inl (Errorf (Cmd.Name targetCmd ++ ": not engough arguments"))
      | subCmdName :: args' =>
          match SubCmd targetCmd subCmdName with
          | None =>
              inl (Errorf ("'" ++ subCmdName ++ "' is not a "
                           ++ Cmd.Name targetCmd ++ " command"))
          | Some subCmd => route subCmd args'
          end
      end
  end.

(** [targetCmd.Run()] *)
Definition callRun (targetCmd : Cmd) : M (option error) :=
  match Cmd.Run targetCmd with
  | None => panic nilDeref
  | Some action =>
      let* _ := emit (EvRun (Cmd.Name targetCmd)) in
      fun w => (Return (action (record w)), w)
  end.

(** [func (cmd Cmd) Execute() error] *)
Definition Execute (cmd : Cmd) : M (option error) :=
  match osArgs with
  | [] => panic "runtime error: index out of range [0] with length 0"
  | arg0 :: args =>
      let cmd := Cmd.setExecutedAs cmd arg0 in
      match route cmd args with
      | inl err => ret (Some err)
      | inr (targetCmd, args) =>
          let* err := Init targetCmd args in
          match err with
          | Some err => ret (Some err)
          | None => callRun targetCmd
          end
      end
  end.

End Process.

(** ** [Cmd.AddSubCmd]: the struct in memory, slices and [append] *)

Module Slice.

(** A slice header: the backing array, the offset of the first element
    in it, length and capacity. *)
Record t : Type := mk { array : nat; off : nat; len : nat; cap : nat }.

Section Elems.
Context {A : Type}.

(** The arrays allocated so far, by address. *)
Definition elems (mem : gmap nat (list A)) (s : t) : list A :=
  take (len s) (drop (off s) (default [] (mem !! array s))).

(** The header is backed: it is empty without capacity (as [nil] is),
    or its capacity lies inside an allocated array. *)
Definition wf (mem : gmap nat (list A)) (s : t) : Prop :=
  len s <= cap s /\
  (cap s = 0 \/
   exists a, mem !! array s = Some a /\ off s + cap s <= length a).

(** [append(s, x)]: in place when the capacity allows it, otherwise into
    a new array of [grow] elements; [zero] fills what is not used. *)
Definition append (zero : A) (grow : nat -> nat)
    (mem : gmap nat (list A)) (s : t) (x : A) : gmap nat (list A) * t :=
  if len s <? cap s then
    (alter (fun a => <[off s + len s := x]> a) (array s) mem,
     {| array := array s; off := off s; len := S (len s); cap := cap s |})
  else
    let a := fresh (dom mem) in
    let newcap := S (len s) `max` grow (S (len s)) in
    (<[a := elems mem s ++ x :: replicate (newcap - S (len s)) zero]> mem,
     {| array := a; off := 0; len := S (len s); cap := newcap |}).
End Elems.

End Slice.

Module CmdMem.

(** A [Cmd] value as it lies in memory: [SubCmds] is a slice header over
    an array of such values. *)
Record t : Type := mk {
  ExecutedAs : string;
  Name : string;
  Args : list string;
  Opts : option (list Reflect.StructField);
  SubCmds : Slice.t;
  ParsedOpts : list nat;
  Run : option (gmap (list nat) string -> option error)
}.

Definition setSubCmds (c : t) (s : Slice.t) : t :=
  mk (ExecutedAs c) (Name c) (Args c) (Opts c) s (ParsedOpts c) (Run c).

Definition setExecutedAs (c : t) (a : string) : t :=
  mk a (Name c) (Args c) (Opts c) (SubCmds c) (ParsedOpts c) (Run c).

(** The zero value of [Cmd]: [SubCmds] is [nil]. *)
Definition zero : t := mk "" "" [] None (Slice.mk 0 0 0 0) [] None.

(** The command a value holds, its subcommands read through the headers
    down to [depth] levels (arrays can hold headers over themselves, so
    there is no reading to the end). *)
Fixpoint read (depth : nat) (mem : gmap nat (list t)) (c : t) : Cmd :=
  Cmd.mk (ExecutedAs c) (Name c) (Args c) (Opts c)
         (match depth with
          | 0 => []
          | S depth' => map (read depth' mem) (Slice.elems mem (SubCmds c))
          end)
         (ParsedOpts c) (Run c).

End CmdMem.

(** [func (cmd Cmd) AddSubCmd(subcmd Cmd)]: [cmd] is the callee's copy of
    the receiver.  The result is the memory after the call and the copy as
    it was when the method returned; the caller keeps its own value. *)
Definition AddSubCmd (grow : nat -> nat) (mem : gmap nat (list CmdMem.t))
    (cmd subcmd : CmdMem.t) : gmap nat (list CmdMem.t) * CmdMem.t :=
  let '(mem, s) :=
    Slice.append CmdMem.zero grow mem (CmdMem.SubCmds cmd) subcmd in
  (mem, CmdMem.setSubCmds cmd s).

(** ** [Cmd.SubCmd] and [Cmd.Execute] on commands in memory *)

(** [SubCmd]: the loop ranges over what the header of [cmd.SubCmds] shows
    of its array. *)
Definition SubCmdIn (mem : gmap nat (list CmdMem.t)) (cmd : CmdMem.t)
    (subcmdname : string) : option CmdMem.t :=
  List.find (fun subcmd => String.eqb (CmdMem.Name subcmd) subcmdname)
            (Slice.elems mem (CmdMem.SubCmds cmd)).

(** The loop of [Execute]; [len(targetCmd.SubCmds)] is the length of the
    header. *)
Fixpoint routeIn (mem : gmap nat (list CmdMem.t)) (targetCmd : CmdMem.t)
    (args : list string) : error + CmdMem.t * list string :=
  match Slice.len (CmdMem.SubCmds targetCmd) with
  | 0 => inr (targetCmd, args)
  | S _ =>
      match args with
      | [] => inl (Errorf (CmdMem.Name targetCmd ++ ": not engough arguments"))
      | subCmdName :: args' =>
          match SubCmdIn mem targetCmd subCmdName with
          | None =>
              inl (Errorf ("'" ++ subCmdName ++ "' is not a "
                           ++ CmdMem.Name targetCmd ++ " command"))
          | Some subCmd => routeIn mem subCmd args'
          end
      end
  end.

(** [Execute]: the target is a command without subcommands; [Init] and
    [Run] get it as the value it is. *)
Definition ExecuteIn (osArgs : list string) (environ : gmap string string)
    (mem : gmap nat (list CmdMem.t)) (cmd : CmdMem.t) : M (option error) :=
  match osArgs with
  | [] => panic "runtime error: index out of range [0] with length 0"
  | arg0 :: args =>
      let cmd := CmdMem.setExecutedAs cmd arg0 in
      match routeIn mem cmd args with
      | inl err => ret (Some err)
      | inr (targetCmd, args) =>
          let targetCmd := CmdMem.read 1 mem targetCmd in
          let* err := Init environ targetCmd args in
          match err with
          | Some err => ret (Some err)
          | None => callRun targetCmd
          end
      end
  end.

(** * Statements

    What the theorems below speak of: runs of the package as equations,
    the trace of setter calls, the invariant of one run of [Init], and the
    commands of the examples. *)

Import Char Regexp Deriver.

(** What the first pass knows of a consumed [prev]: it is a lower-case
    letter, or the capital of the match, with a lower-case letter next. *)
Definition consumedOk (prev : option ascii) (consumed : bool)
    (s : list ascii) : Prop :=
  consumed = true ->
  match prev with
  | Some p => isLower p = true \/ nextIsLower s = true
  | None => False
  end.

(** What a descriptor found below [v] in a struct with fields [all] is:
    the field of [all] at the path from [v] to it, of a kind that is no
    struct, with its own type and a value of that type. *)
Definition describes (v : Reflect.Value) (all : list Reflect.StructField)
    (r : reflected) : Prop :=
  exists rel,
    Reflect.addr (Value r) = Reflect.addr v ++ rel
    /\ fieldAt all rel = Some (Field r)
    /\ Reflect.isStruct (Type_ r) = false
    /\ Type_ r = Reflect.Type_ (Field r)
    /\ Reflect.typ (Value r) = Type_ r.

Definition pathOf (r : reflected) : list nat := Reflect.addr (Value r).

Definition below (v : Reflect.Value) (i : nat) (r : reflected) : Prop :=
  exists j rest, pathOf r = Reflect.addr v ++ j :: rest /\ i <= j.

(** ** Runs as equations

    The loops of [Init] and of the flag parser, with the monad resolved:
    each lemma gives the outcome and the world a piece of code leaves. *)

Definition written (o : Opt) (v : string) (s : optState) : Opt :=
  setState (setValue o v) s.

(** [callSetFunc] and the two assignments behind it, as [Opt.Set] and the
    environment fallback both have them. *)
Definition assign (s : site) (st : optState) (p : nat) (v : string) : M unit :=
  let* _ := callSetFunc s p v in
  let* o := load p in
  let* _ := store p (setValue o v) in
  let* o := load p in
  store p (setState o st).

(** What [parseOne] decides before it calls [Set]. *)
Inductive action : Type :=
  | Stop (f : Flag.FlagSet)
  | Fail (e : error) (f : Flag.FlagSet)
  | Pass (flag : nat) (nm value : string) (f : Flag.FlagSet).

Definition nextFlag (f : Flag.FlagSet) : action :=
  match Flag.args f with
  | [] => Stop f
  | s :: rest =>
      if (String.length s <? 2) || negb (Flag.byteIs s 0 "-"%char)
      then Stop f
      else
        let numMinuses := if Flag.byteIs s 1 "-"%char then 2 else 1 in
        if Flag.byteIs s 1 "-"%char && (String.length s =? 2)
        then Stop (Flag.setArgs f rest)
        else
          let nm := Flag.sliceFrom numMinuses s in
          if (String.length nm =? 0) || Flag.byteIs nm 0 "-"%char
             || Flag.byteIs nm 0 "="%char
          then Fail (Errorf ("bad flag syntax: " ++ s)) f
          else
            let f := Flag.setArgs f rest in
            let '(nm, hasValue, value) :=
              match Flag.indexFrom "="%char 1 0 nm with
              | Some i => (substring 0 i nm, true, Flag.sliceFrom (S i) nm)
              | None => (nm, false, "")
              end in
            match Flag.formal f !! nm with
            | None =>
                if String.eqb nm "help" || String.eqb nm "h"
                then Fail ErrHelp f
                else Fail (Errorf ("flag provided but not defined: -" ++ nm)) f
            | Some flag =>
                let '(hasValue, value, f) :=
                  match hasValue, Flag.args f with
                  | false, v :: rest' => (true, v, Flag.setArgs f rest')
                  | _, _ => (hasValue, value, f)
                  end in
                if negb hasValue
                then Fail (Errorf ("flag needs an argument: -" ++ nm)) f
                else Pass flag nm value f
            end
  end.

Definition sameSet (f f' : Flag.FlagSet) : Prop :=
  Flag.formal f' = Flag.formal f
  /\ Flag.errorHandling f' = Flag.errorHandling f
  /\ Flag.name f' = Flag.name f.

Definition withHandling (f : Flag.FlagSet) (eh : Flag.ErrorHandling)
  : Flag.FlagSet :=
  {| Flag.name := Flag.name f; Flag.formal := Flag.formal f;
     Flag.args := Flag.args f; Flag.errorHandling := eh |}.

Definition exitCode (e : error) : Z :=
  match e with
  | ErrHelp => 0
  | _ => 2
  end.

Definition optionName (ref : reflected) : string :=
  ToSnakeCase (Reflect.Name (Field ref)).

Definition requiredOf (ref : reflected) : bool :=
  match Reflect.Lookup (Reflect.Tag (Field ref)) "required" with
  | Some requiredTag =>
      match ParseBool requiredTag with
      | inl required => required
      | inr _ => false
      end
  | None => false
  end.

Definition newOpt (ref : reflected) : Opt :=
  {| Opt.Name := optionName ref;
     Opt.Description := Reflect.Get (Reflect.Tag (Field ref)) "desc";
     Opt.Value := "";
     Opt.State := OptStateUntouched;
     Opt.SetFunc := Reflect.SetString (Value ref);
     Opt.Required := false |}.

Definition declared (ref : reflected) : Opt :=
  setRequired (newOpt ref) (requiredOf ref).

(** The error of a [required] tag that is no boolean. *)
Definition tagError (ref : reflected) : option error :=
  match Reflect.Lookup (Reflect.Tag (Field ref)) "required" with
  | Some requiredTag =>
      match ParseBool requiredTag with
      | inl _ => None
      | inr err => Some err
      end
  | None => None
  end.

Definition tagOk (ref : reflected) : Prop := tagError ref = None.

(** The panic of [Var], if any. *)
Definition varPanic (f : Flag.FlagSet) (nm : string) : option string :=
  if String.prefix "-" nm
  then Some ("flag " ++ Flag.quoted nm ++ " begins with -")%string
  else if bool_decide (is_Some (Flag.indexFrom "="%char 0 0 nm))
  then Some ("flag " ++ Flag.quoted nm ++ " contains =")%string
  else if bool_decide (is_Some (Flag.formal f !! nm)) then
    Some (if String.eqb (Flag.name f) "" then "flag redefined: " ++ nm
          else Flag.name f ++ " flag redefined: " ++ nm)%string
  else None.

Definition defineFlag (f : Flag.FlagSet) (nm : string) (p : nat) : Flag.FlagSet :=
  {| Flag.name := Flag.name f; Flag.formal := <[nm := p]> (Flag.formal f);
     Flag.args := Flag.args f; Flag.errorHandling := Flag.errorHandling f |}.

Definition allocated (w : World) (o : Opt) : World :=
  mkWorld (record w) (heap w ++ [o]) (trace w).

(** The check that ends an iteration of the second loop of [Init]. *)
Definition missing (o : Opt) : option error :=
  if bool_decide (Opt.State o = OptStateUntouched) && Opt.Required o
  then Some (requiredError (Opt.Name o))
  else None.

(** ** The invariant of one run of [Init]

    The options of a run are the objects that [Init] allocates, one for
    each discovered field; [valuesAt] reads from the trace what their
    setters were called with. *)

Global Instance site_eq_dec : EqDecision site.
Proof. solve_decision. Defined.

Definition setterValue (s : site) (p : nat) (e : event) : option string :=
  match e with
  | EvSetFunc s' p' v => if decide (s' = s /\ p' = p) then Some v else None
  | _ => None
  end.

(** The values the setter of the option at [p] was called with from [s],
    in order. *)
Definition valuesAt (s : site) (p : nat) (evs : list event) : list string :=
  omap (setterValue s p) evs.

Definition bound (ref : reflected) (o : Opt) : Prop :=
  Opt.Name o = optionName ref
  /\ Opt.SetFunc o = Reflect.SetString (Value ref)
  /\ Opt.Required o = requiredOf ref.

Definition agrees (environ : gmap string string) (evs : list event)
    (rec : gmap (list nat) string) (p : nat) (ref : reflected) (o : Opt)
  : Prop :=
  match Opt.State o with
  | OptStateUntouched =>
      Opt.Value o = "" /\ valuesAt ByFlag p evs = [] /\ valuesAt ByEnv p evs = []
  | OptStateFlagPassed =>
      last (valuesAt ByFlag p evs) = Some (Opt.Value o)
      /\ valuesAt ByEnv p evs = []
      /\ rec !! pathOf ref = Some (Opt.Value o)
  | OptStateEnvPassed =>
      valuesAt ByFlag p evs = []
      /\ valuesAt ByEnv p evs = [Opt.Value o]
      /\ LookupEnv environ (ToUpper (Opt.Name o)) = Some (Opt.Value o)
      /\ rec !! pathOf ref = Some (Opt.Value o)
  end.

Definition inRange (h0 n : nat) (e : event) : Prop :=
  match e with
  | EvSetFunc _ p _ => h0 <= p < h0 + n
  | _ => True
  end.

Record Inv (environ : gmap string string) (h0 : nat) (refs : list reflected)
    (evs : list event) (w : World) : Prop := mkInv {
  inv_length : length (heap w) = h0 + length refs;
  inv_events : Forall (inRange h0 (length refs)) evs;
  inv_opts : forall i ref, refs !! i = Some ref ->
    exists o, heap w !! (h0 + i) = Some o /\ bound ref o
              /\ agrees environ evs (record w) (h0 + i) ref o
}.

(** A setter call that panicked: the world is the one before it, with
    the call recorded. *)
Definition panicked (environ : gmap string string) (h0 : nat)
    (refs : list reflected) (evs : list event) (s : site) (w' : World)
  : Prop :=
  exists w0 evs0 i v,
    Inv environ h0 refs evs0 w0
    /\ i < length refs
    /\ evs = evs0 ++ [EvSetFunc s (h0 + i) v]
    /\ valuesAt ByEnv (h0 + i) evs0 = []
    /\ (s = ByEnv -> valuesAt ByFlag (h0 + i) evs0 = [])
    /\ w' = addEvent w0 (EvSetFunc s (h0 + i) v).

Definition noEnv (evs : list event) : Prop :=
  forall p, valuesAt ByEnv p evs = [].

(** An option the fallback has dealt with without failing: it is left
    untouched only if no variable is set for it and it is not required. *)
Definition settled (environ : gmap string string) (o : Opt) : Prop :=
  Opt.State o = OptStateUntouched ->
  LookupEnv environ (ToUpper (Opt.Name o)) = None /\ Opt.Required o = false.

Definition settledAt (environ : gmap string string) (w : World) (p : nat)
  : Prop :=
  exists o, heap w !! p = Some o /\ settled environ o.

(** The fallback loop returned early at the [j]-th option, having started
    at the [k]-th in the world [w0]. *)
Definition failedAt (environ : gmap string string) (h0 n : nat)
    (w' : World) (evs : list event) (k j : nat) (e : error) : Prop :=
  k <= j < n
  /\ (exists o, heap w' !! (h0 + j) = Some o
                /\ e = requiredError (Opt.Name o)
                /\ Opt.State o = OptStateUntouched
                /\ Opt.Required o = true
                /\ LookupEnv environ (ToUpper (Opt.Name o)) = None)
  /\ (forall i, k <= i < j -> settledAt environ w' (h0 + i))
  /\ (forall i, j < i -> valuesAt ByEnv (h0 + i) evs = []).

(** Every setter call belongs to an option of this run; no option has
    calls from both sites, and none has two from the fallback. *)
Definition exclusive (h0 n : nat) (evs : list event) : Prop :=
  Forall (inRange h0 n) evs
  /\ forall p, (valuesAt ByFlag p evs = [] \/ valuesAt ByEnv p evs = [])
               /\ length (valuesAt ByEnv p evs) <= 1.

(** What a run of [Init] leaves, by the way it ends. *)
Definition initPost (environ : gmap string string) (h0 : nat)
    (refs : list reflected) (evs : list event)
    (out : outcome (option error)) (w' : World) : Prop :=
  match out with
  | Return None =>
      Inv environ h0 refs evs w'
      /\ forall i, i < length refs -> settledAt environ w' (h0 + i)
  | Return (Some e) =>
      (evs = [] /\ exists ref, ref ∈ refs /\ tagError ref = Some e)
      \/ (Inv environ h0 refs evs w'
          /\ exists j, failedAt environ h0 (length refs) w' evs 0 j e)
  | Exit c => (c = 0%Z \/ c = 2%Z) /\ Inv environ h0 refs evs w'
  | Panic _ => True
  end.


(** A name [flag.Var] accepts: no leading [-], no [=]. *)
Definition validName (nm : string) : Prop :=
  String.prefix "-" nm = false /\ Flag.indexFrom "="%char 0 0 nm = None.

(** The panic of [Var] for a name the flag set [setName] has already. *)
Definition redefined (setName nm : string) : string :=
  if String.eqb setName "" then "flag redefined: " ++ nm
  else setName ++ " flag redefined: " ++ nm.

(** ** The statements of the claims and the commands of their examples *)

Definition eventsSince (w w' : World) : list event :=
  drop (length (trace w)) (trace w').

Definition field (name : string) (tag : Reflect.StructTag) : Reflect.StructField :=
  Reflect.mkField name tag false Reflect.TString.

Definition noAction : option (gmap (list nat) string -> option error) :=
  Some (fun _ => None).

Definition portCmd : Cmd :=
  Cmd.mk "" "http" [] (Some [field "Port" [("desc", "port to listen on")]])
         [] [] noAction.

Definition fresh_world : World := mkWorld ∅ [] [].

(** A command that comes with an option of its own, bound to the field of
    the option [Init] registers for it, in a world that holds that
    option. *)
Definition ownOpt : Opt :=
  {| Opt.Name := "port"; Opt.Description := ""; Opt.Value := "";
     Opt.State := OptStateUntouched;
     Opt.SetFunc :=
       Reflect.SetString (Reflect.mkValue Reflect.TString [0] false false);
     Opt.Required := false |}.

Definition prefilledCmd : Cmd :=
  Cmd.mk "" "http" [] (Some [field "Port" []]) [] [0] noAction.

Definition prefilled_world : World := mkWorld ∅ [ownOpt] [].




(** The fallback as the specification orders it: all of it before the
    required check.  When [Init] returns the error of a missing required
    option, every option whose variable is set has been passed. *)
Definition fallbackBeforeCheck : Prop :=
  forall (environ : gmap string string) (cmd : Cmd)
         (fs : list Reflect.StructField) (args : list string) (w w' : World)
         (name : string) (i : nat) (ref : reflected) (v : string),
    Cmd.Opts cmd = Some fs ->
    Cmd.ParsedOpts cmd = [] ->
    Init environ cmd args w = (Return (Some (requiredError name)), w') ->
    reflectStruct fs !! i = Some ref ->
    LookupEnv environ (ToUpper (optionName ref)) = Some v ->
    exists o,
      heap w' !! (length (heap w) + i) = Some o
      /\ Opt.State o <> OptStateUntouched.

Definition twoCmd : Cmd :=
  Cmd.mk "" "app" []
         (Some [field "First" [("required", "true")]; field "Second" []])
         [] [] noAction.

(** A setter call from [s] that writes the storage of the field at [path]:
    the call of an option whose setter is [SetString] on the value there. *)
Definition writes (w' : World) (s : site) (path : list nat) (e : event)
  : Prop :=
  exists p v o x,
    e = EvSetFunc s p v
    /\ heap w' !! p = Some o
    /\ Opt.SetFunc o = Reflect.SetString x
    /\ Reflect.addr x = path.

(** The last part of C8 as the specification has it, for every command: in
    one run of [Init] no leaf field is written by a setter call of a flag
    and by one of the fallback. *)
Definition fieldWrittenFromOneSide : Prop :=
  forall (environ : gmap string string) (cmd : Cmd)
         (fs : list Reflect.StructField) (args : list string)
         (w w' : World) (out : outcome (option error)),
    Cmd.Opts cmd = Some fs ->
    Init environ cmd args w = (out, w') ->
    forall ref e e',
      ref ∈ reflectStruct fs ->
      e ∈ eventsSince w w' -> e' ∈ eventsSince w w' ->
      ~ (writes w' ByFlag (pathOf ref) e /\ writes w' ByEnv (pathOf ref) e').

(** Registration as the specification has it: two leaf fields of one
    derived name, and [Init] still returns. *)
Definition silentShadowing : Prop :=
  forall (environ : gmap string string) (cmd : Cmd)
         (fs : list Reflect.StructField) (args : list string) (w : World),
    Cmd.Opts cmd = Some fs ->
    Forall tagOk (reflectStruct fs) ->
    ~ NoDup (optionName <$> reflectStruct fs) ->
    exists r w', Init environ cmd args w = (Return r, w').

Definition shadowCmd : Cmd :=
  Cmd.mk "" "app" [] (Some [field "HTTPServer" []; field "HttpServer" []])
         [] [] noAction.

(** A parser failure as the specification has it: [Init] returns it. *)
Definition parseFailureReturned : Prop :=
  forall (environ : gmap string string) (cmd : Cmd)
         (fs : list Reflect.StructField) (args : list string) (w w1 w2 : World)
         (flags f2 : Flag.FlagSet) (parsed : list nat) (e : error),
    Cmd.Opts cmd = Some fs ->
    registerAll (reflectStruct fs)
      (Flag.NewFlagSet (Cmd.Name cmd) Flag.ExitOnError) (Cmd.ParsedOpts cmd) w
      = (Return (inr (flags, parsed)), w1) ->
    Flag.Parse (withHandling flags Flag.ContinueOnError) args w1
      = (Return (Some e, f2), w2) ->
    exists w', Init environ cmd args w = (Return (Some e), w').

(** The tree of the dispatch scenario: root, its child [serve], and the
    childless [http] below it, with the action [A] and one option. *)
Definition httpCmd (A : gmap (list nat) string -> option error) : Cmd :=
  Cmd.mk "" "http" [] (Some [field "Port" []]) [] [] (Some A).

Definition serveCmd (A : gmap (list nat) string -> option error) : Cmd :=
  Cmd.mk "" "serve" [] None [httpCmd A] [] None.

Definition rootCmd (A : gmap (list nat) string -> option error) : Cmd :=
  Cmd.mk "" "root" [] None [serveCmd A] [] None.

Definition portOpt (value : string) (state : optState) : Opt :=
  {| Opt.Name := "port"; Opt.Description := ""; Opt.Value := value;
     Opt.State := state;
     Opt.SetFunc :=
       Reflect.SetString
         (Reflect.mkValue Reflect.TString [0] false false);
     Opt.Required := false |}.

Definition countCmd : Cmd :=
  Cmd.mk "" "app" []
         (Some [Reflect.mkField "Count" [("required", "yes")] false Reflect.TOther])
         [] [] noAction.

Definition intCmd : Cmd :=
  Cmd.mk "" "app" [] (Some [Reflect.mkField "Count" [] false Reflect.TOther])
         [] [] noAction.

(** The slot behind the length of [s], which [append] writes when [s] has
    room, lies outside the window of [other]. *)
Definition leavesOut (s other : Slice.t) : Prop :=
  Slice.array other <> Slice.array s
  \/ Slice.off s + Slice.len s < Slice.off other
  \/ Slice.off other + Slice.len other <= Slice.off s + Slice.len s.

(** The commands below a header: the ones it shows, and the ones their
    headers show, at any depth. *)
Inductive under (mem : gmap nat (list CmdMem.t)) (s : Slice.t)
  : CmdMem.t -> Prop :=
  | under_here e : e ∈ Slice.elems mem s -> under mem s e
  | under_sub d e :
      under mem s d -> e ∈ Slice.elems mem (CmdMem.SubCmds d) -> under mem s e.

(** Every header below [c] is backed. *)
Definition backedUnder (mem : gmap nat (list CmdMem.t)) (c : CmdMem.t) : Prop :=
  forall d, under mem (CmdMem.SubCmds c) d -> Slice.wf mem (CmdMem.SubCmds d).

(** No header below [c] shows the slot behind the subcommands of [c]. *)
Definition apart (mem : gmap nat (list CmdMem.t)) (c : CmdMem.t) : Prop :=
  forall d, under mem (CmdMem.SubCmds c) d ->
    leavesOut (CmdMem.SubCmds c) (CmdMem.SubCmds d).

(** Between two memories: the header of [c] shows the same, and shows
    commands below [s0]. *)
Definition inFrame (mem mem' : gmap nat (list CmdMem.t)) (s0 : Slice.t)
    (c : CmdMem.t) : Prop :=
  Slice.elems mem' (CmdMem.SubCmds c) = Slice.elems mem (CmdMem.SubCmds c)
  /\ forall e, e ∈ Slice.elems mem (CmdMem.SubCmds c) -> under mem s0 e.

(** C10 as the specification has it, for every layout of the commands in
    memory: after [c.AddSubCmd(s)] an [Execute] on [c] does what it did
    before. *)
Definition receiverUnobserved : Prop :=
  forall (grow : nat -> nat) (mem : gmap nat (list CmdMem.t)) (c s : CmdMem.t),
    Slice.wf mem (CmdMem.SubCmds c) ->
    backedUnder mem c ->
    forall osArgs environ w,
      ExecuteIn osArgs environ (fst (AddSubCmd grow mem c s)) c w
      = ExecuteIn osArgs environ mem c w.

(** One array of two commands: the root shows the first, with room for a
    second; the first, [serve], shows the second as its subcommand. *)
Definition sharedServe : CmdMem.t :=
  CmdMem.mk "" "serve" [] None (Slice.mk 0 1 1 1) [] None.

Definition sharedRoot : CmdMem.t :=
  CmdMem.mk "" "root" [] None (Slice.mk 0 0 1 2) [] None.

Definition sharedArrays : gmap nat (list CmdMem.t) :=
  {[0 := [sharedServe; CmdMem.zero]]}.

Definition extraCmd : CmdMem.t :=
  CmdMem.mk "" "extra" [] None (Slice.mk 0 0 0 0) [] noAction.

(** The receiver as a variable: one subcommand in an array of two. *)
Definition serveOnly : CmdMem.t :=
  CmdMem.mk "" "serve" [] None (Slice.mk 0 0 0 0) [] noAction.

Definition rootVar : CmdMem.t :=
  CmdMem.mk "" "root" [] None (Slice.mk 0 0 1 2) [] None.

Definition rootArrays : gmap nat (list CmdMem.t) :=
  {[0 := [serveOnly; CmdMem.zero]]}.

(** ** Notions of the further properties *)

(** A string of ASCII characters (below 128): the text on which the
    functions of [strings] and the two patterns work byte by byte. *)
Definition isASCII (str : string) : Prop :=
  forallb (fun c => code c <? 128) (list_ascii_of_string str) = true.

(** A string without upper-case letters. *)
Definition noUpper (s : list ascii) : Prop :=
  Forall (fun c => isUpper c = false) s.

(** The command a sequence of subcommand names leads to, from [cmd]. *)
Fixpoint descend (cmd : Cmd) (names : list string) : option Cmd :=
  match names with
  | [] => Some cmd
  | name :: names' =>
      match SubCmd cmd name with
      | Some sub => descend sub names'
      | None => None
      end
  end.

(** An event other than the run of an action. *)
Definition notRun (e : event) : Prop :=
  match e with
  | EvRun _ => False
  | _ => True
  end.




(** An optional first field and a required second one. *)
Definition lateCmd : Cmd :=
  Cmd.mk "" "app" []
         (Some [field "First" []; field "Second" [("required", "true")]])
         [] [] noAction.

(** A well-formed first field and a second one tagged [required:"yes"]. *)
Definition yesCmd : Cmd :=
  Cmd.mk "" "app" []
         (Some [field "First" [("required", "true")];
                field "Second" [("required", "yes")]])
         [] [] noAction.

Definition versionCmd (A : gmap (list nat) string -> option error) : Cmd :=
  Cmd.mk "" "version" [] None [] [] (Some A).

Definition toolCmd (A : gmap (list nat) string -> option error) : Cmd :=
  Cmd.mk "" "tool" [] None [versionCmd A] [] None.



Definition target (e : event) : option nat :=
  match e with
  | EvSetFunc _ p _ => Some p
  | _ => None
  end.

(** Every field of a type, at any depth, has an exported name. *)
Fixpoint allExported (t : Reflect.rtype) : bool :=
  match t with
  | Reflect.TStruct fs =>
      (fix all (fs : list Reflect.StructField) : bool :=
         match fs with
         | [] => true
         | f :: fs' =>
             Reflect.IsExported (Reflect.Name f)
             && allExported (Reflect.Type_ f) && all fs'
         end) fs
  | _ => true
  end.

Definition readOnly (v : Reflect.Value) : bool :=
  Reflect.stickyRO v || Reflect.embedRO v.

(** * Theorems *)

(** ** Characters and the name deriver *)

Ltac char_cases :=
  intros; unfold isAlnum, isLowerDigit, isUpper, isLower, isDigit, isDot, dash in *;
  repeat match goal with
    | |- context [?a <=? ?b] => destruct (Nat.leb_spec a b)
    | H : context [?a <=? ?b] |- _ => destruct (Nat.leb_spec a b)
    | |- context [?a =? ?b] => destruct (Nat.eqb_spec a b)
    | H : context [?a =? ?b] |- _ => destruct (Nat.eqb_spec a b)
    end; simpl in *; try congruence; try lia.

Lemma upper_not_lower c : isUpper c = true -> isLower c = false.
Proof. char_cases. Qed.

Lemma upper_not_lowerDigit c : isUpper c = true -> isLowerDigit c = false.
Proof. char_cases. Qed.

Lemma upper_isDot c : isUpper c = true -> isDot c = true.
Proof. char_cases. Qed.

Lemma lower_lowerDigit c : isLower c = true -> isLowerDigit c = true.
Proof. char_cases. Qed.

Lemma alnum_cases c :
  isAlnum c = true -> isLowerDigit c = true \/ isUpper c = true.
Proof.
  unfold isAlnum, isLowerDigit.
  destruct (isUpper c), (isLower c), (isDigit c); simpl; auto.
Qed.

Lemma dash_not_upper : isUpper dash = false.
Proof. reflexivity. Qed.

Lemma dash_not_lowerDigit : isLowerDigit dash = false.
Proof. reflexivity. Qed.

Lemma alnum_not_dash c : isAlnum c = true -> c <> dash.
Proof. intros H ->. discriminate H. Qed.

Lemma toLower_alnum c : isAlnum c = true -> isAlnum (toLower c) = true.
Proof.
  intros H. unfold toLower. destruct (isUpper c) eqn:U; [|exact H].
  assert (Hc : code (ascii_of_nat (code c + 32)) = code c + 32).
  { unfold code. apply nat_ascii_embedding. fold (code c). char_cases. }
  assert (Hl : isLower (ascii_of_nat (code c + 32)) = true).
  { clear H. unfold isLower. rewrite Hc. char_cases. }
  unfold isAlnum. rewrite Hl, orb_true_r. reflexivity.
Qed.

Lemma spanLower_length s run rest :
  spanLower s = (run, rest) -> length rest <= length s.
Proof.
  revert run rest. induction s as [|c tl IH]; intros run rest; simpl.
  - intros [= <- <-]. simpl. lia.
  - destruct (isLower c).
    + destruct (spanLower tl) as [run' rest'] eqn:E.
      intros [= <- <-]. specialize (IH _ _ eq_refl). lia.
    + intros [= <- <-]. simpl. lia.
Qed.

(** Behind a match of [matchFirstCap] the pass copies the run of
    lower-case letters and starts afresh at the first other character. *)
Lemma firstCapPass_run s run rest x :
  spanLower s = (run, rest) ->
  firstCapPass (Some x) true s = run ++ firstCapPass None false rest.
Proof.
  revert run rest x. induction s as [|c tl IH]; intros run rest x; simpl.
  - intros [= <- <-]. reflexivity.
  - destruct (isLower c) eqn:L.
    + destruct (spanLower tl) as [run' rest'] eqn:E.
      intros [= <- <-]. simpl. f_equal. apply IH. reflexivity.
    + intros [= <- <-]. simpl. reflexivity.
Qed.

Lemma firstCapPass_no_match c tl :
  matchFirstCap (c :: tl) = None ->
  firstCapPass (Some c) false tl = firstCapPass None false tl.
Proof.
  destruct tl as [|u [|l tl']]; simpl; try reflexivity.
  - intros _. rewrite !andb_false_r. reflexivity.
  - destruct (isDot c && isUpper u && isLower l) eqn:E.
    + destruct (spanLower tl'); discriminate.
    + intros _. reflexivity.
Qed.

Lemma replaceAll_firstCap n s :
  length s <= n ->
  replaceAllFrom matchFirstCap n s = firstCapPass None false s.
Proof.
  revert s. induction n as [|n IH]; intros s Hn.
  - destruct s; [reflexivity | simpl in Hn; lia].
  - destruct s as [|c tl]; [reflexivity|].
    cbn [replaceAllFrom].
    destruct (matchFirstCap (c :: tl)) as [[[g1 g2] rest]|] eqn:E.
    + destruct tl as [|u [|l tl']]; try discriminate E.
      simpl in E.
      destruct (isDot c && isUpper u && isLower l) eqn:C; [|discriminate].
      destruct (spanLower tl') as [run rest'] eqn:Hs.
      injection E as <- <- <-.
      apply andb_prop in C as [C Hl]. apply andb_prop in C as [Hc Hu].
      rewrite IH.
      2:{ apply spanLower_length in Hs. simpl in Hn. lia. }
      cbn [firstCapPass nextIsLower]. 
      rewrite Hc, Hu, Hl. cbn [negb andb orb app].
      rewrite (firstCapPass_run _ _ _ _ Hs). reflexivity.
    + rewrite IH by (simpl in Hn; lia).
      cbn [firstCapPass]. f_equal. symmetry.
      apply firstCapPass_no_match, E.
Qed.

Lemma allCap_prev_irrelevant p s :
  isLowerDigit p = false ->
  hyphenateBy allCapRule (Some p) s = hyphenateBy allCapRule None s.
Proof. intros H. destruct s; simpl; [reflexivity|]. unfold allCapRule. rewrite H. reflexivity. Qed.

Lemma replaceAll_allCap n s :
  length s <= n ->
  replaceAllFrom matchAllCap n s = hyphenateBy allCapRule None s.
Proof.
  revert s. induction n as [|n IH]; intros s Hn.
  - destruct s; [reflexivity | simpl in Hn; lia].
  - destruct s as [|c tl]; [reflexivity|].
    cbn [replaceAllFrom].
    destruct (matchAllCap (c :: tl)) as [[[g1 g2] rest]|] eqn:E.
    + destruct tl as [|u tl']; try discriminate E. simpl in E.
      destruct (isLowerDigit c && isUpper u) eqn:C; [|discriminate].
      injection E as <- <- <-.
      rewrite IH by (simpl in Hn; lia).
      cbn [hyphenateBy app].
      change (allCapRule c u tl') with (isLowerDigit c && isUpper u).
      rewrite C.
      apply andb_prop in C as [_ Hu].
      rewrite allCap_prev_irrelevant by (apply upper_not_lowerDigit, Hu).
      reflexivity.
    + rewrite IH by (simpl in Hn; lia).
      cbn [hyphenateBy]. f_equal.
      destruct tl as [|u tl']; [reflexivity|].
      simpl in E. cbn [hyphenateBy].
      change (allCapRule c u tl') with (isLowerDigit c && isUpper u).
      destruct (isLowerDigit c && isUpper u); [discriminate | reflexivity].
Qed.

Lemma two_passes s : forall prev consumed,
  consumedOk prev consumed s ->
  hyphenateBy allCapRule prev (firstCapPass prev consumed s)
  = hyphenateBy codeRule prev s.
Proof.
  induction s as [|c tl IH]; intros prev consumed Hinv; [reflexivity|].
  cbn [firstCapPass].
  destruct prev as [p|].
  - destruct (negb consumed && isDot p && isUpper c && nextIsLower tl) eqn:Sep.
    + apply andb_prop in Sep as [Sep Hn]. apply andb_prop in Sep as [Sep Hu].
      apply andb_prop in Sep as [_ Hd].
      cbn [hyphenateBy orb].
      change (allCapRule p dash) with (fun _ : list ascii => isLowerDigit p && isUpper dash).
      change (allCapRule dash c) with (fun _ : list ascii => isLowerDigit dash && isUpper c).
      cbv beta.
      rewrite dash_not_upper, dash_not_lowerDigit, andb_false_r. cbn [andb].
      change (codeRule p c tl) with (isUpper c && (isLowerDigit p || (isDot p && nextIsLower tl))).
      rewrite Hu, Hd, Hn, orb_true_r. cbn [andb].
      rewrite IH; [reflexivity|]. intros _. right. exact Hn.
    + cbn [hyphenateBy orb]. 
      assert (R : allCapRule p c tl = codeRule p c tl).
      { unfold allCapRule, codeRule. destruct (isUpper c) eqn:Hu;
          [|rewrite andb_false_r; reflexivity].
        rewrite andb_true_r. cbn [andb].
        destruct (isLowerDigit p) eqn:Hp; [reflexivity|]. cbn [orb].
        rewrite andb_true_r in Sep.
        destruct consumed; cbn [negb andb] in Sep; [|symmetry; exact Sep].
        destruct (Hinv eq_refl) as [Hl | Hl].
        - apply lower_lowerDigit in Hl. congruence.
        - simpl in Hl. rewrite (upper_not_lower c Hu) in Hl. discriminate. }
      change (allCapRule p c (firstCapPass (Some c) (consumed && isLower c) tl))
        with (allCapRule p c tl).
      rewrite R. rewrite IH; [reflexivity|].
      intros Hc. apply andb_prop in Hc as [_ Hl]. left. exact Hl.
  - cbn [hyphenateBy orb andb]. rewrite IH; [reflexivity|].
    intros Hc. apply andb_prop in Hc as [_ Hl]. left. exact Hl.
Qed.

(** The two replacements of [ToSnakeCase], as one pass. *)
Lemma snakeChars_codeRule s :
  snakeChars s = map toLower (hyphenateBy codeRule None s).
Proof.
  unfold snakeChars, ReplaceAll.
  rewrite (replaceAll_firstCap (length s) s) by lia.
  rewrite replaceAll_allCap by lia.
  rewrite two_passes; [reflexivity | intros [=]].
Qed.

Lemma codeRule_specRule p c tl :
  isAlnum p = true -> codeRule p c tl = specRule p c tl.
Proof.
  intros Hp. unfold codeRule, specRule.
  destruct (alnum_cases p Hp) as [H | H].
  - rewrite H. reflexivity.
  - rewrite (upper_isDot p H), H. reflexivity.
Qed.

Lemma hyphenate_alnum s : forall prev,
  Forall (fun c => isAlnum c = true) s ->
  match prev with Some p => isAlnum p = true | None => True end ->
  hyphenateBy codeRule prev s = hyphenateBy specRule prev s.
Proof.
  induction s as [|c tl IH]; intros prev Hs Hp; [reflexivity|].
  inversion Hs as [|? ? Hc Htl]; subst.
  cbn [hyphenateBy]. rewrite (IH (Some c) Htl Hc).
  destruct prev as [p|]; [|reflexivity].
  rewrite (codeRule_specRule p c tl Hp). reflexivity.
Qed.

Lemma head_hyphenateBy rule s : head (hyphenateBy rule None s) = head s.
Proof. destruct s; reflexivity. Qed.

Lemma last_hyphenateBy rule s : forall prev,
  last (hyphenateBy rule prev s) = last s.
Proof.
  induction s as [|c tl IH]; intros prev; [reflexivity|].
  cbn [hyphenateBy].
  assert (E : last (c :: hyphenateBy rule (Some c) tl) = last (c :: tl)).
  { destruct tl as [|d tl']; [reflexivity|].
    rewrite (last_cons c (hyphenateBy _ _ _)), (IH (Some c)).
    rewrite (last_cons c (d :: tl')). reflexivity. }
  destruct prev as [p|]; [|exact E].
  destruct (rule p c tl); [|exact E].
  rewrite last_cons. rewrite E. destruct (last (c :: tl)) eqn:L; [reflexivity|].
  apply last_None in L. discriminate L.
Qed.

Lemma head_snakeChars s : head (snakeChars s) = toLower <$> head s.
Proof.
  rewrite snakeChars_codeRule. destruct s; reflexivity.
Qed.

Lemma last_map {A B} (f : A -> B) (l : list A) : last (map f l) = f <$> last l.
Proof.
  induction l as [|x [|y l'] IH]; try reflexivity.
  change (map f (x :: y :: l')) with (f x :: f y :: map f l').
  rewrite !last_cons_cons. exact IH.
Qed.

Lemma last_snakeChars s : last (snakeChars s) = toLower <$> last s.
Proof.
  rewrite snakeChars_codeRule, last_map, last_hyphenateBy. reflexivity.
Qed.

Lemma alnum_toLower_not_dash c : isAlnum c = true -> toLower c <> dash.
Proof. intros H. apply alnum_not_dash, toLower_alnum, H. Qed.

Example ToSnakeCase_single_word : ToSnakeCase "Port" = "port".
Proof. reflexivity. Qed.

Example ToSnakeCase_digits : ToSnakeCase "aBcDe1X" = "a-bc-de1-x".
Proof. reflexivity. Qed.

(** The first pattern takes any character before a capitalised word. *)
Example ToSnakeCase_underscore : ToSnakeCase "My_Field" = "my_-field".
Proof. reflexivity. Qed.

Example ToUpper_keeps_separator :
  ToUpper "max-retry-count" = "MAX-RETRY-COUNT".
Proof. reflexivity. Qed.

(** ** Field discovery *)

(** Induction on a type with the fields of a struct as premises. *)
Lemma rtype_fields_ind (P : Reflect.rtype -> Prop)
    (HString : P Reflect.TString) (HOther : P Reflect.TOther)
    (HStruct : forall fs, Forall (fun f => P (Reflect.Type_ f)) fs -> P (Reflect.TStruct fs)) :
  forall t, P t.
Proof.
  fix IH 1. intros [| |fs]; [exact HString | exact HOther |].
  apply HStruct. induction fs as [|f fs' IHfs]; constructor.
  - apply IH.
  - exact IHfs.
Qed.

Lemma unwrapType_struct fs v : unwrapType (Reflect.TStruct fs) v = unwrapFrom v 0 fs.
Proof.
  cbn [unwrapType]. generalize 0.
  induction fs as [|f fs' IH]; intros i; [reflexivity|].
  cbn [unwrapFrom]. rewrite <- IH. unfold structUnwrap.
  destruct (Reflect.Type_ f) eqn:E; cbn [Reflect.isStruct]; try reflexivity.
  cbn [mkItem Type_]. rewrite E. reflexivity.
Qed.

Lemma structUnwrap_item v i f fs :
  Reflect.Type_ f = Reflect.TStruct fs ->
  structUnwrap (mkItem v i f) = unwrapFrom (Reflect.Field v i f) 0 fs.
Proof.
  intros E. unfold structUnwrap. cbn [mkItem Type_ Value].
  rewrite E. apply unwrapType_struct.
Qed.

(** Induction along the walk of [structUnwrap]: nothing for no field, a
    leaf put in front, or a nested struct's result put in front. *)
Lemma unwrapFrom_ind
    (Q : Reflect.Value -> nat -> list Reflect.StructField -> list reflected -> Prop)
    (Hnil : forall v i, Q v i [] [])
    (Hleaf : forall v i f fs rest,
        Reflect.isStruct (Reflect.Type_ f) = false ->
        Q v (S i) fs rest -> Q v i (f :: fs) (mkItem v i f :: rest))
    (Hnest : forall v i f sub fs inner rest,
        Reflect.Type_ f = Reflect.TStruct sub ->
        Q (Reflect.Field v i f) 0 sub inner ->
        Q v (S i) fs rest -> Q v i (f :: fs) (inner ++ rest)) :
  forall fs v i, Q v i fs (unwrapFrom v i fs).
Proof.
  intros fs.
  enough (H : forall t sub, t = Reflect.TStruct sub ->
              forall v i, Q v i sub (unwrapFrom v i sub))
    by (apply (H _ _ eq_refl)).
  clear fs. induction t as [| |fs IH] using rtype_fields_ind;
    intros sub [=]; subst sub.
  induction IH as [|f fs' Hf _ IHfs]; intros v i; [apply Hnil|].
  cbn [unwrapFrom].
  destruct (Reflect.Type_ f) as [| |sub] eqn:E; cbn [Reflect.isStruct app].
  - apply Hleaf; [rewrite E; reflexivity | apply IHfs].
  - apply Hleaf; [rewrite E; reflexivity | apply IHfs].
  - rewrite (structUnwrap_item v i f sub E).
    apply (Hnest v i f sub); [exact E | apply (Hf sub eq_refl) | apply IHfs].
Qed.

Lemma leafCount_cons f fs :
  leafCount (Reflect.TStruct (f :: fs))
  = leafCount (Reflect.Type_ f) + leafCount (Reflect.TStruct fs).
Proof. reflexivity. Qed.

Lemma leafCount_leaf t : Reflect.isStruct t = false -> leafCount t = 1.
Proof. destruct t; [reflexivity | reflexivity | discriminate]. Qed.

Lemma unwrapFrom_length fs v i :
  length (unwrapFrom v i fs) = leafCount (Reflect.TStruct fs).
Proof.
  revert fs v i.
  apply (unwrapFrom_ind (fun _ _ fs l => length l = leafCount (Reflect.TStruct fs))).
  - reflexivity.
  - intros v i f fs rest Hl IH. rewrite leafCount_cons, (leafCount_leaf _ Hl).
    cbn [length]. rewrite IH. reflexivity.
  - intros v i f sub fs inner rest E IHin IH.
    rewrite leafCount_cons, E, length_app, IHin, IH. reflexivity.
Qed.

Lemma unwrapFrom_app v i before after :
  unwrapFrom v i (before ++ after)
  = unwrapFrom v i before ++ unwrapFrom v (i + length before) after.
Proof.
  revert i. induction before as [|f fs IH]; intros i.
  - simpl. rewrite Nat.add_0_r. reflexivity.
  - cbn [app unwrapFrom length]. rewrite IH, <- app_assoc.
    replace (S i + length fs) with (i + S (length fs)) by lia. reflexivity.
Qed.

Lemma fieldAt_here (all : list Reflect.StructField) i f :
  all !! i = Some f -> fieldAt all [i] = Some f.
Proof. intros H. cbn [fieldAt]. rewrite H. reflexivity. Qed.

Lemma fieldAt_nested (all : list Reflect.StructField) i f sub rel :
  all !! i = Some f -> Reflect.Type_ f = Reflect.TStruct sub -> rel <> [] ->
  fieldAt all (i :: rel) = fieldAt sub rel.
Proof.
  intros H E Hne. cbn [fieldAt]. rewrite H, E.
  destruct rel; [contradiction | reflexivity].
Qed.

Lemma unwrapFrom_describes fs v i :
  forall done, 
  length done = i ->
  Forall (describes v (done ++ fs)) (unwrapFrom v i fs).
Proof.
  revert fs v i.
  apply (unwrapFrom_ind (fun v i fs l =>
           forall done, length done = i -> Forall (describes v (done ++ fs)) l)).
  - constructor.
  - intros v i f fs rest Hl IH done Hd. constructor.
    + exists [i]. cbn [mkItem Value Type_ Field Reflect.Field Reflect.addr Reflect.typ].
      repeat split; try assumption.
      apply fieldAt_here. rewrite lookup_app_r by lia.
      replace (i - length done) with 0 by lia. reflexivity.
    + specialize (IH (done ++ [f])). rewrite <- app_assoc in IH.
      apply IH. rewrite length_app. simpl. lia.
  - intros v i f sub fs inner rest E IHin IH done Hd. apply Forall_app. split.
    + specialize (IHin [] eq_refl). cbn [app] in IHin.
      eapply Forall_impl; [exact IHin|].
      intros r (rel & Ha & Hf & Hk). exists (i :: rel).
      cbn [Reflect.Field Reflect.addr] in Ha. rewrite <- app_assoc in Ha.
      split; [exact Ha|]. split; [|exact Hk].
      rewrite <- Hf. apply (fieldAt_nested _ i f sub rel); [|exact E|].
      * rewrite lookup_app_r by lia.
        replace (i - length done) with 0 by lia. reflexivity.
      * intros ->. discriminate Hf.
    + specialize (IH (done ++ [f])). rewrite <- app_assoc in IH.
      apply IH. rewrite length_app. simpl. lia.
Qed.

Lemma pathLt_app pre p q : pathLt p q -> pathLt (pre ++ p) (pre ++ q).
Proof.
  intros H. induction pre as [|a pre IH]; [exact H|].
  cbn [app pathLt]. right. split; [reflexivity | exact IH].
Qed.

Lemma unwrapFrom_sorted fs v i :
  StronglySorted pathLt (pathOf <$> unwrapFrom v i fs)
  /\ Forall (below v i) (unwrapFrom v i fs).
Proof.
  revert fs v i.
  apply (unwrapFrom_ind (fun v i fs l =>
           StronglySorted pathLt (pathOf <$> l) /\ Forall (below v i) l)).
  - intros v i. split; constructor.
  - intros v i f fs rest Hl [IHs IHb]. split.
    + rewrite fmap_cons. constructor; [exact IHs|].
      apply Forall_forall. intros p Hp.
      apply list_elem_of_fmap in Hp as (r & -> & Hr).
      rewrite Forall_forall in IHb.
      destruct (IHb r Hr) as (j & tl & -> & Hj).
      unfold pathOf at 1. cbn [mkItem Value Reflect.Field Reflect.addr].
      apply pathLt_app. cbn [pathLt]. left. lia.
    + constructor.
      * exists i, []. split; [reflexivity | lia].
      * eapply Forall_impl; [exact IHb|].
        intros r (j & tl & E & Hj). exists j, tl. split; [exact E | lia].
  - intros v i f sub fs inner rest E [IHis IHib] [IHs IHb].
    assert (Hin : Forall (fun r => exists tl, pathOf r = Reflect.addr v ++ i :: tl) inner).
    { eapply Forall_impl; [exact IHib|].
      intros r (j & tl & Er & _). exists (j :: tl). rewrite Er.
      cbn [Reflect.Field Reflect.addr]. rewrite <- app_assoc. reflexivity. }
    split.
    + rewrite fmap_app. apply StronglySorted_app_2; [|exact IHis | exact IHs].
      intros p q Hp Hq.
      apply list_elem_of_fmap in Hp as (r & -> & Hr).
      apply list_elem_of_fmap in Hq as (r' & -> & Hr').
      rewrite Forall_forall in Hin, IHb.
      destruct (Hin r Hr) as (tl & ->).
      destruct (IHb r' Hr') as (j & tl' & -> & Hj).
      apply pathLt_app. cbn [pathLt]. left. lia.
    + apply Forall_app. split.
      * eapply Forall_impl; [exact Hin|].
        intros r (tl & Er). exists i, tl. split; [exact Er | lia].
      * eapply Forall_impl; [exact IHb|].
        intros r (j & tl & Er & Hj). exists j, tl. split; [exact Er | lia].
Qed.

(** A record with a struct in a struct: the leaves in the order of their
    declaration, each with its path. *)
Example reflectStruct_nested :
  (fun r => (Reflect.Name (Field r), pathOf r)) <$>
    reflectStruct
      [Reflect.mkField "A" [] false Reflect.TString;
       Reflect.mkField "In" [] false
         (Reflect.TStruct
            [Reflect.mkField "B" [] false Reflect.TString;
             Reflect.mkField "Deep" [] false
               (Reflect.TStruct [Reflect.mkField "C" [] false Reflect.TString]);
             Reflect.mkField "D" [] false Reflect.TString]);
       Reflect.mkField "E" [] false Reflect.TString]
  = [("A", [0]); ("B", [1; 0]); ("C", [1; 1; 0]); ("D", [1; 2]); ("E", [2])].
Proof. reflexivity. Qed.

(** ** Runs as equations *)

(** [callSetFunc], run. *)
Lemma callSetFunc_eq s p v w :
  callSetFunc s p v w =
  match heap w !! p with
  | None => (Panic nilDeref, w)
  | Some o =>
      match Opt.SetFunc o v (record w) with
      | None => (Panic setPanic, addEvent w (EvSetFunc s p v))
      | Some r =>
          (Return tt, mkWorld r (heap w) (trace w ++ [EvSetFunc s p v]))
      end
  end.
Proof.
  unfold callSetFunc, bind, load, emit.
  destruct (heap w !! p) as [o|]; [|reflexivity]. cbn [record heap trace addEvent].
  destruct (Opt.SetFunc o v (record w)); reflexivity.
Qed.

Lemma assign_eq s st p v w :
  assign s st p v w =
  match heap w !! p with
  | None => (Panic nilDeref, w)
  | Some o =>
      match Opt.SetFunc o v (record w) with
      | None => (Panic setPanic, addEvent w (EvSetFunc s p v))
      | Some r =>
          (Return tt,
           mkWorld r (<[p := written o v st]> (heap w))
                   (trace w ++ [EvSetFunc s p v]))
      end
  end.
Proof.
  unfold assign, bind at 1. rewrite callSetFunc_eq.
  destruct (heap w !! p) as [o|] eqn:Hp; [|reflexivity].
  destruct (Opt.SetFunc o v (record w)) as [r|]; [|reflexivity].
  unfold bind, load, store. cbn [record heap trace]. rewrite Hp.
  cbn [record heap trace].
  rewrite list_lookup_insert_eq by (eapply lookup_lt_Some; exact Hp).
  cbn [record heap trace]. rewrite list_insert_insert_eq. reflexivity.
Qed.

Lemma Opt_Set_eq p v w :
  Opt_Set p v w =
  match assign ByFlag OptStateFlagPassed p v w with
  | (Return _, w') => (Return None, w')
  | (Exit c, w') => (Exit c, w')
  | (Panic m, w') => (Panic m, w')
  end.
Proof.
  unfold Opt_Set, assign, bind, load, store, ret.
  destruct (callSetFunc ByFlag p v w) as [[[]|c|m] w1]; try reflexivity.
  destruct (heap w1 !! p) as [o|]; [|reflexivity]. cbn [record heap trace].
  destruct (<[p:=setValue o v]> (heap w1) !! p); reflexivity.
Qed.

Lemma parseOne_eq f w :
  Flag.parseOne f w =
  match nextFlag f with
  | Stop f' => (Return (false, None, f'), w)
  | Fail e f' => (Return (false, Some e, f'), w)
  | Pass flag nm value f' =>
      match assign ByFlag OptStateFlagPassed flag value w with
      | (Return _, w') => (Return (true, None, f'), w')
      | (Exit c, w') => (Exit c, w')
      | (Panic m, w') => (Panic m, w')
      end
  end.
Proof.
  unfold Flag.parseOne, nextFlag.
  repeat (case_match; try reflexivity).
  all: unfold bind, ret; rewrite ?Opt_Set_eq; simplify_eq;
    repeat (case_match; simplify_eq; try reflexivity).
Qed.

Lemma sameSet_setArgs f a : sameSet f (Flag.setArgs f a).
Proof. repeat split. Qed.

Lemma nextFlag_sameSet f :
  match nextFlag f with
  | Stop f' | Fail _ f' => sameSet f f'
  | Pass flag nm _ f' =>
      sameSet f f' /\ Flag.formal f !! nm = Some flag
      /\ length (Flag.args f') < length (Flag.args f)
  end.
Proof.
  unfold nextFlag.
  repeat (case_match; simplify_eq; try (repeat split; fail)).
  all: repeat split; try assumption.
  all: simpl in *; simplify_eq; simpl; lia.
Qed.

(** More fuel than arguments changes nothing: [Parse] never runs out. *)
Lemma parseLoop_fuel n : forall m f w,
  length (Flag.args f) < n -> n <= m ->
  Flag.parseLoop n f w = Flag.parseLoop m f w.
Proof.
  induction n as [|n IH]; intros m f w Hn Hm; [lia|].
  destruct m as [|m]; [lia|].
  cbn [Flag.parseLoop]. unfold bind. rewrite parseOne_eq.
  pose proof (nextFlag_sameSet f) as Hs.
  destruct (nextFlag f) as [f'|e f'|p nm v f']; try reflexivity.
  destruct Hs as (_ & _ & Hlen).
  destruct (assign _ _ _ _ _) as [[[]|c|msg] w1]; try reflexivity.
  apply IH; lia.
Qed.

Lemma nextFlag_withHandling f eh :
  nextFlag (withHandling f eh) =
  match nextFlag f with
  | Stop f' => Stop (withHandling f' eh)
  | Fail e f' => Fail e (withHandling f' eh)
  | Pass p nm v f' => Pass p nm v (withHandling f' eh)
  end.
Proof.
  unfold nextFlag. cbn [withHandling Flag.args Flag.formal Flag.setArgs].
  repeat (case_match; simplify_eq; try reflexivity).
Qed.

Lemma parseLoop_exit fuel : forall f w e f' w',
  Flag.parseLoop fuel (withHandling f Flag.ContinueOnError) w
    = (Return (Some e, f'), w') ->
  Flag.parseLoop fuel (withHandling f Flag.ExitOnError) w
    = (Exit (exitCode e), w').
Proof.
  induction fuel as [|fuel IH]; intros f w e f' w'; [discriminate|].
  cbn [Flag.parseLoop]. unfold bind. rewrite !parseOne_eq.
  rewrite !nextFlag_withHandling.
  destruct (nextFlag f) as [f1|e1 f1|p nm v f1].
  - discriminate.
  - cbn [withHandling Flag.errorHandling]. intros [= <- <- <-].
    destruct e1; reflexivity.
  - destruct (assign _ _ _ _ _) as [[[]|c|msg] w1]; try discriminate.
    apply IH.
Qed.

Lemma withHandling_id f : withHandling f (Flag.errorHandling f) = f.
Proof. destruct f; reflexivity. Qed.

Lemma setArgs_withHandling f eh a :
  Flag.setArgs (withHandling f eh) a = withHandling (Flag.setArgs f a) eh.
Proof. reflexivity. Qed.

Lemma load_eq p w :
  load p w = match heap w !! p with
             | Some o => (Return o, w)
             | None => (Panic nilDeref, w)
             end.
Proof. reflexivity. Qed.

Lemma load_allocated w o : load (length (heap w)) (allocated w o) = (Return o, allocated w o).
Proof.
  rewrite load_eq. cbn [allocated heap].
  rewrite lookup_app_r by lia. rewrite Nat.sub_diag. reflexivity.
Qed.

Lemma store_allocated w o o' :
  store (length (heap w)) o' (allocated w o) = (Return tt, allocated w o').
Proof.
  unfold store, allocated. cbn [heap record trace].
  rewrite insert_app_r_alt by lia. rewrite Nat.sub_diag. reflexivity.
Qed.

Lemma Var_eq f p nm usage w o :
  heap w !! p = Some o ->
  Flag.Var f p nm usage w =
  match varPanic f nm with
  | Some msg => (Panic msg, w)
  | None => (Return (defineFlag f nm p), w)
  end.
Proof.
  intros Hp. unfold Flag.Var, varPanic.
  destruct (String.prefix "-" nm); [reflexivity|].
  destruct (bool_decide _); [reflexivity|].
  unfold bind, Opt_String, bind. rewrite load_eq, Hp. cbn [ret].
  destruct (bool_decide _); [|reflexivity].
  destruct (String.eqb _ _); reflexivity.
Qed.

Lemma register_eq ref flags parsed w :
  register ref flags parsed w =
  match tagError ref with
  | Some err => (Return (inl err), allocated w (newOpt ref))
  | None =>
      match varPanic flags (optionName ref) with
      | Some msg => (Panic msg, allocated w (declared ref))
      | None =>
          (Return (inr (defineFlag flags (optionName ref) (length (heap w)),
                        parsed ++ [length (heap w)])),
           allocated w (declared ref))
      end
  end.
Proof.
  assert (V : forall o, Opt.Name o = optionName ref ->
    (let* o := load (length (heap w)) in
     let* flags := Flag.Var flags (length (heap w)) (Opt.Name o) (Opt.Description o) in
     ret (inr (flags, parsed ++ [length (heap w)]))) (allocated w o)
    = (match varPanic flags (optionName ref) with
       | Some msg => (Panic msg, allocated w o)
       | None =>
           (Return (inr (defineFlag flags (optionName ref) (length (heap w)),
                         parsed ++ [length (heap w)])), allocated w o)
       end : outcome (error + Flag.FlagSet * list nat) * World)).
  { intros o Hn. unfold bind at 1. rewrite load_allocated.
    unfold bind. rewrite (Var_eq _ _ _ _ _ o).
    2:{ cbn [allocated heap]. rewrite lookup_app_r by lia.
        rewrite Nat.sub_diag. reflexivity. }
    rewrite Hn. destruct (varPanic flags (optionName ref)); reflexivity. }
  assert (A : forall B o (k : nat -> M B),
             (let* x := alloc o in k x) w = k (length (heap w)) (allocated w o))
    by reflexivity.
  unfold register, tagError, declared, requiredOf. rewrite A.
  destruct (Reflect.Lookup (Reflect.Tag (Field ref)) "required") as [t|].
  - destruct (ParseBool t) as [b|err]; [|reflexivity].
    unfold bind at 1. rewrite load_allocated.
    unfold bind at 1. rewrite store_allocated.
    apply (V (setRequired (newOpt ref) b)). reflexivity.
  - apply (V (newOpt ref)). reflexivity.
Qed.

Lemma registerAll_cons ref refs flags parsed w :
  registerAll (ref :: refs) flags parsed w =
  match tagError ref with
  | Some err => (Return (inl err), allocated w (newOpt ref))
  | None =>
      match varPanic flags (optionName ref) with
      | Some msg => (Panic msg, allocated w (declared ref))
      | None =>
          registerAll refs
            (defineFlag flags (optionName ref) (length (heap w)))
            (parsed ++ [length (heap w)]) (allocated w (declared ref))
      end
  end.
Proof.
  cbn [registerAll]. unfold bind. rewrite register_eq.
  destruct (tagError ref); [reflexivity|].
  destruct (varPanic flags (optionName ref)); reflexivity.
Qed.

Lemma registerAll_post refs : forall flags parsed w out w',
  registerAll refs flags parsed w = (out, w') ->
  record w' = record w /\ trace w' = trace w /\
  match out with
  | Return (inr (flags', parsed')) =>
      heap w' = heap w ++ (declared <$> refs)
      /\ parsed' = parsed ++ seq (length (heap w)) (length refs)
      /\ Flag.errorHandling flags' = Flag.errorHandling flags
      /\ Flag.name flags' = Flag.name flags
      /\ forall nm p, Flag.formal flags' !! nm = Some p ->
           Flag.formal flags !! nm = Some p
           \/ length (heap w) <= p < length (heap w) + length refs
  | Return (inl err) => exists ref, ref ∈ refs /\ tagError ref = Some err
  | Panic msg => True
  | Exit _ => False
  end.
Proof.
  induction refs as [|ref refs IH]; intros flags parsed w out w'.
  - intros [= <- <-]. repeat split; try reflexivity.
    + rewrite app_nil_r. reflexivity.
    + cbn. rewrite app_nil_r. reflexivity.
    + intros nm p H. left. exact H.
  - rewrite registerAll_cons.
    destruct (tagError ref) as [err|] eqn:Et.
    { intros [= <- <-]. repeat split. exists ref. split; [left | exact Et]. }
    destruct (varPanic flags (optionName ref)) as [msg|] eqn:Ev.
    { intros [= <- <-]. repeat split. }
    intros H. apply IH in H as (Hr & Ht & H). cbn [allocated record trace heap] in *.
    split; [exact Hr|]. split; [exact Ht|].
    destruct out as [[err|[flags' parsed']]|c|msg]; try exact H.
    + destruct H as (r & Hin & He). exists r. split; [right; exact Hin | exact He].
    + destruct H as (Hh & Hp & He & Hn & Hf). rewrite length_app in *. cbn [length] in *.
      repeat split.
      * rewrite Hh, <- app_assoc. reflexivity.
      * rewrite Hp, <- app_assoc. cbn [seq app]. do 3 f_equal. lia.
      * exact He.
      * exact Hn.
      * intros nm p Hl. destruct (Hf nm p Hl) as [Hd | Hd]; [|right; lia].
        cbn [defineFlag Flag.formal] in Hd.
        destruct (decide (optionName ref = nm)) as [E|Hne].
        -- subst nm. rewrite lookup_insert_eq in Hd. injection Hd as <-. right. lia.
        -- rewrite lookup_insert_ne in Hd by exact Hne. left. exact Hd.
Qed.

(** Two discovered fields of one derived name, or one whose name the flag
    set has already: [Var] panics. *)
Lemma registerAll_redefined refs : forall flags parsed w,
  Forall tagOk refs ->
  ~ NoDup (optionName <$> refs)
  \/ (exists nm, nm ∈ (optionName <$> refs) /\ is_Some (Flag.formal flags !! nm)) ->
  exists msg w', registerAll refs flags parsed w = (Panic msg, w').
Proof.
  induction refs as [|ref refs IH]; intros flags parsed w Hok Hdup.
  - exfalso. destruct Hdup as [H | (nm & H & _)].
    + apply H. constructor.
    + inversion H.
  - rewrite registerAll_cons. inversion Hok as [|? ? Ht Hoks]; subst.
    rewrite Ht.
    destruct (varPanic flags (optionName ref)) as [msg|] eqn:Ev; [eauto|].
    apply IH; [exact Hoks|].
    assert (Hfree : Flag.formal flags !! optionName ref = None).
    { revert Ev. unfold varPanic.
      destruct (String.prefix "-" _); [discriminate|].
      destruct (bool_decide (is_Some (Flag.indexFrom _ _ _ _))); [discriminate|].
      destruct (bool_decide (is_Some (Flag.formal flags !! optionName ref))) eqn:B;
        [discriminate|].
      intros _. apply bool_decide_eq_false in B. apply eq_None_not_Some. exact B. }
    rewrite fmap_cons in Hdup.
    destruct (decide (optionName ref ∈ (optionName <$> refs))) as [Hin | Hnin].
    + right. exists (optionName ref). split; [exact Hin|].
      cbn [defineFlag Flag.formal]. rewrite lookup_insert_eq. eauto.
    + destruct Hdup as [Hnd | (nm & Hin & Hsome)].
      * left. intros Hnd'. apply Hnd. constructor; assumption.
      * right. exists nm. apply elem_of_cons in Hin as [-> | Hin].
        -- rewrite Hfree in Hsome. destruct Hsome; discriminate.
        -- split; [exact Hin|]. cbn [defineFlag Flag.formal].
           rewrite lookup_insert_ne; [exact Hsome|]. intros <-. contradiction.
Qed.

Lemma resolve_eq environ p w :
  resolve environ p w =
  match heap w !! p with
  | None => (Panic nilDeref, w)
  | Some o =>
      if bool_decide (Opt.State o <> OptStateFlagPassed) then
        match LookupEnv environ (ToUpper (Opt.Name o)) with
        | Some envval =>
            match assign ByEnv OptStateEnvPassed p envval w with
            | (Return _, w') => (Return None, w')
            | (Exit c, w') => (Exit c, w')
            | (Panic m, w') => (Panic m, w')
            end
        | None => (Return (missing o), w)
        end
      else (Return None, w)
  end.
Proof.
  unfold resolve. unfold bind at 1. rewrite load_eq.
  destruct (heap w !! p) as [o|] eqn:Hp; [|reflexivity].
  destruct (bool_decide (Opt.State o <> OptStateFlagPassed)) eqn:B.
  - destruct (LookupEnv environ (ToUpper (Opt.Name o))) as [v|].
    + fold (assign ByEnv OptStateEnvPassed p v).
      unfold bind at 1. rewrite assign_eq, Hp.
      destruct (Opt.SetFunc o v (record w)) as [r|]; [|reflexivity].
      unfold bind. rewrite load_eq. cbn [heap].
      rewrite list_lookup_insert_eq by (eapply lookup_lt_Some; exact Hp).
      reflexivity.
    + unfold bind, ret. rewrite load_eq, Hp. unfold missing.
      destruct (bool_decide _ && _); reflexivity.
  - unfold bind, ret. rewrite load_eq, Hp.
    apply bool_decide_eq_false in B. apply dec_stable in B. rewrite B.
    reflexivity.
Qed.

Lemma Init_eq environ cmd fs args w :
  Cmd.Opts cmd = Some fs ->
  Init environ cmd args w =
  match registerAll (reflectStruct fs)
          (Flag.NewFlagSet (Cmd.Name cmd) Flag.ExitOnError)
          (Cmd.ParsedOpts cmd) w with
  | (Return (inl err), w1) => (Return (Some err), w1)
  | (Return (inr (flags, parsed)), w1) =>
      match Flag.Parse flags args w1 with
      | (Return (_, flags'), w2) =>
          resolveAll environ parsed (addEvent w2 (EvLog (Flag.Args flags')))
      | (Exit c, w2) => (Exit c, w2)
      | (Panic m, w2) => (Panic m, w2)
      end
  | (Exit c, w1) => (Exit c, w1)
  | (Panic m, w1) => (Panic m, w1)
  end.
Proof.
  intros Ho. unfold Init. rewrite Ho. unfold bind at 1.
  destruct (registerAll _ _ _ w) as [[[err|[flags parsed]]|c|m] w1];
    try reflexivity.
  unfold bind at 1.
  destruct (Flag.Parse flags args w1) as [[[err flags']|c|m] w2];
    reflexivity.
Qed.

(** ** The invariant of one run of [Init] *)

Lemma valuesAt_app s p evs evs' :
  valuesAt s p (evs ++ evs') = valuesAt s p evs ++ valuesAt s p evs'.
Proof. apply omap_app. Qed.

Lemma valuesAt_same s p v : valuesAt s p [EvSetFunc s p v] = [v].
Proof.
  unfold valuesAt. cbn. rewrite decide_True by (split; reflexivity). reflexivity.
Qed.

Lemma valuesAt_other s p s' p' v :
  (s' <> s \/ p' <> p) -> valuesAt s p [EvSetFunc s' p' v] = [].
Proof.
  intros H. unfold valuesAt. cbn.
  rewrite decide_False by (intros [-> ->]; destruct H; congruence). reflexivity.
Qed.

Lemma valuesAt_outside h0 n evs s p :
  Forall (inRange h0 n) evs -> ~ (h0 <= p < h0 + n) -> valuesAt s p evs = [].
Proof.
  intros H Hp. induction H as [|e evs He _ IH]; [reflexivity|].
  change (e :: evs) with ([e] ++ evs). rewrite valuesAt_app, IH, app_nil_r.
  destruct e as [s' p' v| |]; try reflexivity.
  apply valuesAt_other. right. cbn in He. lia.
Qed.

Lemma noEnv_snoc evs p v : noEnv evs -> noEnv (evs ++ [EvSetFunc ByFlag p v]).
Proof.
  intros H q. rewrite valuesAt_app, H.
  apply valuesAt_other. left. discriminate.
Qed.

Lemma SetString_Some v x m m' :
  Reflect.SetString v x m = Some m' -> m' = <[Reflect.addr v := x]> m.
Proof.
  unfold Reflect.SetString.
  destruct (Reflect.stickyRO v || Reflect.embedRO v); [discriminate|].
  destruct (Reflect.typ v); congruence.
Qed.

Lemma Inv_initial environ w w1 refs :
  heap w1 = heap w ++ (declared <$> refs) ->
  Inv environ (length (heap w)) refs [] w1.
Proof.
  intros Hh. constructor.
  - rewrite Hh, length_app, length_fmap. reflexivity.
  - constructor.
  - intros i ref Hi. exists (declared ref). split.
    + rewrite Hh, lookup_app_r by lia.
      replace (length (heap w) + i - length (heap w)) with i by lia.
      rewrite list_lookup_fmap, Hi. reflexivity.
    + split; [repeat split|]. repeat split.
Qed.

Lemma agrees_not_flag environ evs rec p ref o :
  agrees environ evs rec p ref o ->
  Opt.State o <> OptStateFlagPassed -> valuesAt ByFlag p evs = [].
Proof.
  unfold agrees. destruct (Opt.State o); intros H Hne;
    [apply H | contradiction | apply H].
Qed.

Lemma pathLt_irrefl p : ~ pathLt p p.
Proof. induction p as [|a p IH]; cbn; [tauto|]. intros [H | [_ H]]; [lia | tauto]. Qed.

Lemma reflectStruct_NoDup fs : NoDup (pathOf <$> reflectStruct fs).
Proof.
  unfold reflectStruct, structUnwrap. cbn [Type_ Value].
  rewrite unwrapType_struct.
  destruct (unwrapFrom_sorted fs
              (Reflect.mkValue (Reflect.TStruct fs) [] false false) 0) as [H _].
  induction H as [|p l _ IH Hp]; constructor; [|exact IH].
  intros Hin. rewrite List.Forall_forall in Hp.
  apply (pathLt_irrefl p). apply Hp. apply list_elem_of_In. exact Hin.
Qed.

Lemma exclusive_nil h0 n : exclusive h0 n [].
Proof. split; [constructor|]. intros p. cbn. auto. Qed.

Section OneRun.

(** The environment, the number of objects allocated before the run, and
    the discovered fields, each with a storage of its own. *)
Context (environ : gmap string string) (h0 : nat) (refs : list reflected).

Hypothesis distinct : NoDup (pathOf <$> refs).

Lemma assign_preserves evs w s st i ref v out w' :
  Inv environ h0 refs evs w ->
  refs !! i = Some ref ->
  valuesAt ByEnv (h0 + i) evs = [] ->
  (s = ByFlag /\ st = OptStateFlagPassed)
  \/ (s = ByEnv /\ st = OptStateEnvPassed
      /\ valuesAt ByFlag (h0 + i) evs = []
      /\ LookupEnv environ (ToUpper (optionName ref)) = Some v) ->
  assign s st (h0 + i) v w = (out, w') ->
  (out = Panic setPanic /\ w' = addEvent w (EvSetFunc s (h0 + i) v))
  \/ (out = Return tt
      /\ Inv environ h0 refs (evs ++ [EvSetFunc s (h0 + i) v]) w'
      /\ trace w' = trace w ++ [EvSetFunc s (h0 + i) v]
      /\ forall q, q <> h0 + i -> heap w' !! q = heap w !! q).
Proof.
  intros [Hlen Hevs Hopts] Hi Henv Hmode. rewrite assign_eq.
  destruct (Hopts i ref Hi) as (o & Ho & (Hname & Hset & Hreq) & Hagr).
  rewrite Ho. destruct (Opt.SetFunc o v (record w)) as [r|] eqn:Hr.
  2:{ intros [= <- <-]. left. split; reflexivity. }
  intros [= <- <-]. right. split; [reflexivity|].
  rewrite Hset in Hr. apply SetString_Some in Hr. fold (pathOf ref) in Hr.
  split; [|split; [reflexivity|]].
  2:{ intros q Hq. cbn [heap]. apply list_lookup_insert_ne. congruence. }
  constructor; cbn [heap record trace].
  - rewrite length_insert. exact Hlen.
  - apply Forall_app. split; [exact Hevs|]. constructor; [|constructor].
    cbn. apply lookup_lt_Some in Hi. lia.
  - intros j ref' Hj. destruct (decide (j = i)) as [->|Hne].
    + assert (ref' = ref) by congruence. subst ref'.
      exists (written o v st). split.
      { apply list_lookup_insert_eq. eapply lookup_lt_Some. exact Ho. }
      split; [repeat split; assumption|].
      unfold agrees. cbn [written setState setValue Opt.State Opt.Value Opt.Name].
      rewrite !valuesAt_app.
      destruct Hmode as [[-> ->] | (-> & -> & Hflag & Hlook)].
      * rewrite valuesAt_same, last_snoc.
        rewrite valuesAt_other by (left; discriminate).
        rewrite Henv, Hr, lookup_insert_eq. repeat split.
      * rewrite valuesAt_same, valuesAt_other by (left; discriminate).
        rewrite Hflag, Henv, Hr, lookup_insert_eq, Hname. repeat split.
        exact Hlook.
    + destruct (Hopts j ref' Hj) as (o' & Ho' & Hb' & Hagr').
      exists o'. split.
      { rewrite list_lookup_insert_ne by lia. exact Ho'. }
      split; [exact Hb'|].
      assert (Hpath : pathOf ref <> pathOf ref').
      { intros E. apply Hne.
        eapply (NoDup_lookup (pathOf <$> refs)); [exact distinct | |].
        - rewrite list_lookup_fmap, Hj. reflexivity.
        - rewrite list_lookup_fmap, Hi. cbn. f_equal. exact E. }
      unfold agrees in *. rewrite !valuesAt_app.
      rewrite !(valuesAt_other _ (h0 + j)) by (right; lia).
      rewrite !app_nil_r, Hr, lookup_insert_ne by exact Hpath.
      exact Hagr'.
Qed.

Lemma parseLoop_post :
  forall fuel f w evs out w',
    Inv environ h0 refs evs w ->
    noEnv evs ->
    (forall nm p, Flag.formal f !! nm = Some p -> h0 <= p < h0 + length refs) ->
    Flag.errorHandling f = Flag.ExitOnError ->
    Flag.parseLoop fuel f w = (out, w') ->
    exists evs',
      trace w' = trace w ++ evs' /\ noEnv (evs ++ evs') /\
      match out with
      | Return (err, f') => err = None /\ Inv environ h0 refs (evs ++ evs') w'
      | Exit c => (c = 0%Z \/ c = 2%Z) /\ Inv environ h0 refs (evs ++ evs') w'
      | Panic _ => panicked environ h0 refs (evs ++ evs') ByFlag w'
      end.
Proof.
  induction fuel as [|fuel IH]; intros f w evs out w' HI Hne Hf He.
  - intros [= <- <-]. exists []. rewrite !app_nil_r. auto.
  - cbn [Flag.parseLoop]. unfold bind. rewrite parseOne_eq.
    pose proof (nextFlag_sameSet f) as Hs.
    destruct (nextFlag f) as [f'|e f'|p nm v f'].
    + intros [= <- <-]. exists []. rewrite !app_nil_r. auto.
    + destruct Hs as (_ & Hs & _). rewrite Hs, He.
      destruct e; intros [= <- <-]; exists []; rewrite !app_nil_r; auto.
    + destruct Hs as ((Hform & Herr & _) & Hl & _).
      destruct (Hf nm p Hl) as [Hp1 Hp2].
      assert (Hi : exists i, p = h0 + i /\ i < length refs)
        by (exists (p - h0); lia).
      destruct Hi as (i & -> & Hi).
      destruct (lookup_lt_is_Some_2 refs i Hi) as [ref Href].
      destruct (assign ByFlag OptStateFlagPassed (h0 + i) v w) as [o w1] eqn:Ha.
      eapply (assign_preserves evs) in Ha as Hstep;
        [|exact HI|exact Href|apply Hne|left; split; reflexivity].
      destruct Hstep as [[-> ->] | (-> & HI1 & Ht1 & _)].
      * intros [= <- <-]. exists [EvSetFunc ByFlag (h0 + i) v].
        split; [reflexivity|]. split; [apply noEnv_snoc, Hne|].
        exists w, evs, i, v. split; [exact HI|]. split; [exact Hi|].
        split; [reflexivity|]. split; [apply Hne|].
        split; [intros [=] | reflexivity].
      * intros Hrest.
        eapply IH in Hrest as (evs' & Ht & Hne' & Hout);
          [|exact HI1|apply noEnv_snoc, Hne|rewrite Hform; exact Hf
           |rewrite Herr; exact He].
        exists (EvSetFunc ByFlag (h0 + i) v :: evs').
        rewrite Ht, Ht1, <- !app_assoc in *. cbn [app] in *.
        split; [reflexivity|]. split; [exact Hne'|]. exact Hout.
Qed.

Lemma resolveAll_post :
  forall m k w evs out w',
    k + m = length refs ->
    Inv environ h0 refs evs w ->
    (forall i, k <= i -> valuesAt ByEnv (h0 + i) evs = []) ->
    resolveAll environ (seq (h0 + k) m) w = (out, w') ->
    exists evs',
      trace w' = trace w ++ evs'
      /\ (forall q, q < h0 + k -> heap w' !! q = heap w !! q)
      /\ match out with
         | Return None =>
             Inv environ h0 refs (evs ++ evs') w'
             /\ forall i, k <= i < length refs -> settledAt environ w' (h0 + i)
         | Return (Some e) =>
             Inv environ h0 refs (evs ++ evs') w'
             /\ exists j, failedAt environ h0 (length refs) w' (evs ++ evs') k j e
         | Exit _ => False
         | Panic _ => panicked environ h0 refs (evs ++ evs') ByEnv w'
         end.
Proof.
  induction m as [|m IH]; intros k w evs out w' Hk HI Hun.
  { intros [= <- <-]. exists []. rewrite !app_nil_r.
    split; [reflexivity|]. split; [reflexivity|].
    split; [exact HI|]. intros i Hi. lia. }
  cbn [seq resolveAll]. unfold bind. rewrite resolve_eq.
  assert (Hkn : k < length refs) by lia.
  destruct (lookup_lt_is_Some_2 refs k Hkn) as [ref Href].
  destruct (inv_opts _ _ _ _ _ HI k ref Href) as (o & Ho & Hb & Hagr).
  rewrite Ho.
  replace (S (h0 + k)) with (h0 + S k) by lia.
  (* what the rest of the loop gives, once this option is settled *)
  assert (Hrest : forall w1 evs1,
    trace w1 = trace w ++ evs1 ->
    Inv environ h0 refs (evs ++ evs1) w1 ->
    (forall i, S k <= i -> valuesAt ByEnv (h0 + i) (evs ++ evs1) = []) ->
    (forall q, q <> h0 + k -> heap w1 !! q = heap w !! q) ->
    settledAt environ w1 (h0 + k) ->
    resolveAll environ (seq (h0 + S k) m) w1 = (out, w') ->
    exists evs',
      trace w' = trace w ++ evs'
      /\ (forall q, q < h0 + k -> heap w' !! q = heap w !! q)
      /\ match out with
         | Return None =>
             Inv environ h0 refs (evs ++ evs') w'
             /\ forall i, k <= i < length refs -> settledAt environ w' (h0 + i)
         | Return (Some e) =>
             Inv environ h0 refs (evs ++ evs') w'
             /\ exists j, failedAt environ h0 (length refs) w' (evs ++ evs') k j e
         | Exit _ => False
         | Panic _ => panicked environ h0 refs (evs ++ evs') ByEnv w'
         end).
  { intros w1 evs1 Ht1 HI1 Hun1 Hfr Hset Hrun.
    eapply IH in Hrun as (evs2 & Ht2 & Hfr2 & Hout);
      [|lia|exact HI1|exact Hun1].
    exists (evs1 ++ evs2). rewrite !app_assoc in *.
    split; [rewrite Ht2, Ht1; reflexivity|].
    split; [intros q Hq; rewrite Hfr2 by lia; apply Hfr; lia|].
    assert (Hset' : settledAt environ w' (h0 + k)).
    { destruct Hset as (o1 & Ho1 & Hs1). exists o1.
      rewrite Hfr2 by lia. split; assumption. }
    destruct out as [[e|]|c|msg]; try exact Hout.
    - destruct Hout as (HI2 & j & Hj & Hfail & Hbefore & Hafter).
      split; [exact HI2|]. exists j. split; [lia|]. split; [exact Hfail|].
      split.
      + intros i Hi. destruct (decide (i = k)) as [->|]; [exact Hset'|].
        apply Hbefore. lia.
      + intros i Hi. apply Hafter. exact Hi.
    - destruct Hout as (HI2 & Hall). split; [exact HI2|].
      intros i Hi. destruct (decide (i = k)) as [->|]; [exact Hset'|].
      apply Hall. lia. }
  destruct (bool_decide (Opt.State o <> OptStateFlagPassed)) eqn:B.
  - apply bool_decide_eq_true in B.
    destruct (LookupEnv environ (ToUpper (Opt.Name o))) as [v|] eqn:Hlook.
    + destruct (assign ByEnv OptStateEnvPassed (h0 + k) v w) as [o1 w1] eqn:Ha.
      eapply (assign_preserves evs) in Ha as Hstep;
        [|exact HI|exact Href|apply Hun; lia|].
      2:{ right. split; [reflexivity|]. split; [reflexivity|].
          split; [eapply agrees_not_flag; eassumption|].
          destruct Hb as (Hn & _). rewrite <- Hn. exact Hlook. }
      destruct Hstep as [[-> ->] | (-> & HI1 & Ht1 & Hfr)].
      * intros [= <- <-]. exists [EvSetFunc ByEnv (h0 + k) v].
        split; [reflexivity|]. split; [reflexivity|].
        exists w, evs, k, v. split; [exact HI|]. split; [exact Hkn|].
        split; [reflexivity|]. split; [apply Hun; lia|].
        split; [intros _; eapply agrees_not_flag; eassumption | reflexivity].
      * apply (Hrest w1 [EvSetFunc ByEnv (h0 + k) v]); try assumption.
        -- intros i Hi. rewrite valuesAt_app, Hun by lia.
           apply valuesAt_other. right. lia.
        -- rewrite assign_eq, Ho in Ha.
           destruct (Opt.SetFunc o v (record w)); [|discriminate].
           injection Ha as <-. exists (written o v OptStateEnvPassed).
           split; [cbn [heap]; apply list_lookup_insert_eq;
                   eapply lookup_lt_Some; exact Ho|].
           intros [=].
    + destruct (missing o) as [e|] eqn:Hm.
      * intros [= <- <-]. exists []. rewrite !app_nil_r.
        split; [reflexivity|]. split; [reflexivity|]. split; [exact HI|].
        exists k. unfold missing in Hm.
        destruct (bool_decide (Opt.State o = OptStateUntouched)) eqn:Bu;
          [|discriminate].
        destruct (Opt.Required o) eqn:Hreq; [|discriminate].
        injection Hm as <-. apply bool_decide_eq_true in Bu.
        split; [lia|]. split; [exists o; repeat split; assumption|].
        split; [intros i Hi; lia|].
        intros i Hi. apply Hun; lia.
      * apply (Hrest w []); rewrite ?app_nil_r; try assumption; try reflexivity.
        -- intros i Hi. apply Hun. lia.
        -- exists o. split; [exact Ho|]. intros Hu. split; [exact Hlook|].
           unfold missing in Hm. rewrite bool_decide_eq_true_2 in Hm by exact Hu.
           destruct (Opt.Required o); [discriminate | reflexivity].
  - apply bool_decide_eq_false in B. apply dec_stable in B.
    apply (Hrest w []); rewrite ?app_nil_r; try assumption; try reflexivity.
    + intros i Hi. apply Hun. lia.
    + exists o. split; [exact Ho|]. intros Hu. congruence.
Qed.

Lemma Inv_exclusive evs w :
  Inv environ h0 refs evs w -> exclusive h0 (length refs) evs.
Proof.
  intros [Hlen Hevs Hopts]. split; [exact Hevs|]. intros p.
  destruct (decide (h0 <= p < h0 + length refs)) as [Hp | Hp].
  - assert (Hi : p - h0 < length refs) by lia.
    destruct (lookup_lt_is_Some_2 refs _ Hi) as [ref Href].
    destruct (Hopts _ ref Href) as (o & _ & _ & Hagr).
    replace (h0 + (p - h0)) with p in Hagr by lia.
    unfold agrees in Hagr. destruct (Opt.State o).
    + destruct Hagr as (_ & Hf & He). rewrite He. auto.
    + destruct Hagr as (_ & He & _). rewrite He. auto.
    + destruct Hagr as (Hf & He & _). rewrite He. auto.
  - rewrite !(valuesAt_outside h0 (length refs)) by assumption. auto.
Qed.

Lemma panicked_exclusive evs s w :
  panicked environ h0 refs evs s w -> exclusive h0 (length refs) evs.
Proof.
  intros (w0 & evs0 & i & v & HI & Hi & -> & He & Hf & _).
  apply Inv_exclusive in HI as [Hin Hex]. split.
  - apply Forall_app. split; [exact Hin|]. constructor; [cbn; lia | constructor].
  - intros p. rewrite !valuesAt_app. destruct (Hex p) as [Hor Hle].
    destruct (decide (p = h0 + i)) as [->|Hne].
    + rewrite He. destruct s.
      * rewrite (valuesAt_other ByEnv) by (left; discriminate). auto.
      * rewrite (Hf eq_refl), (valuesAt_other ByFlag) by (left; discriminate).
        rewrite valuesAt_same. auto.
    + rewrite !(valuesAt_other _ p) by (right; lia). rewrite !app_nil_r. auto.
Qed.

Lemma Inv_log evs w rem :
  Inv environ h0 refs evs w ->
  Inv environ h0 refs (evs ++ [EvLog rem]) (addEvent w (EvLog rem)).
Proof.
  intros [Hlen Hevs Hopts]. constructor; cbn [addEvent heap record trace].
  - exact Hlen.
  - apply Forall_app. split; [exact Hevs|]. repeat constructor.
  - intros i ref Hi. destruct (Hopts i ref Hi) as (o & Ho & Hb & Hagr).
    exists o. split; [exact Ho|]. split; [exact Hb|].
    unfold agrees in *. rewrite !valuesAt_app. cbn. rewrite !app_nil_r.
    exact Hagr.
Qed.

End OneRun.

Lemma Init_run environ cmd fs args w out w' :
  Cmd.Opts cmd = Some fs ->
  Cmd.ParsedOpts cmd = [] ->
  Init environ cmd args w = (out, w') ->
  exists evs,
    trace w' = trace w ++ evs
    /\ exclusive (length (heap w)) (length (reflectStruct fs)) evs
    /\ initPost environ (length (heap w)) (reflectStruct fs) evs out w'.
Proof.
  intros Ho Hp. rewrite (Init_eq _ _ fs) by exact Ho. rewrite Hp.
  set (refs := reflectStruct fs). set (h0 := length (heap w)).
  destruct (registerAll refs _ [] w) as [reg w1] eqn:Hreg.
  apply registerAll_post in Hreg as (Hr1 & Ht1 & Hreg).
  destruct reg as [[err|[flags parsed]]|c|m].
  - intros [= <- <-]. exists []. rewrite app_nil_r.
    split; [exact Ht1|]. split; [apply exclusive_nil|]. left. auto.
  - destruct Hreg as (Hh1 & Hparsed & Heh & _ & Hform). cbn [app] in Hparsed.
    pose proof (Inv_initial environ w w1 refs Hh1) as HI1. fold h0 in HI1.
    unfold Flag.Parse.
    destruct (Flag.parseLoop _ _ w1) as [pr w2] eqn:Hparse.
    eapply (parseLoop_post environ h0 refs (reflectStruct_NoDup fs)) in Hparse
      as (evs1 & Ht2 & Hne & Hparse); [|exact HI1|intros p; reflexivity| |exact Heh].
    2:{ intros nm p Hl. cbn [Flag.setArgs Flag.formal] in Hl.
        destruct (Hform nm p Hl) as [Hl' | Hl']; [|exact Hl'].
        cbn in Hl'. rewrite lookup_empty in Hl'. discriminate. }
    cbn [app] in *.
    destruct pr as [[err flags']|c|m].
    + destruct Hparse as [-> HI2].
      subst parsed. fold h0. replace h0 with (h0 + 0) at 1 by lia.
      intros Hres.
      eapply (resolveAll_post environ h0 refs (reflectStruct_NoDup fs))
        in Hres as (evs2 & Ht3 & _ & Hout);
        [|reflexivity|apply Inv_log; exact HI2|].
      2:{ intros i _. rewrite valuesAt_app, Hne. reflexivity. }
      cbn [addEvent trace] in Ht3.
      exists ((evs1 ++ [EvLog (Flag.Args flags')]) ++ evs2).
      split; [rewrite Ht3, Ht2, Ht1, <- !app_assoc; reflexivity|].
      destruct out as [[e|]|c|m].
      * destruct Hout as [HI3 Hfail]. split; [eapply Inv_exclusive; exact HI3|].
        right. split; assumption.
      * destruct Hout as [HI3 Hall]. split; [eapply Inv_exclusive; exact HI3|].
        split; [exact HI3|]. intros i Hi. apply Hall. lia.
      * contradiction.
      * split; [eapply panicked_exclusive; exact Hout | exact I].
    + intros [= <- <-]. exists evs1. rewrite Ht2, Ht1.
      split; [reflexivity|]. destruct Hparse as [Hc HI2].
      split; [eapply Inv_exclusive; exact HI2|]. split; assumption.
    + intros [= <- <-]. exists evs1. rewrite Ht2, Ht1.
      split; [reflexivity|].
      split; [eapply panicked_exclusive; exact Hparse | exact I].
  - contradiction.
  - intros [= <- <-]. exists []. rewrite app_nil_r.
    split; [exact Ht1|]. split; [apply exclusive_nil | exact I].
Qed.

(** ** The two loops of [Init] for any list of options *)





(** The first element of a list that repeats the image of an earlier
    one. *)
Lemma first_duplicate {A B : Type} `{EqDecision B} (f : A -> B) (l : list A) :
  ~ NoDup (f <$> l) ->
  exists pre x post,
    l = pre ++ x :: post /\ NoDup (f <$> pre) /\ f x ∈ (f <$> pre).
Proof.
  induction l as [|x l IH] using rev_ind; intros Hnd.
  - destruct Hnd. constructor.
  - destruct (decide (NoDup (f <$> l))) as [Hl | Hl].
    + destruct (decide (f x ∈ (f <$> l))) as [Hin | Hnin].
      * exists l, x, []. auto.
      * destruct Hnd. rewrite fmap_app. apply NoDup_app.
        split; [exact Hl|]. split; [|apply NoDup_singleton].
        intros y Hy Hy'. apply list_elem_of_singleton in Hy'. subst y.
        contradiction.
    + destruct (IH Hl) as (pre & y & post & -> & Hpre & Hy).
      exists pre, y, (post ++ [x]). rewrite <- app_assoc. auto.
Qed.

(** The first loop of [Init] up to a field whose name is taken: the fields
    before it are registered, and [Var] panics at this one. *)
Lemma registerAll_taken pre ref post : forall flags parsed w,
  Forall tagOk pre -> tagOk ref ->
  Forall (fun r => validName (optionName r)) pre ->
  validName (optionName ref) ->
  NoDup (optionName <$> pre) ->
  (forall nm, nm ∈ (optionName <$> pre) -> Flag.formal flags !! nm = None) ->
  optionName ref ∈ (optionName <$> pre)
  \/ is_Some (Flag.formal flags !! optionName ref) ->
  exists w',
    registerAll (pre ++ ref :: post) flags parsed w
    = (Panic (redefined (Flag.name flags) (optionName ref)), w')
    /\ record w' = record w /\ trace w' = trace w
    /\ length (heap w') = length (heap w) + length pre + 1.
Proof.
  induction pre as [|r pre IH];
    intros flags parsed w Hok Hokr Hval Hvalr Hnd Hfree Htaken.
  - cbn [app]. rewrite registerAll_cons, Hokr.
    destruct Htaken as [Hin | Hsome]; [inversion Hin|].
    destruct Hvalr as [Hv1 Hv2]. unfold varPanic. rewrite Hv1, Hv2.
    rewrite bool_decide_eq_false_2 by (intros [? ?]; discriminate).
    rewrite bool_decide_eq_true_2 by exact Hsome.
    eexists. split; [reflexivity|]. cbn [allocated record trace heap].
    rewrite length_app. cbn. repeat split. lia.
  - cbn [app]. rewrite registerAll_cons.
    inversion Hok as [|? ? Ht Hoks]; subst.
    inversion Hval as [|? ? [Hv1 Hv2] Hvals]; subst.
    rewrite fmap_cons in Hnd. apply NoDup_cons in Hnd as [Hnin Hnd].
    rewrite Ht. unfold varPanic. rewrite Hv1, Hv2.
    rewrite bool_decide_eq_false_2 by (intros [? ?]; discriminate).
    rewrite (Hfree (optionName r)) by (rewrite fmap_cons; left).
    rewrite bool_decide_eq_false_2 by (intros [? ?]; discriminate).
    destruct (IH (defineFlag flags (optionName r) (length (heap w)))
                 (parsed ++ [length (heap w)]) (allocated w (declared r))
                 Hoks Hokr Hvals Hvalr Hnd) as (w' & Hrun & Hr & Htr & Hlen).
    + intros nm Hin. cbn [defineFlag Flag.formal].
      rewrite lookup_insert_ne by (intros <-; contradiction).
      apply Hfree. rewrite fmap_cons. right. exact Hin.
    + cbn [defineFlag Flag.formal].
      destruct Htaken as [Hin | Hsome].
      * rewrite fmap_cons in Hin. apply elem_of_cons in Hin as [E | Hin].
        -- right. rewrite E, lookup_insert_eq. eauto.
        -- left. exact Hin.
      * right. destruct (decide (optionName r = optionName ref)) as [E | E].
        -- rewrite E, lookup_insert_eq. eauto.
        -- rewrite lookup_insert_ne by exact E. exact Hsome.
    + exists w'. split; [exact Hrun|]. split; [exact Hr|]. split; [exact Htr|].
      rewrite Hlen. cbn [allocated heap length]. rewrite length_app. cbn. lia.
Qed.

(** ** The claims of the specification *)

Lemma eventsSince_app w w' evs :
  trace w' = trace w ++ evs -> eventsSince w w' = evs.
Proof. intros H. unfold eventsSince. rewrite H. apply drop_app_length. Qed.

(** An undefined [-h] is the help request: status 0. *)
Example help_exits_with_zero :
  fst (Init ∅ portCmd ["-h"] fresh_world) = Exit 0.
Proof. vm_compute. reflexivity. Qed.

(** A [required] tag that is no boolean is returned as the error of
    [strconv.ParseBool]. *)
Example malformed_required_tag :
  fst (Init ∅ countCmd [] fresh_world)
  = Return (Some (NumError "ParseBool" "yes")).
Proof. vm_compute. reflexivity. Qed.

(** The setter of a field that is no string panics when it is called. *)
Example setter_of_other_kind_panics :
  fst (Init {["COUNT" := "3"]} intCmd [] fresh_world) = Panic setPanic.
Proof. vm_compute. reflexivity. Qed.

(** [--] ends the flags; what follows is left to the action. *)
Example double_dash_ends_flags :
  trace (snd (Init ∅ portCmd ["--"; "--port"; "1"] fresh_world))
  = [EvLog ["--port"; "1"]].
Proof. vm_compute. reflexivity. Qed.




(** C2 as the specification states it does not hold: with the argument
    [--bogus], which no option defines, [Init] does not return; the process
    exits with status 2. *)
Lemma parse_failure_counterexample :
  fst (Init ∅ portCmd ["--bogus"] fresh_world) = Exit 2
  /\ ~ parseFailureReturned.
Proof.
  split; [vm_compute; reflexivity|]. intros H.
  destruct (H ∅ portCmd [field "Port" [("desc", "port to listen on")]]
              ["--bogus"] fresh_world
              (snd (registerAll
                      (reflectStruct [field "Port" [("desc", "port to listen on")]])
                      (Flag.NewFlagSet "http" Flag.ExitOnError) [] fresh_world))
              (snd (registerAll
                      (reflectStruct [field "Port" [("desc", "port to listen on")]])
                      (Flag.NewFlagSet "http" Flag.ExitOnError) [] fresh_world))
              (Flag.mkFlagSet "http" {["port" := 0]} [] Flag.ExitOnError)
              (Flag.mkFlagSet "http" {["port" := 0]} [] Flag.ContinueOnError)
              [0]
              (Errorf "flag provided but not defined: -bogus"))
    as (w' & Hrun).
  - reflexivity.
  - vm_compute. reflexivity.
  - vm_compute. reflexivity.
  - vm_compute in Hrun. discriminate Hrun.
Qed.

(** C2 (amended).  [Init] builds its flag set with [flag.ExitOnError].  When
    parsing the arguments fails with the error [e], [Parse] ends the process
    inside [Init]: with status 0 when [e] is [flag.ErrHelp], with status 2
    otherwise. *)
Theorem parse_failure_exits
    (environ : gmap string string) (cmd : Cmd) (fs : list Reflect.StructField)
    (args : list string) (w w1 w2 : World)
    (flags f2 : Flag.FlagSet) (parsed : list nat) (e : error) :
  Cmd.Opts cmd = Some fs ->
  registerAll (reflectStruct fs)
    (Flag.NewFlagSet (Cmd.Name cmd) Flag.ExitOnError) (Cmd.ParsedOpts cmd) w
    = (Return (inr (flags, parsed)), w1) ->
  Flag.Parse (withHandling flags Flag.ContinueOnError) args w1
    = (Return (Some e, f2), w2) ->
  Init environ cmd args w = (Exit (exitCode e), w2).
Proof.
  intros Ho Hreg Hparse. rewrite (Init_eq _ _ fs) by exact Ho. rewrite Hreg.
  apply registerAll_post in Hreg as (_ & _ & _ & _ & Heh & _).
  cbn [Flag.NewFlagSet Flag.errorHandling] in Heh.
  unfold Flag.Parse in *. rewrite setArgs_withHandling in Hparse.
  apply parseLoop_exit in Hparse.
  rewrite <- (withHandling_id (Flag.setArgs flags args)).
  cbn [Flag.setArgs Flag.errorHandling] in *. rewrite Heh.
  cbn [length Flag.setArgs Flag.args withHandling] in *.
  rewrite Hparse. reflexivity.
Qed.

(** With the argument [--bogus]. *)
Lemma parse_failure_exits_witness :
  exists w2, Init ∅ portCmd ["--bogus"] fresh_world = (Exit 2, w2).
Proof.
  eexists.
  apply (parse_failure_exits ∅ portCmd [field "Port" [("desc", "port to listen on")]]
           ["--bogus"] fresh_world
           (snd (registerAll
                   (reflectStruct [field "Port" [("desc", "port to listen on")]])
                   (Flag.NewFlagSet "http" Flag.ExitOnError) [] fresh_world))
           _
           (Flag.mkFlagSet "http" {["port" := 0]} [] Flag.ExitOnError)
           (Flag.mkFlagSet "http" {["port" := 0]} [] Flag.ContinueOnError)
           [0]
           (Errorf "flag provided but not defined: -bogus")).
  - reflexivity.
  - vm_compute. reflexivity.
  - vm_compute. reflexivity.
Defined.



(** With [--port 8080] and [PORT=1] the new option is passed by the flag
    and stays so; the fallback of the old option then writes the field
    they share. *)
Example prefilled_option_shares_the_field :
  fst (Init {["PORT" := "1"]} prefilledCmd ["--port"; "8080"] prefilled_world)
  = Return None
  /\ (Opt.State <$> heap (snd (Init {["PORT" := "1"]} prefilledCmd
                                   ["--port"; "8080"] prefilled_world)))
     = [OptStateEnvPassed; OptStateFlagPassed]
  /\ (Opt.Value <$> heap (snd (Init {["PORT" := "1"]} prefilledCmd
                                   ["--port"; "8080"] prefilled_world)))
     = ["1"; "8080"]
  /\ record (snd (Init {["PORT" := "1"]} prefilledCmd
                       ["--port"; "8080"] prefilled_world)) !! [0]
     = Some "1"
  /\ eventsSince prefilled_world
       (snd (Init {["PORT" := "1"]} prefilledCmd
                  ["--port"; "8080"] prefilled_world))
     = [EvSetFunc ByFlag 1 "8080"; EvLog []; EvSetFunc ByEnv 0 "1"].
Proof. vm_compute. repeat split. Qed.

(** C4 as the specification states it does not hold: with a required first
    option that nothing sets and a second option whose variable is set,
    [Init] returns the error of the first and has not touched the second. *)
Lemma fallback_before_check_counterexample :
  fst (Init {["SECOND" := "x"]} twoCmd [] fresh_world)
    = Return (Some (requiredError "first"))
  /\ ~ fallbackBeforeCheck.
Proof.
  split; [vm_compute; reflexivity|]. intros H.
  destruct (H {["SECOND" := "x"]} twoCmd
              [field "First" [("required", "true")]; field "Second" []]
              [] fresh_world
              (snd (Init {["SECOND" := "x"]} twoCmd [] fresh_world))
              "first" 1
              (mkItem (Reflect.mkValue
                         (Reflect.TStruct
                            [field "First" [("required", "true")];
                             field "Second" []])
                         [] false false) 1 (field "Second" []))
              "x")
    as (o & Ho & Hs); try reflexivity.
  vm_compute in Ho. injection Ho as <-. apply Hs. reflexivity.
Qed.

(** C4 (amended).  The fallback and the required check run option by
    option, in the order of registration.  When [Init] returns an error, it
    is that of a malformed [required] tag or it names the first option that
    is required and still untouched behind its own lookup, for which no
    variable is set; the options before it are settled, and the setter of no
    option behind it has been called by the fallback. *)
Theorem missing_required_stops_fallback
    (environ : gmap string string) (cmd : Cmd) (fs : list Reflect.StructField)
    (args : list string) (w w' : World) (e : error) :
  Cmd.Opts cmd = Some fs ->
  Cmd.ParsedOpts cmd = [] ->
  Init environ cmd args w = (Return (Some e), w') ->
  (exists ref, ref ∈ reflectStruct fs /\ tagError ref = Some e)
  \/ exists j o,
       heap w' !! (length (heap w) + j) = Some o
       /\ j < length (reflectStruct fs)
       /\ e = requiredError (Opt.Name o)
       /\ Opt.Required o = true
       /\ Opt.State o = OptStateUntouched
       /\ LookupEnv environ (ToUpper (Opt.Name o)) = None
       /\ (forall i, i < j -> exists o',
             heap w' !! (length (heap w) + i) = Some o'
             /\ (Opt.State o' = OptStateUntouched ->
                 LookupEnv environ (ToUpper (Opt.Name o')) = None
                 /\ Opt.Required o' = false))
       /\ (forall i, j < i ->
             valuesAt ByEnv (length (heap w) + i) (eventsSince w w') = []).
Proof.
  intros Ho Hp Hrun.
  destruct (Init_run _ _ _ _ _ _ _ Ho Hp Hrun) as (evs & Ht & _ & Hpost).
  rewrite (eventsSince_app _ _ _ Ht). cbn [initPost] in Hpost.
  destruct Hpost as [[_ Htag] | [_ (j & Hj & (o & Hlook & -> & Hs & Hr & Hn) & Hbefore & Hafter)]].
  - left. exact Htag.
  - right. exists j, o. split; [exact Hlook|]. split; [lia|].
    split; [reflexivity|]. split; [exact Hr|]. split; [exact Hs|].
    split; [exact Hn|]. split; [|exact Hafter].
    intros i Hi. apply Hbefore. lia.
Qed.

(** With the required [first] unset and [SECOND=x]. *)
Lemma missing_required_stops_fallback_witness :
  (exists ref,
      ref ∈ reflectStruct [field "First" [("required", "true")]; field "Second" []]
      /\ tagError ref = Some (requiredError "first"))
  \/ exists j o,
       heap (snd (Init {["SECOND" := "x"]} twoCmd [] fresh_world)) !! (0 + j)
         = Some o
       /\ j < length (reflectStruct [field "First" [("required", "true")];
                                     field "Second" []])
       /\ requiredError "first" = requiredError (Opt.Name o)
       /\ Opt.Required o = true
       /\ Opt.State o = OptStateUntouched
       /\ LookupEnv {["SECOND" := "x"]} (ToUpper (Opt.Name o)) = None
       /\ (forall i, i < j -> exists o',
             heap (snd (Init {["SECOND" := "x"]} twoCmd [] fresh_world))
               !! (0 + i) = Some o'
             /\ (Opt.State o' = OptStateUntouched ->
                 LookupEnv {["SECOND" := "x"]} (ToUpper (Opt.Name o')) = None
                 /\ Opt.Required o' = false))
       /\ (forall i, j < i ->
             valuesAt ByEnv (0 + i)
               (eventsSince fresh_world
                  (snd (Init {["SECOND" := "x"]} twoCmd [] fresh_world))) = []).
Proof.
  apply (missing_required_stops_fallback {["SECOND" := "x"]} twoCmd
           [field "First" [("required", "true")]; field "Second" []]
           [] fresh_world _ (requiredError "first")).
  - reflexivity.
  - reflexivity.
  - vm_compute. reflexivity.
Defined.

Lemma list_ascii_roundtrip s :
  list_ascii_of_string (string_of_list_ascii s) = s.
Proof. apply list_ascii_of_string_of_list_ascii. Qed.

(** C5.  [ToSnakeCase] maps [MaxRetryCount] to [max-retry-count] and
    [HTTPServer] to [http-server].  On any text its two replacements are the
    one pass of [codeRule], which puts a separator wherever the rule of the
    specification does.  On an identifier of letters and digits the result
    is that of the specification's rule, in lower case, and neither begins
    nor ends with a separator. *)
Theorem name_deriver_separators :
  ToSnakeCase "MaxRetryCount" = "max-retry-count"
  /\ ToSnakeCase "HTTPServer" = "http-server"
  /\ (forall s, snakeChars s = map toLower (hyphenateBy codeRule None s))
  /\ (forall p c tl, specRule p c tl = true -> codeRule p c tl = true)
  /\ (forall identifier, isAlnumString identifier ->
        ToSnakeCase identifier = NameDeriver identifier
        /\ head (list_ascii_of_string (ToSnakeCase identifier)) <> Some dash
        /\ last (list_ascii_of_string (ToSnakeCase identifier)) <> Some dash).
Proof.
  split; [reflexivity|]. split; [reflexivity|].
  split; [exact snakeChars_codeRule|]. split.
  - intros p c tl. unfold specRule, codeRule.
    destruct (isUpper c); [|discriminate]. cbn [andb].
    destruct (isLowerDigit p); [reflexivity|]. cbn [orb].
    destruct (isUpper p) eqn:Hp; [|discriminate].
    rewrite (upper_isDot p Hp). intros H. exact H.
  - intros identifier Hal. unfold isAlnumString in Hal.
    unfold ToSnakeCase, NameDeriver. rewrite list_ascii_roundtrip.
    split; [|split].
    + rewrite snakeChars_codeRule, hyphenate_alnum; [reflexivity | exact Hal | exact I].
    + rewrite head_snakeChars.
      destruct (list_ascii_of_string identifier) as [|c tl]; [discriminate|].
      cbn. intros [= E]. inversion Hal; subst.
      eapply alnum_toLower_not_dash; eassumption.
    + rewrite last_snakeChars.
      destruct (last (list_ascii_of_string identifier)) as [c|] eqn:L; [|discriminate].
      cbn. intros [= E]. apply last_Some_elem_of in L.
      rewrite Forall_forall in Hal.
      eapply alnum_toLower_not_dash; [apply Hal; exact L | exact E].
Qed.

(** At the identifier [HTTPServer2Go]. *)
Lemma name_deriver_separators_witness :
  ToSnakeCase "HTTPServer2Go" = NameDeriver "HTTPServer2Go"
  /\ head (list_ascii_of_string (ToSnakeCase "HTTPServer2Go")) <> Some dash
  /\ last (list_ascii_of_string (ToSnakeCase "HTTPServer2Go")) <> Some dash.
Proof.
  apply (proj2 (proj2 (proj2 (proj2 name_deriver_separators)))).
  unfold isAlnumString. cbn. repeat constructor.
Defined.

(** C6.  Field discovery returns one descriptor for each leaf field of the
    options record, at any depth; each describes the leaf at its path; the
    paths come in declaration order, depth first; and at every level the
    leaves of a field stand between those of the fields declared before it
    and those of the fields declared after it. *)
Theorem field_discovery_order (fs : list Reflect.StructField) :
  length (reflectStruct fs) = leafCount (Reflect.TStruct fs)
  /\ Forall (describes
               (Reflect.mkValue (Reflect.TStruct fs) [] false false) fs)
            (reflectStruct fs)
  /\ StronglySorted pathLt (pathOf <$> reflectStruct fs)
  /\ reflectStruct fs
     = unwrapFrom (Reflect.mkValue (Reflect.TStruct fs) [] false false) 0 fs
  /\ (forall v i before f after,
        unwrapFrom v i (before ++ f :: after)
        = unwrapFrom v i before
          ++ (if Reflect.isStruct (Reflect.Type_ f)
              then structUnwrap (mkItem v (i + length before) f)
              else [mkItem v (i + length before) f])
          ++ unwrapFrom v (S (i + length before)) after)
  /\ (forall v i name tag embedded sub,
        structUnwrap
          (mkItem v i (Reflect.mkField name tag embedded (Reflect.TStruct sub)))
        = unwrapFrom
            (Reflect.Field v i
               (Reflect.mkField name tag embedded (Reflect.TStruct sub)))
            0 sub).
Proof.
  assert (E : reflectStruct fs
              = unwrapFrom (Reflect.mkValue (Reflect.TStruct fs) [] false false) 0 fs).
  { unfold reflectStruct, structUnwrap. cbn [Type_ Value].
    apply unwrapType_struct. }
  rewrite E. split; [apply unwrapFrom_length|].
  split; [apply (unwrapFrom_describes fs _ 0 []); reflexivity|].
  split; [apply unwrapFrom_sorted|].
  split; [reflexivity|]. split.
  - intros v i before f after. rewrite unwrapFrom_app.
    cbn [unwrapFrom]. replace (S (i + length before)) with (S (i + length before)) by lia.
    reflexivity.
  - intros v i name tag embedded sub. apply structUnwrap_item.
    reflexivity.
Qed.

(** C7.  For the tree root, [serve], [http] with the action [A]: the
    arguments [serve http --port 8080] set the option [port] to [8080] with
    state [OptStateFlagPassed] and run [A]; [serve bogus] gives the error
    naming [bogus] and [serve]; [serve] alone gives the error of too few
    arguments naming [serve]. *)
Theorem dispatch_scenario
    (prog : string) (environ : gmap string string)
    (A : gmap (list nat) string -> option error)
    (r0 : gmap (list nat) string) :
  Execute [prog; "serve"; "http"; "--port"; "8080"] environ (rootCmd A)
          (mkWorld r0 [] [])
  = (Return (A (<[[0] := "8080"]> r0)),
     mkWorld (<[[0] := "8080"]> r0)
             [portOpt "8080" OptStateFlagPassed]
             [EvSetFunc ByFlag 0 "8080"; EvLog []; EvRun "http"])
  /\ Execute [prog; "serve"; "bogus"] environ (rootCmd A) (mkWorld r0 [] [])
     = (Return (Some (Errorf "'bogus' is not a serve command")),
        mkWorld r0 [] [])
  /\ Execute [prog; "serve"] environ (rootCmd A) (mkWorld r0 [] [])
     = (Return (Some (Errorf "serve: not engough arguments")),
        mkWorld r0 [] []).
Proof.
  split; [|split]; vm_compute; reflexivity.
Qed.

(** C8 as the specification states it does not hold: for a command that
    comes with an option of its own bound to the field [Port], with
    [--port 8080] and [PORT=1], the flag writes the field through the new
    option and the fallback writes it again through the old one. *)
Lemma field_written_twice_counterexample :
  eventsSince prefilled_world
    (snd (Init {["PORT" := "1"]} prefilledCmd ["--port"; "8080"] prefilled_world))
  = [EvSetFunc ByFlag 1 "8080"; EvLog []; EvSetFunc ByEnv 0 "1"]
  /\ ~ fieldWrittenFromOneSide.
Proof.
  split; [vm_compute; reflexivity|]. intros H.
  assert (Hrun : Init {["PORT" := "1"]} prefilledCmd ["--port"; "8080"]
                      prefilled_world
                 = (Return None,
                    snd (Init {["PORT" := "1"]} prefilledCmd ["--port"; "8080"]
                              prefilled_world)))
    by (vm_compute; reflexivity).
  apply (H {["PORT" := "1"]} prefilledCmd [field "Port" []]
           ["--port"; "8080"] prefilled_world _ _ eq_refl Hrun
           (mkItem (Reflect.mkValue (Reflect.TStruct [field "Port" []])
                                    [] false false) 0 (field "Port" []))
           (EvSetFunc ByFlag 1 "8080") (EvSetFunc ByEnv 0 "1")).
  - apply list_elem_of_here.
  - vm_compute. apply list_elem_of_here.
  - vm_compute. do 2 apply list_elem_of_further. apply list_elem_of_here.
  - split.
    + exists 1, "8080",
        (Opt.mk "port" "" "8080" OptStateFlagPassed
           (Reflect.SetString (Reflect.mkValue Reflect.TString [0] false false))
           false),
        (Reflect.mkValue Reflect.TString [0] false false).
      split; [reflexivity|]. split; [vm_compute; reflexivity|].
      split; reflexivity.
    + exists 0, "1",
        (Opt.mk "port" "" "1" OptStateEnvPassed
           (Reflect.SetString (Reflect.mkValue Reflect.TString [0] false false))
           false),
        (Reflect.mkValue Reflect.TString [0] false false).
      split; [reflexivity|]. split; [vm_compute; reflexivity|].
      split; reflexivity.
Qed.

(** C8 (amended).  For a command that comes without options of its own
    ([ParsedOpts] is empty when [Init] is called): in one run of [Init],
    however it ends, every setter call is for an option of this run; no
    option has setter calls both from a flag and from the fallback, and
    none has two from the fallback; the field a flag wrote is never a field
    the fallback wrote.  When [Init] returns [nil], the state of each
    option is that of its calls: untouched without any,
    [OptStateFlagPassed] with calls from flags, [OptStateEnvPassed] with the
    one call from the fallback. *)
Theorem option_state_moves_forward_once
    (environ : gmap string string) (cmd : Cmd) (fs : list Reflect.StructField)
    (args : list string) (w w' : World) (out : outcome (option error)) :
  Cmd.Opts cmd = Some fs ->
  Cmd.ParsedOpts cmd = [] ->
  Init environ cmd args w = (out, w') ->
  Forall (inRange (length (heap w)) (length (reflectStruct fs)))
         (eventsSince w w')
  /\ (forall p,
        (valuesAt ByFlag p (eventsSince w w') = []
         \/ valuesAt ByEnv p (eventsSince w w') = [])
        /\ length (valuesAt ByEnv p (eventsSince w w')) <= 1)
  /\ (forall i j ref ref',
        reflectStruct fs !! i = Some ref ->
        reflectStruct fs !! j = Some ref' ->
        valuesAt ByFlag (length (heap w) + i) (eventsSince w w') <> [] ->
        valuesAt ByEnv (length (heap w) + j) (eventsSince w w') <> [] ->
        pathOf ref <> pathOf ref')
  /\ (out = Return None ->
      forall i ref, reflectStruct fs !! i = Some ref ->
        exists o,
          heap w' !! (length (heap w) + i) = Some o
          /\ Opt.SetFunc o = Reflect.SetString (Value ref)
          /\ match Opt.State o with
             | OptStateUntouched =>
                 valuesAt ByFlag (length (heap w) + i) (eventsSince w w') = []
                 /\ valuesAt ByEnv (length (heap w) + i) (eventsSince w w') = []
             | OptStateFlagPassed =>
                 last (valuesAt ByFlag (length (heap w) + i) (eventsSince w w'))
                   = Some (Opt.Value o)
                 /\ valuesAt ByEnv (length (heap w) + i) (eventsSince w w') = []
             | OptStateEnvPassed =>
                 valuesAt ByFlag (length (heap w) + i) (eventsSince w w') = []
                 /\ valuesAt ByEnv (length (heap w) + i) (eventsSince w w')
                    = [Opt.Value o]
             end).
Proof.
  intros Ho Hp Hrun.
  destruct (Init_run _ _ _ _ _ _ _ Ho Hp Hrun) as (evs & Ht & [Hin Hex] & Hpost).
  rewrite (eventsSince_app _ _ _ Ht).
  split; [exact Hin|]. split; [exact Hex|]. split.
  - intros i j ref ref' Hi Hj Hf He E.
    assert (i = j).
    { eapply (NoDup_lookup (pathOf <$> reflectStruct fs));
        [apply reflectStruct_NoDup | |].
      - rewrite list_lookup_fmap, Hi. reflexivity.
      - rewrite list_lookup_fmap, Hj. cbn. f_equal. symmetry. exact E. }
    subst j. destruct (Hex (length (heap w) + i)) as [[H | H] _]; contradiction.
  - intros -> i ref Hi. destruct Hpost as [HI _].
    destruct (inv_opts _ _ _ _ _ HI i ref Hi) as (o & Hlook & (_ & Hset & _) & Hagr).
    exists o. split; [exact Hlook|]. split; [exact Hset|].
    unfold agrees in Hagr. destruct (Opt.State o); tauto.
Qed.

(** With [--port 8080] and [PORT=1]: one call from the flag, none from the
    fallback. *)
Lemma option_state_moves_forward_once_witness :
  Forall (inRange 0 1)
         (eventsSince fresh_world
            (snd (Init {["PORT" := "1"]} portCmd ["--port"; "8080"] fresh_world)))
  /\ valuesAt ByFlag 0
       (eventsSince fresh_world
          (snd (Init {["PORT" := "1"]} portCmd ["--port"; "8080"] fresh_world)))
     = ["8080"]
  /\ valuesAt ByEnv 0
       (eventsSince fresh_world
          (snd (Init {["PORT" := "1"]} portCmd ["--port"; "8080"] fresh_world)))
     = [].
Proof.
  destruct (option_state_moves_forward_once {["PORT" := "1"]} portCmd
              [field "Port" [("desc", "port to listen on")]]
              ["--port"; "8080"] fresh_world
              (snd (Init {["PORT" := "1"]} portCmd ["--port"; "8080"] fresh_world))
              (Return None))
    as (Hin & Hex & _).
  - reflexivity.
  - reflexivity.
  - vm_compute. reflexivity.
  - split; [exact Hin|]. split; [vm_compute; reflexivity|].
    destruct (Hex 0) as [[H | H] _]; [vm_compute in H; discriminate H | exact H].
Defined.

(** C9 as the specification states it does not hold: with the fields
    [HTTPServer] and [HttpServer], both of the derived name [http-server],
    [Init] panics at the second registration. *)
Lemma duplicate_names_counterexample :
  fst (Init ∅ shadowCmd [] fresh_world)
    = Panic "app flag redefined: http-server"
  /\ ~ silentShadowing.
Proof.
  split; [vm_compute; reflexivity|]. intros H.
  destruct (H ∅ shadowCmd [field "HTTPServer" []; field "HttpServer" []]
              [] fresh_world) as (r & w' & Hrun).
  - reflexivity.
  - repeat constructor.
  - intros Hnd. vm_compute in Hnd. inversion Hnd as [|? ? Hnin _]; subst.
    apply Hnin. left.
  - vm_compute in Hrun. discriminate Hrun.
Qed.

(** C9 (amended).  When two leaf fields of the options record have one
    derived name, every [required] tag is a boolean and every derived name
    is one [flag.Var] accepts, [Init] panics while it registers the
    options: at the first field whose name an earlier field has, the flag
    set refuses the second definition with its message [flag redefined]
    for that name.  The options up to that field have been allocated; no
    setter has been called and nothing has been parsed. *)
Theorem duplicate_names_panic
    (environ : gmap string string) (cmd : Cmd) (fs : list Reflect.StructField)
    (args : list string) (w : World) :
  Cmd.Opts cmd = Some fs ->
  Forall tagOk (reflectStruct fs) ->
  Forall (fun r => validName (optionName r)) (reflectStruct fs) ->
  ~ NoDup (optionName <$> reflectStruct fs) ->
  exists pre ref post w',
    reflectStruct fs = pre ++ ref :: post
    /\ NoDup (optionName <$> pre)
    /\ optionName ref ∈ (optionName <$> pre)
    /\ Init environ cmd args w
       = (Panic (redefined (Cmd.Name cmd) (optionName ref)), w')
    /\ record w' = record w /\ trace w' = trace w
    /\ length (heap w') = length (heap w) + length pre + 1.
Proof.
  intros Ho Hok Hval Hdup. rewrite (Init_eq _ _ fs) by exact Ho.
  destruct (first_duplicate optionName (reflectStruct fs) Hdup)
    as (pre & ref & post & Hsplit & Hnd & Hin).
  rewrite Hsplit in Hok, Hval |- *.
  apply Forall_app in Hok as [Hok Hokr]. apply Forall_cons in Hokr as [Hokr _].
  apply Forall_app in Hval as [Hval Hvalr].
  apply Forall_cons in Hvalr as [Hvalr _].
  destruct (registerAll_taken pre ref post
              (Flag.NewFlagSet (Cmd.Name cmd) Flag.ExitOnError)
              (Cmd.ParsedOpts cmd) w Hok Hokr Hval Hvalr Hnd)
    as (w' & Hreg & Hr & Ht & Hlen).
  - intros nm _. apply lookup_empty.
  - left. exact Hin.
  - exists pre, ref, post, w'. rewrite Hreg.
    split; [reflexivity|]. split; [exact Hnd|]. split; [exact Hin|].
    split; [reflexivity|]. auto.
Qed.

(** With the fields [HTTPServer] and [HttpServer]. *)
Lemma duplicate_names_panic_witness :
  exists pre ref post w',
    reflectStruct [field "HTTPServer" []; field "HttpServer" []]
    = pre ++ ref :: post
    /\ NoDup (optionName <$> pre)
    /\ optionName ref ∈ (optionName <$> pre)
    /\ Init ∅ shadowCmd [] fresh_world
       = (Panic (redefined (Cmd.Name shadowCmd) (optionName ref)), w')
    /\ record w' = record fresh_world /\ trace w' = trace fresh_world
    /\ length (heap w') = length (heap fresh_world) + length pre + 1.
Proof.
  apply (duplicate_names_panic ∅ shadowCmd
           [field "HTTPServer" []; field "HttpServer" []] [] fresh_world).
  - reflexivity.
  - repeat constructor.
  - repeat constructor.
  - intros Hnd. vm_compute in Hnd. inversion Hnd as [|? ? Hnin _]; subst.
    apply Hnin. left.
Defined.

Section Append.

Context {A : Type} (zero : A) (grow : nat -> nat).

Lemma elems_length (mem : gmap nat (list A)) s :
  Slice.wf mem s -> length (Slice.elems mem s) = Slice.len s.
Proof.
  intros [Hle [Hc | (a & Ha & Hb)]]; unfold Slice.elems.
  - replace (Slice.len s) with 0 by lia. reflexivity.
  - rewrite Ha. cbn [from_option id]. rewrite length_take, length_drop. lia.
Qed.

(** The caller's header sees what it saw before the call. *)
Lemma append_elems_caller (mem : gmap nat (list A)) s x :
  Slice.wf mem s ->
  Slice.elems (fst (Slice.append zero grow mem s x)) s = Slice.elems mem s.
Proof.
  intros [Hle Hwf]. unfold Slice.append.
  destruct (Slice.len s <? Slice.cap s) eqn:Hlt; cbn [fst]; unfold Slice.elems.
  - rewrite lookup_alter_eq. destruct (mem !! Slice.array s) as [a|]; [|reflexivity].
    cbn [fmap option_fmap option_map from_option id].
    rewrite drop_insert_ge by lia. rewrite take_insert_ge by lia. reflexivity.
  - apply Nat.ltb_ge in Hlt. destruct Hwf as [Hc | (a & Ha & Hb)].
    + replace (Slice.len s) with 0 by lia. reflexivity.
    + rewrite lookup_insert_ne; [reflexivity|].
      intros E. apply (is_fresh (dom mem)). rewrite E.
      apply elem_of_dom. eauto.
Qed.

(** The callee's header sees the appended element. *)
Lemma append_elems_callee (mem : gmap nat (list A)) s x :
  Slice.wf mem s ->
  Slice.elems (fst (Slice.append zero grow mem s x))
              (snd (Slice.append zero grow mem s x))
  = Slice.elems mem s ++ [x].
Proof.
  intros Hwf. pose proof (elems_length mem s Hwf) as Hlen.
  destruct Hwf as [Hle Hwf]. unfold Slice.append.
  destruct (Slice.len s <? Slice.cap s) eqn:Hlt; cbn [fst snd].
  - apply Nat.ltb_lt in Hlt. destruct Hwf as [Hc | (a & Ha & Hb)]; [lia|].
    unfold Slice.elems. cbn [Slice.array Slice.off Slice.len].
    rewrite lookup_alter_eq, Ha. cbn [fmap option_fmap option_map from_option id].
    rewrite drop_insert_ge by lia.
    replace (Slice.off s + Slice.len s - Slice.off s) with (Slice.len s) by lia.
    erewrite take_S_r.
    2:{ apply list_lookup_insert_eq. rewrite length_drop. lia. }
    rewrite take_insert_ge by lia. reflexivity.
  - unfold Slice.elems at 1. cbn [Slice.array Slice.off Slice.len].
    rewrite lookup_insert_eq. cbn [from_option id]. rewrite drop_0.
    rewrite <- Hlen at 1.
    change (Slice.elems mem s ++ x :: ?r) with (Slice.elems mem s ++ [x] ++ r).
    rewrite app_assoc.
    replace (S (length (Slice.elems mem s)))
      with (length (Slice.elems mem s ++ [x]))
      by (rewrite length_app; simpl; lia).
    apply take_app_length.
Qed.

(** [append] keeps every backed header backed. *)
Lemma append_wf (mem : gmap nat (list A)) s x other :
  Slice.wf mem other -> Slice.wf (fst (Slice.append zero grow mem s x)) other.
Proof.
  intros [Hle Hwf]. split; [exact Hle|].
  destruct Hwf as [Hc | (a & Ha & Hb)]; [left; exact Hc | right].
  unfold Slice.append. destruct (Slice.len s <? Slice.cap s); cbn [fst].
  - destruct (decide (Slice.array other = Slice.array s)) as [E | E].
    + exists (<[Slice.off s + Slice.len s := x]> a).
      rewrite E, lookup_alter_eq, <- E, Ha. split; [reflexivity|].
      rewrite length_insert. exact Hb.
    + exists a. rewrite lookup_alter_ne by congruence. split; assumption.
  - exists a. split; [|exact Hb].
    rewrite lookup_insert_ne; [exact Ha|].
    intros E. apply (is_fresh (dom mem)). rewrite E.
    apply elem_of_dom. eauto.
Qed.

(** [append] writes at most the slot behind the length of its slice: a
    backed header whose window leaves that slot out reads as before. *)
Lemma append_elems_other (mem : gmap nat (list A)) s x other :
  Slice.wf mem other ->
  leavesOut s other ->
  Slice.elems (fst (Slice.append zero grow mem s x)) other
  = Slice.elems mem other.
Proof.
  intros [Hle Hwf] Hout. unfold Slice.append.
  destruct (Slice.len s <? Slice.cap s); cbn [fst]; unfold Slice.elems.
  - destruct (decide (Slice.array other = Slice.array s)) as [E | E].
    + rewrite E, lookup_alter_eq.
      destruct (mem !! Slice.array s) as [a|]; [|reflexivity].
      cbn [fmap option_fmap option_map from_option id].
      destruct Hout as [Hout | Hout]; [contradiction|].
      destruct (decide (Slice.off s + Slice.len s < Slice.off other)) as [Hlt | Hge].
      * rewrite drop_insert_lt by lia. reflexivity.
      * rewrite drop_insert_ge by lia. rewrite take_insert_ge by lia. reflexivity.
    + rewrite lookup_alter_ne by congruence. reflexivity.
  - destruct Hwf as [Hc | (a & Ha & Hb)].
    + replace (Slice.len other) with 0 by lia. reflexivity.
    + rewrite lookup_insert_ne; [reflexivity|].
      intros E. apply (is_fresh (dom mem)). rewrite E.
      apply elem_of_dom. eauto.
Qed.

End Append.

(** *** [Execute] on commands in memory *)

(** The loop of [Execute] ends at a command whose header is empty. *)
Lemma routeIn_childless mem : forall args c t rest,
  routeIn mem c args = inr (t, rest) -> Slice.len (CmdMem.SubCmds t) = 0.
Proof.
  induction args as [|a args IH]; intros c t rest; cbn [routeIn].
  - destruct (Slice.len (CmdMem.SubCmds c)) eqn:E; [|discriminate].
    intros [= <- <-]. exact E.
  - destruct (Slice.len (CmdMem.SubCmds c)) eqn:E.
    + intros [= <- <-]. exact E.
    + destruct (SubCmdIn mem c a) as [sub|]; [|discriminate]. apply IH.
Qed.

(** A command whose header is empty reads the same in every memory. *)
Lemma read_childless depth mem mem' t :
  Slice.len (CmdMem.SubCmds t) = 0 ->
  CmdMem.read depth mem' t = CmdMem.read 0 mem t.
Proof.
  intros E. destruct depth as [|d]; [reflexivity|].
  cbn [CmdMem.read]. unfold Slice.elems. rewrite E. reflexivity.
Qed.

Section SameUnder.

(** Two memories in which every header below [s0] shows the same. *)
Context (mem mem' : gmap nat (list CmdMem.t)) (s0 : Slice.t).

Hypothesis same : forall d, under mem s0 d ->
  Slice.elems mem' (CmdMem.SubCmds d) = Slice.elems mem (CmdMem.SubCmds d).

Lemma inFrame_sub c e :
  inFrame mem mem' s0 c -> e ∈ Slice.elems mem (CmdMem.SubCmds c) ->
  inFrame mem mem' s0 e.
Proof.
  intros [_ Hb] He. split; [apply same, Hb, He|].
  intros e' He'. eapply under_sub; [apply Hb, He | exact He'].
Qed.

Lemma routeIn_frame : forall args c,
  inFrame mem mem' s0 c -> routeIn mem' c args = routeIn mem c args.
Proof.
  induction args as [|a args IH]; intros c Hc; cbn [routeIn]; [reflexivity|].
  destruct (Slice.len (CmdMem.SubCmds c)); [reflexivity|].
  unfold SubCmdIn. rewrite (proj1 Hc).
  destruct (List.find _ _) as [sub|] eqn:Hf; [|reflexivity].
  apply IH. apply (inFrame_sub c); [exact Hc|].
  apply list_elem_of_In. apply List.find_some in Hf. apply Hf.
Qed.

Lemma read_frame : forall depth c,
  inFrame mem mem' s0 c -> CmdMem.read depth mem' c = CmdMem.read depth mem c.
Proof.
  induction depth as [|depth IH]; intros c Hc; [reflexivity|].
  cbn [CmdMem.read]. rewrite (proj1 Hc). f_equal.
  apply map_ext_in. intros e He. apply IH.
  apply (inFrame_sub c); [exact Hc | apply list_elem_of_In, He].
Qed.

Lemma ExecuteIn_frame osArgs environ c w :
  inFrame mem mem' s0 c ->
  ExecuteIn osArgs environ mem' c w = ExecuteIn osArgs environ mem c w.
Proof.
  intros Hc. unfold ExecuteIn. destruct osArgs as [|arg0 args]; [reflexivity|].
  rewrite routeIn_frame by exact Hc.
  destruct (routeIn mem (CmdMem.setExecutedAs c arg0) args)
    as [e|[t rest]] eqn:Hr; [reflexivity|].
  apply routeIn_childless in Hr.
  rewrite (read_childless 1 mem mem' t Hr), (read_childless 1 mem mem t Hr).
  reflexivity.
Qed.

End SameUnder.

(** *** [ExecuteIn] is [Execute] on the command read from memory *)

Lemma under_trans mem c e d :
  e ∈ Slice.elems mem (CmdMem.SubCmds c) ->
  under mem (CmdMem.SubCmds e) d -> under mem (CmdMem.SubCmds c) d.
Proof.
  intros He. induction 1 as [x Hx | y x _ IH Hx].
  - eapply under_sub; [apply under_here, He | exact Hx].
  - eapply under_sub; [exact IH | exact Hx].
Qed.

Lemma find_map_name (name : string) (f : CmdMem.t -> Cmd) (l : list CmdMem.t) :
  (forall x, Cmd.Name (f x) = CmdMem.Name x) ->
  List.find (fun sub => String.eqb (Cmd.Name sub) name) (map f l)
  = f <$> List.find (fun sub => String.eqb (CmdMem.Name sub) name) l.
Proof.
  intros Hn. induction l as [|x l IH]; [reflexivity|].
  cbn [map List.find]. rewrite Hn.
  destruct (String.eqb (CmdMem.Name x) name); [reflexivity | exact IH].
Qed.

Lemma read_Name depth mem c : Cmd.Name (CmdMem.read depth mem c) = CmdMem.Name c.
Proof. destruct depth; reflexivity. Qed.

Lemma route_by_length cmd args :
  route cmd args
  = match length (Cmd.SubCmds cmd) with
    | 0 => inr (cmd, args)
    | S _ =>
        match args with
        | [] => inl (Errorf (Cmd.Name cmd ++ ": not engough arguments"))
        | subCmdName :: args' =>
            match SubCmd cmd subCmdName with
            | None =>
                inl (Errorf ("'" ++ subCmdName ++ "' is not a "
                             ++ Cmd.Name cmd ++ " command"))
            | Some subCmd => route subCmd args'
            end
        end
    end.
Proof. destruct args; cbn [route]; destruct (Cmd.SubCmds cmd); reflexivity. Qed.

(** The loop of [Execute] meets one level of subcommands for each argument
    it consumes, and one more at its end. *)
Lemma route_read mem : forall args n c,
  length args <= n ->
  Slice.wf mem (CmdMem.SubCmds c) ->
  backedUnder mem c ->
  route (CmdMem.read (S n) mem c) args
  = match routeIn mem c args with
    | inl e => inl e
    | inr (t, rest) => inr (CmdMem.read 1 mem t, rest)
    end.
Proof.
  induction args as [|a args IH]; intros n c Hn Hwf Hb;
    pose proof (elems_length mem (CmdMem.SubCmds c) Hwf) as Hlen;
    rewrite route_by_length, read_Name;
    change (Cmd.SubCmds (CmdMem.read (S n) mem c))
      with (map (CmdMem.read n mem) (Slice.elems mem (CmdMem.SubCmds c)));
    rewrite length_map, Hlen; cbn [routeIn];
    destruct (Slice.len (CmdMem.SubCmds c)) as [|k] eqn:E;
    try reflexivity;
    try (rewrite (read_childless (S n) mem mem c E),
                 (read_childless 1 mem mem c E); reflexivity).
  unfold SubCmd, SubCmdIn.
  change (Cmd.SubCmds (CmdMem.read (S n) mem c))
    with (map (CmdMem.read n mem) (Slice.elems mem (CmdMem.SubCmds c))).
  rewrite (find_map_name a (CmdMem.read n mem)) by (intros; apply read_Name).
  destruct (List.find _ (Slice.elems mem (CmdMem.SubCmds c))) as [sub|] eqn:Hf;
    [|reflexivity].
  cbn [fmap option_fmap option_map].
  assert (Hin : sub ∈ Slice.elems mem (CmdMem.SubCmds c)).
  { apply list_elem_of_In. apply List.find_some in Hf. apply Hf. }
  cbn [length] in Hn. destruct n as [|n']; [lia|].
  apply IH; [lia | apply Hb, under_here, Hin |].
  intros d Hd. apply Hb. eapply under_trans; eassumption.
Qed.

(** On a memory whose headers are backed, [ExecuteIn] is [Execute] on the
    command read as deep as there are arguments. *)
Lemma ExecuteIn_read osArgs environ mem c w :
  Slice.wf mem (CmdMem.SubCmds c) ->
  backedUnder mem c ->
  ExecuteIn osArgs environ mem c w
  = Execute osArgs environ (CmdMem.read (length osArgs) mem c) w.
Proof.
  intros Hwf Hb. unfold ExecuteIn, Execute.
  destruct osArgs as [|arg0 args]; [reflexivity|]. cbn [length].
  change (Cmd.setExecutedAs (CmdMem.read (S (length args)) mem c) arg0)
    with (CmdMem.read (S (length args)) mem (CmdMem.setExecutedAs c arg0)).
  rewrite (route_read mem args (length args)); [|lia|exact Hwf|exact Hb].
  destruct (routeIn mem (CmdMem.setExecutedAs c arg0) args) as [e|[t rest]];
    reflexivity.
Qed.

Lemma under_shared d :
  under sharedArrays (CmdMem.SubCmds sharedRoot) d ->
  d = sharedServe \/ d = CmdMem.zero.
Proof.
  induction 1 as [e He | d e _ IH He].
  - change (e ∈ [sharedServe]) in He.
    apply list_elem_of_singleton in He. left. exact He.
  - destruct IH as [-> | ->].
    + change (e ∈ [CmdMem.zero]) in He.
      apply list_elem_of_singleton in He. right. exact He.
    + change (e ∈ @nil CmdMem.t) in He. inversion He.
Qed.

(** C10 as the specification states it does not hold: [root.AddSubCmd]
    writes the second slot of the array, which [serve] shows; [Execute] on
    the root with [serve extra] failed before the call and runs [extra]
    after it. *)
Lemma AddSubCmd_shared_array_counterexample :
  ExecuteIn ["prog"; "serve"; "extra"] ∅ sharedArrays sharedRoot fresh_world
  = (Return (Some (Errorf "'extra' is not a serve command")), fresh_world)
  /\ ExecuteIn ["prog"; "serve"; "extra"] ∅
       (fst (AddSubCmd (fun n => 2 * n) sharedArrays sharedRoot extraCmd))
       sharedRoot fresh_world
     = (Return None, addEvent fresh_world (EvRun "extra"))
  /\ ~ receiverUnobserved.
Proof.
  assert (H1 : ExecuteIn ["prog"; "serve"; "extra"] ∅ sharedArrays sharedRoot
                 fresh_world
               = (Return (Some (Errorf "'extra' is not a serve command")),
                  fresh_world)) by (vm_compute; reflexivity).
  assert (H2 : ExecuteIn ["prog"; "serve"; "extra"] ∅
                 (fst (AddSubCmd (fun n => 2 * n) sharedArrays sharedRoot
                         extraCmd))
                 sharedRoot fresh_world
               = (Return None, addEvent fresh_world (EvRun "extra")))
    by (vm_compute; reflexivity).
  split; [exact H1|]. split; [exact H2|]. intros H.
  specialize (H (fun n => 2 * n) sharedArrays sharedRoot extraCmd).
  rewrite H in H2.
  - rewrite H1 in H2. discriminate H2.
  - split; [cbn; lia|]. right. exists [sharedServe; CmdMem.zero].
    split; [reflexivity | cbn; lia].
  - intros d Hd. destruct (under_shared d Hd) as [-> | ->].
    + split; [cbn; lia|]. right. exists [sharedServe; CmdMem.zero].
      split; [reflexivity | cbn; lia].
    + split; [cbn; lia|]. left. reflexivity.
Qed.

(** C10 (amended).  [AddSubCmd] appends to the [SubCmds] of its own copy of
    the receiver: the caller's command shows the same subcommands after
    the call as before, and the callee's copy ends with the new one.  When
    the headers below the receiver are backed and none of them shows the
    slot behind the receiver's subcommands, which the call writes if there
    is room, the receiver reads the same to every depth and [Execute] on
    it does what it did before. *)
Theorem AddSubCmd_leaves_receiver
    (grow : nat -> nat) (mem : gmap nat (list CmdMem.t)) (c s : CmdMem.t) :
  Slice.wf mem (CmdMem.SubCmds c) ->
  Slice.elems (fst (AddSubCmd grow mem c s)) (CmdMem.SubCmds c)
  = Slice.elems mem (CmdMem.SubCmds c)
  /\ Slice.elems (fst (AddSubCmd grow mem c s))
                 (CmdMem.SubCmds (snd (AddSubCmd grow mem c s)))
     = Slice.elems mem (CmdMem.SubCmds c) ++ [s]
  /\ (backedUnder mem c -> apart mem c ->
      (forall depth,
         CmdMem.read depth (fst (AddSubCmd grow mem c s)) c
         = CmdMem.read depth mem c)
      /\ forall osArgs environ w,
           ExecuteIn osArgs environ (fst (AddSubCmd grow mem c s)) c w
           = ExecuteIn osArgs environ mem c w).
Proof.
  intros Hwf.
  pose proof (append_elems_caller CmdMem.zero grow mem (CmdMem.SubCmds c) s Hwf)
    as Hcaller.
  pose proof (append_elems_callee CmdMem.zero grow mem (CmdMem.SubCmds c) s Hwf)
    as Hcallee.
  assert (Hother : backedUnder mem c -> apart mem c ->
            forall d, under mem (CmdMem.SubCmds c) d ->
              Slice.elems
                (fst (Slice.append CmdMem.zero grow mem (CmdMem.SubCmds c) s))
                (CmdMem.SubCmds d)
              = Slice.elems mem (CmdMem.SubCmds d)).
  { intros Hb Ha d Hd. apply append_elems_other; [apply Hb, Hd | apply Ha, Hd]. }
  unfold AddSubCmd.
  destruct (Slice.append CmdMem.zero grow mem (CmdMem.SubCmds c) s) as [mem' s'].
  cbn [fst snd CmdMem.setSubCmds CmdMem.SubCmds] in *.
  split; [exact Hcaller|]. split; [exact Hcallee|].
  intros Hb Ha.
  assert (Hc : inFrame mem mem' (CmdMem.SubCmds c) c).
  { split; [exact Hcaller | intros e He; apply under_here, He]. }
  split.
  - intros depth. apply (read_frame mem mem' (CmdMem.SubCmds c));
      [apply Hother; assumption | exact Hc].
  - intros osArgs environ w.
    apply (ExecuteIn_frame mem mem' (CmdMem.SubCmds c));
      [apply Hother; assumption | exact Hc].
Qed.

Lemma under_rootVar d :
  under rootArrays (CmdMem.SubCmds rootVar) d -> d = serveOnly.
Proof.
  induction 1 as [e He | d e _ IH He].
  - change (e ∈ [serveOnly]) in He.
    apply list_elem_of_singleton in He. exact He.
  - subst d. change (e ∈ @nil CmdMem.t) in He. inversion He.
Qed.

(** A root with one subcommand and room for a second: the caller still
    reads one, the callee's copy two, and [Execute] with [extra] fails as
    before. *)
Lemma AddSubCmd_leaves_receiver_witness :
  Slice.elems (fst (AddSubCmd (fun n => 2 * n) rootArrays rootVar extraCmd))
              (CmdMem.SubCmds rootVar) = [serveOnly]
  /\ Slice.elems (fst (AddSubCmd (fun n => 2 * n) rootArrays rootVar extraCmd))
       (CmdMem.SubCmds (snd (AddSubCmd (fun n => 2 * n) rootArrays rootVar
                               extraCmd)))
     = [serveOnly; extraCmd]
  /\ ExecuteIn ["prog"; "extra"] ∅
       (fst (AddSubCmd (fun n => 2 * n) rootArrays rootVar extraCmd))
       rootVar fresh_world
     = (Return (Some (Errorf "'extra' is not a root command")), fresh_world).
Proof.
  destruct (AddSubCmd_leaves_receiver (fun n => 2 * n) rootArrays rootVar extraCmd)
    as (E & L & F).
  - split; [cbn; lia|]. right. exists [serveOnly; CmdMem.zero].
    split; [reflexivity | cbn; lia].
  - rewrite E, L. split; [reflexivity|]. split; [reflexivity|].
    destruct F as [_ F].
    + intros d Hd. rewrite (under_rootVar d Hd). split; [cbn; lia|].
      left. reflexivity.
    + intros d Hd. rewrite (under_rootVar d Hd). right. right. cbn. lia.
    + rewrite F. vm_compute. reflexivity.
Defined.

(** ** Further properties of the code *)

Lemma toLower_not_upper c : isUpper (toLower c) = false.
Proof.
  unfold toLower. destruct (isUpper c) eqn:U; [|exact U].
  assert (Hc : code (ascii_of_nat (code c + 32)) = code c + 32).
  { unfold code. apply nat_ascii_embedding. fold (code c). char_cases. }
  unfold isUpper. rewrite Hc. char_cases.
Qed.

Lemma toLower_fixes c : isUpper c = false -> toLower c = c.
Proof. intros H. unfold toLower. rewrite H. reflexivity. Qed.

Lemma toLower_dash c : toLower c = dash -> c = dash.
Proof.
  unfold toLower. destruct (isUpper c) eqn:U; [|auto].
  intros E. exfalso.
  assert (Hc : code (ascii_of_nat (code c + 32)) = code c + 32).
  { unfold code. apply nat_ascii_embedding. fold (code c). char_cases. }
  rewrite E in Hc. change (code dash) with 45 in Hc.
  unfold isUpper in U. apply andb_prop in U as [U _].
  apply Nat.leb_le in U. lia.
Qed.

Lemma map_toLower_noUpper s : noUpper s -> map toLower s = s.
Proof.
  induction 1 as [|c s Hc _ IH]; [reflexivity|].
  cbn [map]. rewrite IH, (toLower_fixes c Hc). reflexivity.
Qed.

Lemma hyphenateBy_noUpper s : forall prev,
  noUpper s -> hyphenateBy codeRule prev s = s.
Proof.
  induction s as [|c tl IH]; intros prev Hs; [reflexivity|].
  inversion Hs as [|? ? Hc Htl]; subst. cbn [hyphenateBy].
  rewrite (IH (Some c) Htl). unfold codeRule. rewrite Hc.
  destruct prev; reflexivity.
Qed.

Lemma snakeChars_noUpper s : noUpper (snakeChars s).
Proof.
  rewrite snakeChars_codeRule. apply Forall_forall. intros c Hc.
  apply list_elem_of_In, in_map_iff in Hc as (c' & <- & _).
  apply toLower_not_upper.
Qed.

Lemma snakeChars_fixes s : noUpper s -> snakeChars s = s.
Proof.
  intros H. rewrite snakeChars_codeRule, hyphenateBy_noUpper by exact H.
  apply map_toLower_noUpper, H.
Qed.

Lemma list_ascii_roundtrip' s :
  list_ascii_of_string (string_of_list_ascii s) = s.
Proof. apply list_ascii_of_string_of_list_ascii. Qed.

Lemma toLower_ascii c : code c < 128 -> code (toLower c) < 128.
Proof.
  intros Hc. unfold toLower. destruct (isUpper c) eqn:U; [|exact Hc].
  assert (E : code (ascii_of_nat (code c + 32)) = code c + 32).
  { unfold code. apply nat_ascii_embedding. fold (code c). lia. }
  rewrite E. unfold isUpper in U. apply andb_prop in U as [_ U].
  apply Nat.leb_le in U. lia.
Qed.

Lemma hyphenateBy_Forall (P : ascii -> Prop) rule s : forall prev,
  P dash -> Forall P s -> Forall P (hyphenateBy rule prev s).
Proof.
  induction s as [|c tl IH]; intros prev Hd Hs; [constructor|].
  inversion Hs as [|? ? Hc Htl]; subst. cbn [hyphenateBy].
  assert (H : Forall P (c :: hyphenateBy rule (Some c) tl))
    by (constructor; [exact Hc | apply IH; assumption]).
  destruct prev as [p|]; [destruct (rule p c tl)|]; try exact H.
  constructor; assumption.
Qed.

Lemma isASCII_Forall str :
  isASCII str <-> Forall (fun c => code c < 128) (list_ascii_of_string str).
Proof.
  unfold isASCII. rewrite forallb_forall, Forall_forall.
  split; intros H c Hc.
  - apply Nat.ltb_lt, H, list_elem_of_In, Hc.
  - apply Nat.ltb_lt, H, list_elem_of_In, Hc.
Qed.

(** The result of [ToSnakeCase] on ASCII text is ASCII text. *)
Lemma ToSnakeCase_ascii str : isASCII str -> isASCII (ToSnakeCase str).
Proof.
  rewrite !isASCII_Forall. intros H. unfold ToSnakeCase.
  rewrite list_ascii_roundtrip', snakeChars_codeRule.
  apply Forall_forall. intros c Hc.
  apply list_elem_of_In, in_map_iff in Hc as (c' & <- & Hc').
  apply toLower_ascii.
  assert (Hall : Forall (fun c => code c < 128)
                   (hyphenateBy codeRule None (list_ascii_of_string str))).
  { apply hyphenateBy_Forall; [change (45 < 128); lia | exact H]. }
  rewrite Forall_forall in Hall. apply Hall, list_elem_of_In, Hc'.
Qed.

(** X1.  [ToSnakeCase] leaves an ASCII string without upper-case letters
    as it is: both patterns need an upper-case letter to match, and
    lower-casing changes nothing. *)
Theorem ToSnakeCase_without_capitals (str : string) :
  isASCII str ->
  noUpper (list_ascii_of_string str) -> ToSnakeCase str = str.
Proof.
  intros _ H. unfold ToSnakeCase. rewrite snakeChars_fixes by exact H.
  apply string_of_list_ascii_of_string.
Qed.

Lemma ToSnakeCase_without_capitals_witness :
  ToSnakeCase "max-retry_count2" = "max-retry_count2".
Proof.
  apply ToSnakeCase_without_capitals; [reflexivity|]. unfold noUpper. cbn.
  repeat constructor.
Defined.

(** X2.  On ASCII text [ToSnakeCase] is idempotent: its result is ASCII
    text without upper-case letters, which a second call leaves as it
    is. *)
Theorem ToSnakeCase_idempotent (str : string) :
  isASCII str ->
  ToSnakeCase (ToSnakeCase str) = ToSnakeCase str
  /\ noUpper (list_ascii_of_string (ToSnakeCase str))
  /\ isASCII (ToSnakeCase str).
Proof.
  intros Ha.
  assert (H : noUpper (list_ascii_of_string (ToSnakeCase str))).
  { unfold ToSnakeCase. rewrite list_ascii_roundtrip'. apply snakeChars_noUpper. }
  split; [|split; [exact H | apply ToSnakeCase_ascii, Ha]].
  unfold ToSnakeCase at 1. rewrite snakeChars_fixes by exact H.
  apply string_of_list_ascii_of_string.
Qed.

Lemma ToSnakeCase_idempotent_witness :
  ToSnakeCase (ToSnakeCase "HTTPServer2Go") = ToSnakeCase "HTTPServer2Go"
  /\ ToSnakeCase "HTTPServer2Go" = "http-server2-go".
Proof.
  split; [|reflexivity].
  apply (ToSnakeCase_idempotent "HTTPServer2Go"). reflexivity.
Defined.

Lemma hyphenateBy_length rule s : forall prev,
  length s <= length (hyphenateBy rule prev s) <= 2 * length s
  /\ length (hyphenateBy rule None s) <= 2 * length s - 1.
Proof.
  induction s as [|c tl IH]; intros prev; [cbn; lia|].
  cbn [hyphenateBy length]. destruct (IH (Some c)) as [[H1 H2] _].
  split.
  - destruct prev as [p|]; [destruct (rule p c tl)|]; cbn [length]; lia.
  - lia.
Qed.

Lemma hyphenateBy_sublist rule s : forall prev,
  sublist s (hyphenateBy rule prev s).
Proof.
  induction s as [|c tl IH]; intros prev; [constructor|].
  cbn [hyphenateBy].
  assert (H : sublist (c :: tl) (c :: hyphenateBy rule (Some c) tl))
    by (apply sublist_skip, IH).
  destruct prev as [p|]; [destruct (rule p c tl)|]; try exact H.
  apply sublist_cons, H.
Qed.

Lemma hyphenateBy_erase rule s : forall prev,
  Forall (fun c => c <> dash) s ->
  filter (fun c => c <> dash) (hyphenateBy rule prev s) = s.
Proof.
  induction s as [|c tl IH]; intros prev Hs; [reflexivity|].
  inversion Hs as [|? ? Hc Htl]; subst. cbn [hyphenateBy].
  assert (H : filter (fun c => c <> dash) (c :: hyphenateBy rule (Some c) tl)
              = c :: tl).
  { rewrite filter_cons_True by exact Hc. rewrite (IH (Some c) Htl). reflexivity. }
  destruct prev as [p|]; [destruct (rule p c tl)|]; exact H.
Qed.

Lemma length_list_ascii s : length (list_ascii_of_string s) = String.length s.
Proof. induction s as [|c s IH]; [reflexivity|]. cbn. rewrite IH. reflexivity. Qed.

(** X3.  On ASCII text [ToSnakeCase] only inserts characters into the
    lower-cased input: the result has the lower-cased input as a
    subsequence, is at least as long as the input and at most twice as
    long less one. *)
Theorem ToSnakeCase_length (str : string) :
  isASCII str ->
  String.length str <= String.length (ToSnakeCase str)
  /\ String.length (ToSnakeCase str) <= 2 * String.length str - 1
  /\ sublist (list_ascii_of_string (ToLower str))
             (list_ascii_of_string (ToSnakeCase str)).
Proof.
  intros _.
  rewrite <- !length_list_ascii. unfold ToSnakeCase, ToLower.
  rewrite !list_ascii_roundtrip', snakeChars_codeRule, length_map.
  destruct (hyphenateBy_length codeRule (list_ascii_of_string str) None)
    as [[H1 _] H2].
  split; [exact H1|]. split; [exact H2|].
  change (map toLower ?l) with (toLower <$> l).
  apply (fmap_sublist toLower), hyphenateBy_sublist.
Qed.

Lemma ToSnakeCase_length_witness :
  String.length "HTTPServer2Go" <= String.length (ToSnakeCase "HTTPServer2Go")
  /\ String.length (ToSnakeCase "HTTPServer2Go")
     <= 2 * String.length "HTTPServer2Go" - 1
  /\ sublist (list_ascii_of_string (ToLower "HTTPServer2Go"))
             (list_ascii_of_string (ToSnakeCase "HTTPServer2Go")).
Proof.
  apply (ToSnakeCase_length "HTTPServer2Go"). reflexivity.
Defined.

(** X4.  On ASCII text [ToSnakeCase] inserts nothing at the ends: the
    result starts and ends with the lower-cased first and last character
    of the input, and it is empty exactly for the empty input. *)
Theorem ToSnakeCase_ends (str : string) :
  isASCII str ->
  head (list_ascii_of_string (ToSnakeCase str))
    = toLower <$> head (list_ascii_of_string str)
  /\ last (list_ascii_of_string (ToSnakeCase str))
     = toLower <$> last (list_ascii_of_string str)
  /\ (ToSnakeCase str = "" <-> str = "").
Proof.
  intros _.
  unfold ToSnakeCase. rewrite list_ascii_roundtrip'.
  split; [apply head_snakeChars|]. split; [apply last_snakeChars|].
  split.
  - intros E. apply (f_equal list_ascii_of_string) in E.
    rewrite list_ascii_roundtrip' in E. cbn in E.
    pose proof (head_snakeChars (list_ascii_of_string str)) as H.
    rewrite E in H. destruct str; [reflexivity | discriminate H].
  - intros ->. reflexivity.
Qed.

Lemma ToSnakeCase_ends_witness :
  head (list_ascii_of_string (ToSnakeCase "HTTPServer"))
    = toLower <$> head (list_ascii_of_string "HTTPServer")
  /\ last (list_ascii_of_string (ToSnakeCase "HTTPServer"))
     = toLower <$> last (list_ascii_of_string "HTTPServer")
  /\ (ToSnakeCase "HTTPServer" = "" <-> "HTTPServer" = "").
Proof.
  apply (ToSnakeCase_ends "HTTPServer"). reflexivity.
Defined.

(** X5.  On ASCII text without hyphens the only hyphens of the result
    of [ToSnakeCase] are the inserted ones: erasing them gives the
    lower-cased input. *)
Theorem ToSnakeCase_erase_separators (str : string) :
  isASCII str ->
  Forall (fun c => c <> dash) (list_ascii_of_string str) ->
  filter (fun c => c <> dash) (list_ascii_of_string (ToSnakeCase str))
  = list_ascii_of_string (ToLower str).
Proof.
  intros _ H. unfold ToSnakeCase, ToLower.
  rewrite !list_ascii_roundtrip', snakeChars_codeRule.
  change (map toLower ?l) with (toLower <$> l).
  rewrite <- (hyphenateBy_erase codeRule (list_ascii_of_string str) None H) at 2.
  generalize (hyphenateBy codeRule None (list_ascii_of_string str)).
  intros l. induction l as [|c l IH]; [reflexivity|].
  rewrite fmap_cons. destruct (decide (c = dash)) as [->|Hc].
  - rewrite (filter_cons_False _ dash) by (intros E; apply E; reflexivity).
    change (toLower dash) with dash.
    rewrite filter_cons_False by (intros E; apply E; reflexivity). exact IH.
  - rewrite (filter_cons_True _ c) by exact Hc. rewrite fmap_cons.
    rewrite filter_cons_True by (intros E; apply Hc, toLower_dash, E).
    rewrite IH. reflexivity.
Qed.

Lemma ToSnakeCase_erase_separators_witness :
  filter (fun c => c <> dash) (list_ascii_of_string (ToSnakeCase "HTTPServer2Go"))
  = list_ascii_of_string (ToLower "HTTPServer2Go").
Proof.
  apply ToSnakeCase_erase_separators; [reflexivity|]. cbn.
  repeat (constructor; [discriminate|]). constructor.
Defined.

Lemma find_first_match name (subs : list Cmd) :
  match List.find (fun sub => String.eqb (Cmd.Name sub) name) subs with
  | Some s =>
      exists before after,
        subs = before ++ s :: after
        /\ Cmd.Name s = name
        /\ Forall (fun b => Cmd.Name b <> name) before
  | None => Forall (fun b => Cmd.Name b <> name) subs
  end.
Proof.
  induction subs as [|c subs IH]; cbn [List.find]; [constructor|].
  destruct (String.eqb (Cmd.Name c) name) eqn:E.
  - apply String.eqb_eq in E. exists [], subs. repeat split; [exact E | constructor].
  - apply String.eqb_neq in E.
    destruct (List.find _ subs) as [s|].
    + destruct IH as (before & after & -> & Hn & Hb).
      exists (c :: before), after. repeat split; [exact Hn|].
      constructor; assumption.
    + constructor; assumption.
Qed.

(** X6.  [SubCmd] returns the first subcommand of the given name, in
    the order of [SubCmds], and finds none only if no subcommand has that
    name. *)
Theorem SubCmd_first_match (cmd : Cmd) (name : string) :
  match SubCmd cmd name with
  | Some s =>
      exists before after,
        Cmd.SubCmds cmd = before ++ s :: after
        /\ Cmd.Name s = name
        /\ Forall (fun b => Cmd.Name b <> name) before
  | None => Forall (fun b => Cmd.Name b <> name) (Cmd.SubCmds cmd)
  end.
Proof. apply find_first_match. Qed.

Lemma route_childless (args : list string) :
  forall (cmd target : Cmd) (rest : list string),
    route cmd args = inr (target, rest) -> Cmd.SubCmds target = [].
Proof.
  induction args as [|a args IH]; intros cmd target rest; cbn [route].
  - destruct (Cmd.SubCmds cmd) eqn:E; [|discriminate].
    intros [= <- <-]. exact E.
  - destruct (Cmd.SubCmds cmd) eqn:E.
    + intros [= <- <-]. exact E.
    + destruct (SubCmd cmd a) as [sub|]; [|discriminate]. apply IH.
Qed.

(** X7.  When the loop of [Execute] ends with a target, the target has
    no subcommands and is reached from the root by taking the subcommand
    named by each consumed argument in turn; the arguments not consumed are
    what is left for [Init]. *)
Theorem route_reaches_childless (args : list string) :
  forall (cmd target : Cmd) (rest : list string),
    route cmd args = inr (target, rest) ->
    Cmd.SubCmds target = []
    /\ exists names, args = names ++ rest /\ descend cmd names = Some target.
Proof.
  induction args as [|a args IH]; intros cmd target rest; cbn [route].
  - destruct (Cmd.SubCmds cmd) eqn:E; [|discriminate].
    intros [= <- <-]. split; [exact E|]. exists []. split; reflexivity.
  - destruct (Cmd.SubCmds cmd) eqn:E.
    + intros [= <- <-]. split; [exact E|]. exists []. split; reflexivity.
    + destruct (SubCmd cmd a) as [sub|] eqn:Hs; [|discriminate].
      intros H. apply IH in H as (Hc & names & -> & Hd).
      split; [exact Hc|]. exists (a :: names). split; [reflexivity|].
      cbn [descend]. rewrite Hs. exact Hd.
Qed.

Lemma route_reaches_childless_witness :
  Cmd.SubCmds (httpCmd (fun _ => None)) = []
  /\ exists names,
       ["serve"; "http"; "--port"; "8080"] = names ++ ["--port"; "8080"]
       /\ descend (rootCmd (fun _ => None)) names = Some (httpCmd (fun _ => None)).
Proof.
  apply (route_reaches_childless ["serve"; "http"; "--port"; "8080"]
           (rootCmd (fun _ => None))).
  reflexivity.
Defined.

(** X8.  When the loop of [Execute] ends with an error, it has reached,
    by the arguments consumed so far, a command that has subcommands, and
    either the arguments are used up (the error of too few arguments names
    that command) or the next argument is the name of none of its
    subcommands (the error names the argument and the command). *)
Theorem route_fails_at_router (args : list string) :
  forall (cmd : Cmd) (e : error),
    route cmd args = inl e ->
    exists names router,
      descend cmd names = Some router
      /\ Cmd.SubCmds router <> []
      /\ ((args = names
           /\ e = Errorf (Cmd.Name router ++ ": not engough arguments"))
          \/ exists bad rest,
               args = names ++ bad :: rest
               /\ Forall (fun b => Cmd.Name b <> bad) (Cmd.SubCmds router)
               /\ e = Errorf ("'" ++ bad ++ "' is not a "
                              ++ Cmd.Name router ++ " command")).
Proof.
  induction args as [|a args IH]; intros cmd e; cbn [route].
  - destruct (Cmd.SubCmds cmd) eqn:E; [discriminate|].
    intros [= <-]. exists [], cmd. split; [reflexivity|].
    split; [rewrite E; discriminate|]. left. split; reflexivity.
  - destruct (Cmd.SubCmds cmd) eqn:E; [discriminate|].
    pose proof (find_first_match a (Cmd.SubCmds cmd)) as Hf.
    change (List.find _ (Cmd.SubCmds cmd)) with (SubCmd cmd a) in Hf.
    destruct (SubCmd cmd a) as [sub|] eqn:Hs.
    + intros H. apply IH in H as (names & router & Hd & Hne & Hcase).
      exists (a :: names), router. split; [cbn [descend]; rewrite Hs; exact Hd|].
      split; [exact Hne|].
      destruct Hcase as [[-> ->] | (bad & rest & -> & Hbad & ->)].
      * left. split; reflexivity.
      * right. exists bad, rest. repeat split. exact Hbad.
    + intros [= <-]. exists [], cmd. split; [reflexivity|].
      split; [rewrite E; discriminate|]. right. exists a, args.
      repeat split. exact Hf.
Qed.

Lemma route_fails_at_router_witness :
  exists names router,
    descend (rootCmd (fun _ => None)) names = Some router
    /\ Cmd.SubCmds router <> []
    /\ ((["serve"; "bogus"] = names
         /\ Errorf "'bogus' is not a serve command"
            = Errorf (Cmd.Name router ++ ": not engough arguments"))
        \/ exists bad rest,
             ["serve"; "bogus"] = names ++ bad :: rest
             /\ Forall (fun b => Cmd.Name b <> bad) (Cmd.SubCmds router)
             /\ Errorf "'bogus' is not a serve command"
                = Errorf ("'" ++ bad ++ "' is not a "
                          ++ Cmd.Name router ++ " command")).
Proof.
  apply (route_fails_at_router ["serve"; "bogus"] (rootCmd (fun _ => None))).
  reflexivity.
Defined.

Lemma assign_notRun s st p v w out w' :
  assign s st p v w = (out, w') ->
  exists evs, trace w' = trace w ++ evs /\ Forall notRun evs.
Proof.
  rewrite assign_eq. destruct (heap w !! p) as [o|].
  - destruct (Opt.SetFunc o v (record w)); intros [= <- <-];
      exists [EvSetFunc s p v]; (split; [reflexivity | repeat constructor]).
  - intros [= <- <-]. exists []. rewrite app_nil_r. split; [reflexivity | constructor].
Qed.

Lemma parseLoop_notRun fuel : forall f w out w',
  Flag.parseLoop fuel f w = (out, w') ->
  exists evs, trace w' = trace w ++ evs /\ Forall notRun evs.
Proof.
  assert (Hnil : forall w : World,
             exists evs, trace w = trace w ++ evs /\ Forall notRun evs).
  { intros w. exists []. rewrite app_nil_r. split; [reflexivity | constructor]. }
  induction fuel as [|fuel IH]; intros f w out w'.
  - intros [= <- <-]. apply Hnil.
  - cbn [Flag.parseLoop]. unfold bind. rewrite parseOne_eq.
    destruct (nextFlag f) as [f'|e f'|p nm v f'].
    + intros [= <- <-]. apply Hnil.
    + destruct (Flag.errorHandling f'); [|destruct e|];
        intros [= <- <-]; apply Hnil.
    + destruct (assign ByFlag OptStateFlagPassed p v w) as [o w1] eqn:Ha.
      apply assign_notRun in Ha as (evs1 & Ht1 & Hn1).
      destruct o as [[]|c|m].
      * intros H. apply IH in H as (evs2 & Ht2 & Hn2).
        exists (evs1 ++ evs2). rewrite Ht2, Ht1, app_assoc.
        split; [reflexivity | apply Forall_app; split; assumption].
      * intros [= <- <-]. eauto.
      * intros [= <- <-]. eauto.
Qed.

Lemma resolveAll_notRun environ parsed : forall w out w',
  resolveAll environ parsed w = (out, w') ->
  exists evs, trace w' = trace w ++ evs /\ Forall notRun evs.
Proof.
  assert (Hnil : forall w : World,
             exists evs, trace w = trace w ++ evs /\ Forall notRun evs).
  { intros w. exists []. rewrite app_nil_r. split; [reflexivity | constructor]. }
  induction parsed as [|p parsed IH]; intros w out w'.
  - intros [= <- <-]. apply Hnil.
  - cbn [resolveAll]. unfold bind.
    destruct (resolve environ p w) as [r w1] eqn:Hr.
    assert (H1 : exists evs, trace w1 = trace w ++ evs /\ Forall notRun evs).
    { rewrite resolve_eq in Hr. destruct (heap w !! p) as [o|].
      - destruct (bool_decide _).
        + destruct (LookupEnv _ _) as [v|].
          * destruct (assign ByEnv OptStateEnvPassed p v w) as [o1 w2] eqn:Ha.
            apply assign_notRun in Ha.
            destruct o1; injection Hr as <- <-; exact Ha.
          * injection Hr as <- <-. apply Hnil.
        + injection Hr as <- <-. apply Hnil.
      - injection Hr as <- <-. apply Hnil. }
    destruct H1 as (evs1 & Ht1 & Hn1).
    destruct r as [[e|]|c|m]; try (intros [= <- <-]; eauto).
    intros H. apply IH in H as (evs2 & Ht2 & Hn2).
    exists (evs1 ++ evs2). rewrite Ht2, Ht1, app_assoc.
    split; [reflexivity | apply Forall_app; split; assumption].
Qed.

Lemma Init_notRun environ cmd args w out w' :
  Init environ cmd args w = (out, w') ->
  exists evs, trace w' = trace w ++ evs /\ Forall notRun evs.
Proof.
  destruct (Cmd.Opts cmd) as [fs|] eqn:Ho.
  - rewrite (Init_eq _ _ fs) by exact Ho.
    destruct (registerAll _ _ _ w) as [reg w1] eqn:Hreg.
    apply registerAll_post in Hreg as (_ & Ht1 & _).
    assert (Hnil : exists evs, trace w1 = trace w ++ evs /\ Forall notRun evs).
    { exists []. rewrite app_nil_r. split; [exact Ht1 | constructor]. }
    destruct reg as [[err|[flags parsed]]|c|m]; try (intros [= <- <-]; exact Hnil).
    unfold Flag.Parse.
    destruct (Flag.parseLoop _ _ w1) as [pr w2] eqn:Hp.
    apply parseLoop_notRun in Hp as (evs2 & Ht2 & Hn2). rewrite Ht1 in Ht2.
    destruct pr as [[err flags']|c|m]; try (intros [= <- <-]; eauto).
    intros H. apply resolveAll_notRun in H as (evs3 & Ht3 & Hn3).
    cbn [addEvent trace] in Ht3.
    exists ((evs2 ++ [EvLog (Flag.Args flags')]) ++ evs3).
    rewrite Ht3, Ht2, <- !app_assoc. split; [reflexivity|].
    rewrite !Forall_app. repeat split; try assumption. repeat constructor.
  - unfold Init. rewrite Ho. intros [= <- <-]. exists [].
    rewrite app_nil_r. split; [reflexivity | constructor].
Qed.

(** X9.  [Execute] calls an action exactly when the arguments lead to a
    target, [Init] on the target returns [nil] and the target has an
    action.  Then the target has no subcommands, the call is the last
    thing [Execute] does, after a run of [Init] that called no action, and
    [Execute] returns the result of the action on the record [Init] left.
    In every other run no action is called. *)
Theorem Execute_runs_childless_target_last
    (osArgs : list string) (environ : gmap string string) (cmd : Cmd)
    (w w' : World) (out : outcome (option error)) :
  Execute osArgs environ cmd w = (out, w') ->
  (forall arg0 args target rest w1 action,
      osArgs = arg0 :: args ->
      route (Cmd.setExecutedAs cmd arg0) args = inr (target, rest) ->
      Init environ target rest w = (Return None, w1) ->
      Cmd.Run target = Some action ->
      Cmd.SubCmds target = []
      /\ out = Return (action (record w1))
      /\ w' = addEvent w1 (EvRun (Cmd.Name target))
      /\ Forall notRun (eventsSince w w1))
  /\ (~ Forall notRun (eventsSince w w') ->
      exists arg0 args target rest w1 action,
        osArgs = arg0 :: args
        /\ route (Cmd.setExecutedAs cmd arg0) args = inr (target, rest)
        /\ Init environ target rest w = (Return None, w1)
        /\ Cmd.Run target = Some action).
Proof.
  intros Hrun. split.
  - intros arg0 args target rest w1 action -> Hroute Hinit Haction.
    revert Hrun. unfold Execute. rewrite Hroute. unfold bind.
    rewrite Hinit. unfold callRun. rewrite Haction.
    unfold bind, emit. intros [= <- <-].
    split; [exact (route_childless _ _ _ _ Hroute)|].
    split; [reflexivity|]. split; [reflexivity|].
    destruct (Init_notRun _ _ _ _ _ _ Hinit) as (evs0 & Ht0 & Hn0).
    rewrite (eventsSince_app _ _ _ Ht0). exact Hn0.
  - intros Hran.
    assert (Hnil : forall w0 : World, trace w0 = trace w ->
               Forall notRun (eventsSince w w0)).
    { intros w0 E. rewrite (eventsSince_app w w0 []); [constructor|].
      rewrite app_nil_r. exact E. }
    revert Hrun. unfold Execute. destruct osArgs as [|arg0 args].
    { intros [= <- <-]. destruct Hran. apply Hnil. reflexivity. }
    destruct (route (Cmd.setExecutedAs cmd arg0) args)
      as [e|[target rest]] eqn:Hroute.
    { intros [= <- <-]. destruct Hran. apply Hnil. reflexivity. }
    unfold bind.
    destruct (Init environ target rest w) as [r w1] eqn:Hinit.
    destruct (Init_notRun _ _ _ _ _ _ Hinit) as (evs0 & Ht0 & Hn0).
    assert (Hstop : Forall notRun (eventsSince w w1))
      by (rewrite (eventsSince_app _ _ _ Ht0); exact Hn0).
    destruct r as [[e|]|c|m];
      try (intros [= <- <-]; destruct Hran; exact Hstop).
    unfold callRun. destruct (Cmd.Run target) as [action|] eqn:Haction.
    + intros _. exists arg0, args, target, rest, w1, action. auto.
    + intros [= <- <-]. destruct Hran. exact Hstop.
Qed.

Lemma Execute_runs_childless_target_last_witness :
  Execute ["prog"; "serve"; "http"; "--port"; "8080"] ∅
          (rootCmd (fun _ => None)) fresh_world
  = (Return None,
     addEvent (snd (Init ∅ (httpCmd (fun _ => None)) ["--port"; "8080"]
                         fresh_world))
              (EvRun "http")).
Proof.
  destruct (Execute_runs_childless_target_last
              ["prog"; "serve"; "http"; "--port"; "8080"] ∅
              (rootCmd (fun _ => None)) fresh_world
              (snd (Execute ["prog"; "serve"; "http"; "--port"; "8080"] ∅
                            (rootCmd (fun _ => None)) fresh_world))
              (fst (Execute ["prog"; "serve"; "http"; "--port"; "8080"] ∅
                            (rootCmd (fun _ => None)) fresh_world)))
    as [H _].
  - apply surjective_pairing.
  - destruct (H "prog" ["serve"; "http"; "--port"; "8080"]
                (httpCmd (fun _ => None)) ["--port"; "8080"]
                (snd (Init ∅ (httpCmd (fun _ => None)) ["--port"; "8080"]
                           fresh_world))
                (fun _ => None))
      as (_ & Hout & Hw & _).
    + reflexivity.
    + reflexivity.
    + vm_compute. reflexivity.
    + reflexivity.
    + etransitivity; [apply surjective_pairing|].
      rewrite Hout, Hw. reflexivity.
Defined.




Section Frame.

Context (environ : gmap string string) (h0 : nat) (refs : list reflected).

Hypothesis distinct : NoDup (pathOf <$> refs).




End Frame.



(** X10.  When [Init] returns [nil], every discovered field has its
    option, named by [ToSnakeCase] and required as its tag says; a required
    option is not left untouched, and an option left untouched has no
    variable in the environment, the empty value and no setter call. *)
Theorem Init_nil_settles_every_option
    (environ : gmap string string) (cmd : Cmd) (fs : list Reflect.StructField)
    (args : list string) (w w' : World) (i : nat) (ref : reflected) :
  Cmd.Opts cmd = Some fs ->
  Cmd.ParsedOpts cmd = [] ->
  Init environ cmd args w = (Return None, w') ->
  reflectStruct fs !! i = Some ref ->
  exists o,
    heap w' !! (length (heap w) + i) = Some o
    /\ Opt.Name o = ToSnakeCase (Reflect.Name (Field ref))
    /\ Opt.Required o = requiredOf ref
    /\ (Opt.Required o = true -> Opt.State o <> OptStateUntouched)
    /\ (Opt.State o = OptStateUntouched ->
        LookupEnv environ (ToUpper (Opt.Name o)) = None
        /\ Opt.Value o = ""
        /\ valuesAt ByFlag (length (heap w) + i) (eventsSince w w') = []
        /\ valuesAt ByEnv (length (heap w) + i) (eventsSince w w') = []).
Proof.
  intros Ho Hp Hrun Href.
  destruct (Init_run _ _ _ _ _ _ _ Ho Hp Hrun) as (evs & Ht & _ & HI & Hset).
  rewrite (eventsSince_app _ _ _ Ht).
  destruct (inv_opts _ _ _ _ _ HI i ref Href) as (o & Hlook & (Hn & _ & Hr) & Hagr).
  destruct (Hset i) as (o1 & Ho1 & Hs); [eapply lookup_lt_Some; exact Href|].
  assert (o1 = o) by congruence. subst o1.
  exists o. split; [exact Hlook|]. split; [exact Hn|]. split; [exact Hr|].
  split.
  - intros Hreq Hu. destruct (Hs Hu) as [_ Hf]. congruence.
  - intros Hu. destruct (Hs Hu) as [Hnone _]. split; [exact Hnone|].
    unfold agrees in Hagr. rewrite Hu in Hagr. exact Hagr.
Qed.

Lemma Init_nil_settles_every_option_witness :
  exists o,
    heap (snd (Init {["SECOND" := "x"]} twoCmd ["--first"; "1"] fresh_world))
      !! (length (heap fresh_world) + 0) = Some o
    /\ Opt.Name o = ToSnakeCase "First"
    /\ Opt.Required o = true
    /\ (Opt.Required o = true -> Opt.State o <> OptStateUntouched)
    /\ (Opt.State o = OptStateUntouched ->
        LookupEnv {["SECOND" := "x"]} (ToUpper (Opt.Name o)) = None
        /\ Opt.Value o = ""
        /\ valuesAt ByFlag (length (heap fresh_world) + 0)
             (eventsSince fresh_world
                (snd (Init {["SECOND" := "x"]} twoCmd ["--first"; "1"]
                        fresh_world))) = []
        /\ valuesAt ByEnv (length (heap fresh_world) + 0)
             (eventsSince fresh_world
                (snd (Init {["SECOND" := "x"]} twoCmd ["--first"; "1"]
                        fresh_world))) = []).
Proof.
  apply (Init_nil_settles_every_option {["SECOND" := "x"]} twoCmd
           [field "First" [("required", "true")]; field "Second" []]
           ["--first"; "1"] fresh_world _ 0
           (mkItem (Reflect.mkValue
                      (Reflect.TStruct
                         [field "First" [("required", "true")];
                          field "Second" []])
                      [] false false) 0 (field "First" [("required", "true")]))).
  - reflexivity.
  - reflexivity.
  - vm_compute. reflexivity.
  - reflexivity.
Defined.






Lemma tagError_NumError ref e :
  tagError ref = Some e ->
  exists t, Reflect.Lookup (Reflect.Tag (Field ref)) "required" = Some t
            /\ e = NumError "ParseBool" t.
Proof.
  unfold tagError. destruct (Reflect.Lookup _ _) as [t|]; [|discriminate].
  unfold ParseBool. repeat (destruct (bool_decide _); [discriminate|]).
  intros [= <-]. exists t. split; reflexivity.
Qed.

(** X12.  For a command that came without options of its own
    ([ParsedOpts] is empty when [Init] is called): when [Init] returns
    [nil] or a missing-option error, or the process exits while parsing,
    every option that is not untouched has its value in its field of the
    record, [Opt.String] returns that value, and it is the value of the
    last setter call for the option: what was assigned before a failure
    stays assigned. *)
Theorem passed_values_are_in_the_record
    (environ : gmap string string) (cmd : Cmd) (fs : list Reflect.StructField)
    (args : list string) (w w' : World) (out : outcome (option error))
    (i : nat) (ref : reflected) (o : Opt) :
  Cmd.Opts cmd = Some fs ->
  Cmd.ParsedOpts cmd = [] ->
  Init environ cmd args w = (out, w') ->
  out = Return None
  \/ (exists name, out = Return (Some (requiredError name)))
  \/ (exists c, out = Exit c) ->
  reflectStruct fs !! i = Some ref ->
  heap w' !! (length (heap w) + i) = Some o ->
  Opt.State o <> OptStateUntouched ->
  record w' !! pathOf ref = Some (Opt.Value o)
  /\ Opt_String (length (heap w) + i) w' = (Return (Opt.Value o), w')
  /\ last (valuesAt ByFlag (length (heap w) + i) (eventsSince w w')
           ++ valuesAt ByEnv (length (heap w) + i) (eventsSince w w'))
     = Some (Opt.Value o).
Proof.
  intros Ho Hp Hrun Hout Href Hlook Hst.
  destruct (Init_run _ _ _ _ _ _ _ Ho Hp Hrun) as (evs & Ht & _ & Hpost).
  rewrite (eventsSince_app _ _ _ Ht).
  assert (HI : Inv environ (length (heap w)) (reflectStruct fs) evs w').
  { destruct Hout as [-> | [[name ->] | [c ->]]]; cbn [initPost] in Hpost.
    - apply Hpost.
    - destruct Hpost as [(_ & r & _ & Hr) | [HI _]]; [|exact HI].
      apply tagError_NumError in Hr as (t & _ & Hr). discriminate Hr.
    - apply Hpost. }
  destruct (inv_opts _ _ _ _ _ HI i ref Href) as (o1 & Ho1 & _ & Hagr).
  assert (o1 = o) by congruence. subst o1.
  split; [|split].
  - unfold agrees in Hagr. destruct (Opt.State o); [contradiction| |];
      apply Hagr.
  - unfold Opt_String, bind, load, ret. rewrite Hlook. reflexivity.
  - unfold agrees in Hagr. destruct (Opt.State o); [contradiction| |].
    + destruct Hagr as (Hl & -> & _). rewrite app_nil_r. exact Hl.
    + destruct Hagr as (-> & -> & _). reflexivity.
Qed.

Lemma passed_values_are_in_the_record_witness :
  record (snd (Init ∅ lateCmd ["--first"; "1"] fresh_world)) !! [0] = Some "1"
  /\ fst (Init ∅ lateCmd ["--first"; "1"] fresh_world)
     = Return (Some (requiredError "second")).
Proof.
  split; [|vm_compute; reflexivity].
  refine (proj1 (passed_values_are_in_the_record ∅ lateCmd
           [field "First" []; field "Second" [("required", "true")]]
           ["--first"; "1"] fresh_world
           (snd (Init ∅ lateCmd ["--first"; "1"] fresh_world))
           (Return (Some (requiredError "second"))) 0
           (mkItem (Reflect.mkValue
                      (Reflect.TStruct
                         [field "First" [];
                          field "Second" [("required", "true")]])
                      [] false false) 0 (field "First" []))
           (Opt.mk "first" "" "1" OptStateFlagPassed
                   (Reflect.SetString
                      (Reflect.mkValue Reflect.TString [0] false false))
                   false)
           _ _ _ _ _ _ _)).
  - reflexivity.
  - reflexivity.
  - vm_compute. reflexivity.
  - right. left. exists "second". reflexivity.
  - reflexivity.
  - vm_compute. reflexivity.
  - discriminate.
Defined.

Lemma registerAll_malformed pre ref post err : forall flags parsed w,
  Forall tagOk pre ->
  Forall (fun r => validName (optionName r)) pre ->
  NoDup (optionName <$> pre) ->
  (forall nm, nm ∈ (optionName <$> pre) -> Flag.formal flags !! nm = None) ->
  tagError ref = Some err ->
  exists w', registerAll (pre ++ ref :: post) flags parsed w
             = (Return (inl err), w')
             /\ record w' = record w /\ trace w' = trace w.
Proof.
  induction pre as [|r pre IH]; intros flags parsed w Hok Hval Hnd Hfree Herr.
  - cbn [app]. rewrite registerAll_cons, Herr. eexists. repeat split.
  - cbn [app]. rewrite registerAll_cons.
    inversion Hok as [|? ? Ht Hoks]; subst.
    inversion Hval as [|? ? [Hv1 Hv2] Hvals]; subst.
    rewrite fmap_cons in Hnd. apply NoDup_cons in Hnd as [Hnin Hnd].
    rewrite Ht. unfold varPanic. rewrite Hv1, Hv2.
    rewrite bool_decide_eq_false_2 by (intros [? ?]; discriminate).
    rewrite (Hfree (optionName r)) by (rewrite fmap_cons; left).
    rewrite bool_decide_eq_false_2 by (intros [? ?]; discriminate).
    destruct (IH (defineFlag flags (optionName r) (length (heap w)))
                 (parsed ++ [length (heap w)]) (allocated w (declared r))
                 Hoks Hvals Hnd) as (w' & Hrun & Hr & Htr); [|exact Herr|].
    + intros nm Hin. cbn [defineFlag Flag.formal].
      rewrite lookup_insert_ne by (intros <-; contradiction).
      apply Hfree. rewrite fmap_cons. right. exact Hin.
    + exists w'. split; [exact Hrun|]. split; [exact Hr | exact Htr].
Qed.

(** X14.  A [required] tag that is no boolean, on a field whose
    predecessors in discovery order have well-formed tags and distinct
    names that [flag.Var] accepts, makes [Init] return the error of
    [strconv.ParseBool] on the tag before anything is parsed: whatever the
    arguments and the environment, no setter is called, nothing is logged
    and the record is unchanged. *)
Theorem malformed_tag_returned_before_parsing
    (environ : gmap string string) (cmd : Cmd) (fs : list Reflect.StructField)
    (args : list string) (w : World)
    (pre post : list reflected) (ref : reflected) (t : string) :
  Cmd.Opts cmd = Some fs ->
  reflectStruct fs = pre ++ ref :: post ->
  Forall tagOk pre ->
  Forall (fun r => validName (optionName r)) pre ->
  NoDup (optionName <$> pre) ->
  Reflect.Lookup (Reflect.Tag (Field ref)) "required" = Some t ->
  (forall b, ParseBool t <> inl b) ->
  exists w',
    Init environ cmd args w = (Return (Some (NumError "ParseBool" t)), w')
    /\ record w' = record w
    /\ trace w' = trace w.
Proof.
  intros Ho Hsplit Hok Hval Hnd Htag Hbad.
  assert (Herr : tagError ref = Some (NumError "ParseBool" t)).
  { unfold tagError. rewrite Htag. revert Hbad. unfold ParseBool.
    destruct (bool_decide _); [intros H; destruct (H true); reflexivity|].
    destruct (bool_decide _); [intros H; destruct (H false); reflexivity|].
    reflexivity. }
  rewrite (Init_eq _ _ fs) by exact Ho. rewrite Hsplit.
  destruct (registerAll_malformed pre ref post (NumError "ParseBool" t)
              (Flag.NewFlagSet (Cmd.Name cmd) Flag.ExitOnError)
              (Cmd.ParsedOpts cmd) w Hok Hval Hnd) as (w' & Hrun & Hr & Htr);
    [|exact Herr|].
  - intros nm _. apply lookup_empty.
  - rewrite Hrun. exists w'. split; [reflexivity|]. split; assumption.
Qed.

Lemma malformed_tag_returned_before_parsing_witness :
  exists w',
    Init {["FIRST" := "1"]} yesCmd ["--bogus"] fresh_world
    = (Return (Some (NumError "ParseBool" "yes")), w')
    /\ record w' = record fresh_world
    /\ trace w' = trace fresh_world.
Proof.
  apply (malformed_tag_returned_before_parsing {["FIRST" := "1"]} yesCmd
           [field "First" [("required", "true")];
            field "Second" [("required", "yes")]]
           ["--bogus"] fresh_world
           [mkItem (Reflect.mkValue
                      (Reflect.TStruct
                         [field "First" [("required", "true")];
                          field "Second" [("required", "yes")]])
                      [] false false) 0 (field "First" [("required", "true")])]
           []
           (mkItem (Reflect.mkValue
                      (Reflect.TStruct
                         [field "First" [("required", "true")];
                          field "Second" [("required", "yes")]])
                      [] false false) 1 (field "Second" [("required", "yes")]))).
  - reflexivity.
  - reflexivity.
  - repeat constructor.
  - repeat constructor.
  - apply NoDup_singleton.
  - reflexivity.
  - intros b. vm_compute. discriminate.
Defined.



(** X20.  A target without options ignores its arguments: when the
    loop of [Execute] ends at a command whose [Opts] is [nil], [Execute]
    runs its action on the unchanged record, whatever the remaining
    arguments and the environment are, and panics if it has no action. *)
Theorem Execute_without_options_ignores_arguments
    (environ : gmap string string) (cmd target : Cmd)
    (arg0 : string) (args rest : list string) (w : World) :
  route (Cmd.setExecutedAs cmd arg0) args = inr (target, rest) ->
  Cmd.Opts target = None ->
  Execute (arg0 :: args) environ cmd w
  = match Cmd.Run target with
    | Some action =>
        (Return (action (record w)), addEvent w (EvRun (Cmd.Name target)))
    | None => (Panic nilDeref, w)
    end.
Proof.
  intros Hroute Hopts. unfold Execute. rewrite Hroute.
  unfold bind, Init. rewrite Hopts. unfold ret, callRun.
  destruct (Cmd.Run target); reflexivity.
Qed.

Lemma Execute_without_options_ignores_arguments_witness :
  Execute ["tool"; "version"; "--bogus"] ∅ (toolCmd (fun _ => None)) fresh_world
  = (Return None, addEvent fresh_world (EvRun "version")).
Proof.
  exact (Execute_without_options_ignores_arguments ∅
           (toolCmd (fun _ => None)) (versionCmd (fun _ => None))
           "tool" ["version"; "--bogus"] ["--bogus"] fresh_world
           eq_refl eq_refl).
Defined.







Lemma allExported_cons f fs :
  allExported (Reflect.TStruct (f :: fs))
  = Reflect.IsExported (Reflect.Name f) && allExported (Reflect.Type_ f)
    && allExported (Reflect.TStruct fs).
Proof. reflexivity. Qed.

Lemma unwrapFrom_flags fs v i :
  Forall (fun r =>
            Reflect.typ (Value r) = Reflect.Type_ (Field r)
            /\ (Reflect.IsExported (Reflect.Name (Field r)) = false ->
                readOnly (Value r) = true))
         (unwrapFrom v i fs)
  /\ (Reflect.stickyRO v = false ->
      allExported (Reflect.TStruct fs) = true ->
      Forall (fun r => readOnly (Value r) = false) (unwrapFrom v i fs)).
Proof.
  revert fs v i.
  apply (unwrapFrom_ind (fun v i fs l =>
    Forall (fun r =>
              Reflect.typ (Value r) = Reflect.Type_ (Field r)
              /\ (Reflect.IsExported (Reflect.Name (Field r)) = false ->
                  readOnly (Value r) = true)) l
    /\ (Reflect.stickyRO v = false ->
        allExported (Reflect.TStruct fs) = true ->
        Forall (fun r => readOnly (Value r) = false) l))).
  - intros v i. split; [constructor | intros _ _; constructor].
  - intros v i f fs rest Hl [IH1 IH2]. split.
    + constructor; [|exact IH1].
      cbn [mkItem Value Field Reflect.Field Reflect.typ].
      split; [reflexivity|]. intros Hx. unfold readOnly.
      cbn [Reflect.Field Reflect.stickyRO Reflect.embedRO]. rewrite Hx.
      destruct (Reflect.Embedded f), (Reflect.stickyRO v); reflexivity.
    + intros Hv. rewrite allExported_cons. intros Hall.
      apply andb_prop in Hall as [Hall Hfs]. apply andb_prop in Hall as [Hx _].
      constructor; [|apply IH2; assumption].
      unfold readOnly.
      cbn [mkItem Value Reflect.Field Reflect.stickyRO Reflect.embedRO].
      rewrite Hv, Hx. reflexivity.
  - intros v i f sub fs inner rest E [In1 In2] [IH1 IH2]. split.
    + apply Forall_app. split; assumption.
    + intros Hv. rewrite allExported_cons. intros Hall.
      apply andb_prop in Hall as [Hall Hfs]. apply andb_prop in Hall as [Hx Hsub].
      apply Forall_app. split; [|apply IH2; assumption].
      apply In2.
      * cbn [Reflect.Field Reflect.stickyRO]. rewrite Hv, Hx. reflexivity.
      * rewrite <- E. exact Hsub.
Qed.

(** X19.  The setter of a discovered field either panics or writes the
    value at the path of that field and nowhere else; it can only succeed
    on a field of kind string with an exported name, and it does succeed on
    every string field of a record whose field names are all exported, at
    any depth. *)
Theorem setter_writes_its_field_or_panics
    (fs : list Reflect.StructField) (ref : reflected) (x : string)
    (m : gmap (list nat) string) :
  ref ∈ reflectStruct fs ->
  (forall m', Reflect.SetString (Value ref) x m = Some m' ->
     m' = <[pathOf ref := x]> m
     /\ Reflect.Type_ (Field ref) = Reflect.TString
     /\ Reflect.IsExported (Reflect.Name (Field ref)) = true)
  /\ (allExported (Reflect.TStruct fs) = true ->
      Reflect.Type_ (Field ref) = Reflect.TString ->
      Reflect.SetString (Value ref) x m = Some (<[pathOf ref := x]> m)).
Proof.
  intros Hin. unfold reflectStruct, structUnwrap in Hin. cbn [Type_ Value] in Hin.
  rewrite unwrapType_struct in Hin.
  destruct (unwrapFrom_flags fs
              (Reflect.mkValue (Reflect.TStruct fs) [] false false) 0)
    as [H1 H2].
  rewrite Forall_forall in H1. destruct (H1 ref Hin) as [Ht Hro].
  split.
  - intros m'. unfold Reflect.SetString. fold (readOnly (Value ref)).
    destruct (readOnly (Value ref)) eqn:Hr; [discriminate|].
    rewrite Ht. destruct (Reflect.Type_ (Field ref)); try discriminate.
    intros [= <-]. split; [reflexivity|]. split; [reflexivity|].
    destruct (Reflect.IsExported (Reflect.Name (Field ref))); [reflexivity|].
    specialize (Hro eq_refl). discriminate.
  - intros Hall Hs. specialize (H2 eq_refl Hall).
    rewrite Forall_forall in H2. specialize (H2 ref Hin).
    unfold Reflect.SetString. fold (readOnly (Value ref)).
    rewrite H2, Ht, Hs. reflexivity.
Qed.

Lemma setter_writes_its_field_or_panics_witness :
  Reflect.SetString
    (Reflect.mkValue Reflect.TString [0] false false) "8080" ∅
  = Some {[ [0] := "8080" ]}.
Proof.
  refine (proj2 (setter_writes_its_field_or_panics [field "Port" []]
                   (mkItem (Reflect.mkValue
                              (Reflect.TStruct [field "Port" []]) [] false false)
                           0 (field "Port" []))
                   "8080" ∅ _) _ _).
  - apply list_elem_of_here.
  - reflexivity.
  - reflexivity.
Defined.

Section AppendTwice.

Context {A : Type} (zero : A) (grow : nat -> nat).

(** A second [append] to the same header: in place it writes the slot of
    the first again, without room it leaves the first one's array alone. *)
Lemma append_twice (mem : gmap nat (list A)) s x y :
  Slice.wf mem s ->
  Slice.elems
    (fst (Slice.append zero grow (fst (Slice.append zero grow mem s x)) s y))
    (snd (Slice.append zero grow mem s x))
  = Slice.elems mem s ++ [if Slice.len s <? Slice.cap s then y else x].
Proof.
  intros Hwf.
  pose proof (append_wf zero grow mem s x s Hwf) as Hwf1.
  pose proof (append_elems_callee zero grow mem s x Hwf) as Hx.
  pose proof (append_elems_callee zero grow
                (fst (Slice.append zero grow mem s x)) s y Hwf1) as Hy.
  rewrite (append_elems_caller zero grow mem s x Hwf) in Hy.
  destruct (Slice.len s <? Slice.cap s) eqn:Hlt.
  - rewrite <- Hy. f_equal. unfold Slice.append. rewrite Hlt. reflexivity.
  - rewrite <- Hx.
    set (m1 := fst (Slice.append zero grow mem s x)) in *.
    set (h1 := snd (Slice.append zero grow mem s x)) in *.
    assert (Hin : Slice.array h1 ∈ dom m1).
    { subst m1 h1. unfold Slice.append. rewrite Hlt.
      cbn [fst snd Slice.array]. apply elem_of_dom.
      rewrite lookup_insert_eq. eauto. }
    unfold Slice.append. rewrite Hlt. cbn [fst]. unfold Slice.elems.
    rewrite lookup_insert_ne; [reflexivity|].
    intros E. apply (is_fresh (dom m1)). rewrite E. exact Hin.
Qed.

End AppendTwice.

(** X17.  [AddSubCmd] writes at most one slot of one array, the one
    behind the length of the receiver's [SubCmds]: every backed slice whose
    window leaves that slot out, in the same array or another, reads as
    before and stays backed. *)
Theorem AddSubCmd_writes_one_slot
    (grow : nat -> nat) (mem : gmap nat (list CmdMem.t)) (c s : CmdMem.t)
    (other : Slice.t) :
  Slice.wf mem other ->
  Slice.array other <> Slice.array (CmdMem.SubCmds c)
  \/ Slice.off (CmdMem.SubCmds c) + Slice.len (CmdMem.SubCmds c) < Slice.off other
  \/ Slice.off other + Slice.len other
     <= Slice.off (CmdMem.SubCmds c) + Slice.len (CmdMem.SubCmds c) ->
  Slice.elems (fst (AddSubCmd grow mem c s)) other = Slice.elems mem other
  /\ Slice.wf (fst (AddSubCmd grow mem c s)) other.
Proof.
  intros Hwf Hout.
  pose proof (append_elems_other CmdMem.zero grow mem (CmdMem.SubCmds c) s
                other Hwf Hout) as He.
  pose proof (append_wf CmdMem.zero grow mem (CmdMem.SubCmds c) s other Hwf)
    as Hw.
  unfold AddSubCmd.
  destruct (Slice.append CmdMem.zero grow mem (CmdMem.SubCmds c) s) as [mem' s'].
  split; assumption.
Qed.

(** X18.  Two calls of [AddSubCmd] on one receiver: the receiver still
    shows the subcommands it showed, the second copy ends with the second
    subcommand, and the first copy ends with the second subcommand too
    when the slice had room (both calls wrote the same slot), with the
    first one otherwise. *)
Theorem AddSubCmd_twice_on_one_receiver
    (grow : nat -> nat) (mem : gmap nat (list CmdMem.t)) (c s1 s2 : CmdMem.t) :
  Slice.wf mem (CmdMem.SubCmds c) ->
  Slice.elems (fst (AddSubCmd grow (fst (AddSubCmd grow mem c s1)) c s2))
              (CmdMem.SubCmds c)
  = Slice.elems mem (CmdMem.SubCmds c)
  /\ Slice.elems
       (fst (AddSubCmd grow (fst (AddSubCmd grow mem c s1)) c s2))
       (CmdMem.SubCmds
          (snd (AddSubCmd grow (fst (AddSubCmd grow mem c s1)) c s2)))
     = Slice.elems mem (CmdMem.SubCmds c) ++ [s2]
  /\ Slice.elems
       (fst (AddSubCmd grow (fst (AddSubCmd grow mem c s1)) c s2))
       (CmdMem.SubCmds (snd (AddSubCmd grow mem c s1)))
     = Slice.elems mem (CmdMem.SubCmds c)
       ++ [if Slice.len (CmdMem.SubCmds c) <? Slice.cap (CmdMem.SubCmds c)
           then s2 else s1].
Proof.
  intros Hwf.
  pose proof (append_wf CmdMem.zero grow mem (CmdMem.SubCmds c) s1 _ Hwf) as Hwf1.
  pose proof (append_elems_caller CmdMem.zero grow mem _ s1 Hwf) as H1.
  pose proof (append_elems_caller CmdMem.zero grow _ _ s2 Hwf1) as H2.
  pose proof (append_elems_callee CmdMem.zero grow _ _ s2 Hwf1) as H3.
  pose proof (append_twice CmdMem.zero grow mem _ s1 s2 Hwf) as H4.
  unfold AddSubCmd.
  destruct (Slice.append CmdMem.zero grow mem (CmdMem.SubCmds c) s1)
    as [mem1 h1].
  cbn [fst snd] in *.
  destruct (Slice.append CmdMem.zero grow mem1 (CmdMem.SubCmds c) s2)
    as [mem2 h2].
  cbn [fst snd CmdMem.setSubCmds CmdMem.SubCmds] in *.
  rewrite H2, H1 in *. split; [reflexivity|]. split; [exact H3 | exact H4].
Qed.

Lemma AddSubCmd_writes_one_slot_witness :
  Slice.elems (fst (AddSubCmd (fun n => 2 * n) rootArrays rootVar extraCmd))
              (Slice.mk 0 0 1 1)
  = Slice.elems rootArrays (Slice.mk 0 0 1 1)
  /\ Slice.wf (fst (AddSubCmd (fun n => 2 * n) rootArrays rootVar extraCmd))
              (Slice.mk 0 0 1 1).
Proof.
  apply (AddSubCmd_writes_one_slot (fun n => 2 * n) rootArrays rootVar extraCmd
           (Slice.mk 0 0 1 1)).
  - split; [cbn; lia|]. right. exists [serveOnly; CmdMem.zero].
    split; [reflexivity | cbn; lia].
  - right. right. cbn. lia.
Defined.

Lemma AddSubCmd_twice_on_one_receiver_witness :
  Slice.elems
    (fst (AddSubCmd (fun n => 2 * n)
            (fst (AddSubCmd (fun n => 2 * n) rootArrays rootVar extraCmd))
            rootVar serveOnly))
    (CmdMem.SubCmds (snd (AddSubCmd (fun n => 2 * n) rootArrays rootVar extraCmd)))
  = [serveOnly; serveOnly].
Proof.
  refine (eq_trans
            (proj2 (proj2 (AddSubCmd_twice_on_one_receiver (fun n => 2 * n)
                             rootArrays rootVar extraCmd serveOnly _))) _).
  - split; [cbn; lia|]. right. exists [serveOnly; CmdMem.zero].
    split; [reflexivity | cbn; lia].
  - reflexivity.
Defined.
